(** * The drizzle-kit patch engine ([scripts/patch-drizzle-kit.ts])

    A shallow embedding of the patch script: JavaScript strings as lists
    of UTF-16 code units, the fragment of regular expressions the script
    writes down, [String.prototype.replace] with its substitution
    templates, the rule pipeline of [patchDrizzleKit] and its commit
    gate, followed by the properties of the engine. *)

From Stdlib Require Import Ascii String List NArith ZArith Bool Lia.
Import ListNotations.


(** ** JavaScript strings *)

(** A JavaScript string is a sequence of UTF-16 code units. *)
Definition jsstring := list N.

(** ASCII literals of the source, as code units. *)
Definition str (s : string) : jsstring :=
  map N_of_ascii (list_ascii_of_string s).

Definition ch (a : ascii) : N := N_of_ascii a.

Arguments str s%_string.
Arguments ch a%_char.

Definition NL : N := 10.      (* "\n" *)
Definition DQ : N := 34.      (* the double quote *)
Definition ARROW : N := 8594. (* U+2192, the arrow of two rule names *)

Module JS.

(** [a === b] on strings. *)
Fixpoint eqb (a b : jsstring) : bool :=
  match a, b with
  | [], [] => true
  | x :: a', y :: b' => N.eqb x y && eqb a' b'
  | _, _ => false
  end.

(** [s.startsWith(p)]. *)
Fixpoint startsWith (p s : jsstring) : bool :=
  match p, s with
  | [], _ => true
  | x :: p', y :: s' => N.eqb x y && startsWith p' s'
  | _ :: _, [] => false
  end.

(** [s.includes(k)]. *)
Fixpoint includes (k s : jsstring) : bool :=
  startsWith k s ||
  match s with
  | [] => false
  | _ :: s' => includes k s'
  end.

(** [s.indexOf(k)]: the first position, or -1. *)
Fixpoint indexOf (k s : jsstring) : Z :=
  if startsWith k s then 0%Z
  else match s with
       | [] => (-1)%Z
       | _ :: s' => let i := indexOf k s' in
                    if (i <? 0)%Z then (-1)%Z else (i + 1)%Z
       end.

(** Relative index of [slice]: negative counts from the end, and the
    result is clamped to the string. *)
Definition clamp (len i : Z) : nat :=
  Z.to_nat (if (i <? 0)%Z then Z.max (len + i) 0 else Z.min i len).

(** [s.slice(from, to)]. *)
Definition slice (s : jsstring) (from to : Z) : jsstring :=
  let len := Z.of_nat (length s) in
  let a := clamp len from in
  let b := clamp len to in
  firstn (b - a) (skipn a s).

(** [s.slice(from)]. *)
Definition slice_from (s : jsstring) (from : Z) : jsstring :=
  slice s from (Z.of_nat (length s)).

(** [arr.includes(x)] on an array of strings. *)
Definition arr_includes (x : jsstring) (arr : list jsstring) : bool :=
  existsb (eqb x) arr.

End JS.

(** ** Regular expressions

    Every pattern of the script is a flat sequence of single-character
    atoms, each with at most one quantifier, of the two line assertions
    and of capture groups that are neither nested nor quantified.  The
    matcher below is the backtracking matcher of the language
    specification restricted to that shape. *)

Module RegExp.

(** A character, an escaped character or a class escape. *)
Inductive catom :=
| CLit (c : N)
| C_s      (* \s *)
| C_S      (* \S *)
| C_w      (* \w *)
| C_d.     (* \d *)

Inductive atom :=
| AChar (c : catom)
| ADot                                   (* . *)
| AClass (neg : bool) (ms : list catom). (* [..] and [^..] *)

Inductive quant := One | Star | Plus | Opt | LazyStar.

Inductive item :=
| IAtom (a : atom) (q : quant)
| IBol        (* ^ *)
| IEol        (* $ *)
| IOpen       (* ( *)
| IClose.     (* ) *)

Record t := mk { items : list item; global : bool; multiline : bool }.

Definition in_range (lo hi c : N) : bool := N.leb lo c && N.leb c hi.

(** LineTerminator: LF, CR, LS, PS. *)
Definition is_line_terminator (c : N) : bool :=
  N.eqb c 10 || N.eqb c 13 || N.eqb c 8232 || N.eqb c 8233.

(** WhiteSpace and LineTerminator, the characters of [\s]. *)
Definition is_space (c : N) : bool :=
  in_range 9 13 c || N.eqb c 32 || N.eqb c 160 || N.eqb c 5760 ||
  in_range 8192 8202 c || N.eqb c 8232 || N.eqb c 8233 || N.eqb c 8239 ||
  N.eqb c 8287 || N.eqb c 12288 || N.eqb c 65279.

Definition is_digit (c : N) : bool := in_range 48 57 c.

Definition is_word (c : N) : bool :=
  in_range 97 122 c || in_range 65 90 c || is_digit c || N.eqb c 95.

Definition catom_matches (a : catom) (c : N) : bool :=
  match a with
  | CLit x => N.eqb x c
  | C_s => is_space c
  | C_S => negb (is_space c)
  | C_w => is_word c
  | C_d => is_digit c
  end.

Definition atom_matches (a : atom) (c : N) : bool :=
  match a with
  | AChar x => catom_matches x c
  | ADot => negb (is_line_terminator c)
  | AClass neg ms => xorb neg (existsb (fun x => catom_matches x c) ms)
  end.

(** The state of a successful match: the matched text, the text
    consumed since the innermost pending parenthesis, the captures of
    the groups closed so far, and the unconsumed input. *)
Record mres := MRes {
  mtext : jsstring;
  mcur : jsstring;
  mcaps : list jsstring;
  mrest : jsstring }.

Definition consume (x : N) (r : option mres) : option mres :=
  match r with
  | Some r => Some (MRes (x :: mtext r) (x :: mcur r) (mcaps r) (mrest r))
  | None => None
  end.

Definition orelse (r : option mres) (alt : option mres) : option mres :=
  match r with
  | Some _ => r
  | None => alt
  end.

Definition open_group (r : option mres) : option mres :=
  match r with
  | Some r => Some (MRes (mtext r) [] (mcur r :: mcaps r) (mrest r))
  | None => None
  end.

Definition close_group (r : option mres) : option mres :=
  match r with
  | Some r => Some (MRes (mtext r) [] (mcaps r) (mrest r))
  | None => None
  end.

(** [^]: start of input, or after a line terminator under the [m] flag. *)
Definition at_bol (ml : bool) (prev : option N) : bool :=
  match prev with
  | None => true
  | Some c => ml && is_line_terminator c
  end.

(** [$]: end of input, or before a line terminator under the [m] flag. *)
Definition at_eol (ml : bool) (s : jsstring) : bool :=
  match s with
  | [] => true
  | c :: _ => ml && is_line_terminator c
  end.

Section Matcher.
Variable ml : bool.

(** Greedy repetition: one more character first, the continuation on
    backtracking. *)
Fixpoint star_greedy (a : atom) (k : option N -> jsstring -> option mres)
         (prev : option N) (s : jsstring) : option mres :=
  match s with
  | x :: s' =>
      if atom_matches a x
      then orelse (consume x (star_greedy a k (Some x) s')) (k prev s)
      else k prev s
  | [] => k prev s
  end.

(** Lazy repetition: the continuation first. *)
Fixpoint star_lazy (a : atom) (k : option N -> jsstring -> option mres)
         (prev : option N) (s : jsstring) : option mres :=
  match k prev s with
  | Some r => Some r
  | None =>
      match s with
      | x :: s' =>
          if atom_matches a x
          then consume x (star_lazy a k (Some x) s')
          else None
      | [] => None
      end
  end.

(** One mandatory character, then the continuation. *)
Definition one (a : atom) (k : option N -> jsstring -> option mres)
           (s : jsstring) : option mres :=
  match s with
  | x :: s' => if atom_matches a x then consume x (k (Some x) s') else None
  | [] => None
  end.

(** Match the items at the current position; [prev] is the character
    just before it. *)
Fixpoint m (re : list item) (prev : option N) (s : jsstring)
  : option mres :=
  match re with
  | [] => Some (MRes [] [] [] s)
  | IAtom a One :: re' => one a (m re') s
  | IAtom a Star :: re' => star_greedy a (m re') prev s
  | IAtom a Plus :: re' => one a (star_greedy a (m re')) s
  | IAtom a Opt :: re' => orelse (one a (m re') s) (m re' prev s)
  | IAtom a LazyStar :: re' => star_lazy a (m re') prev s
  | IBol :: re' => if at_bol ml prev then m re' prev s else None
  | IEol :: re' => if at_eol ml s then m re' prev s else None
  | IOpen :: re' => open_group (m re' prev s)
  | IClose :: re' => close_group (m re' prev s)
  end.

(** The leftmost match at or after the current position; [bef] is
    the text before it, last character first. *)
Fixpoint search (re : list item) (bef : jsstring) (s : jsstring)
  : option (jsstring * mres) :=
  match m re (hd_error bef) s with
  | Some r => Some (bef, r)
  | None =>
      match s with
      | [] => None
      | x :: s' => search re (x :: bef) s'
      end
  end.
End Matcher.

(** [r.exec(s)] from index 0. *)
Definition exec (r : t) (s : jsstring) : option (jsstring * mres) :=
  search (multiline r) (items r) [] s.

(** [r.test(s)] with [lastIndex] at 0. *)
Definition test (r : t) (s : jsstring) : bool :=
  match exec r s with
  | Some _ => true
  | None => false
  end.

(** A run of literal characters. *)
Definition lit (s : jsstring) : list item :=
  map (fun c => IAtom (AChar (CLit c)) One) s.

End RegExp.

(** ** [String.prototype.replace] *)

Module Replace.
Import RegExp.

(** The second argument of [replace]: a template string, or a function
    of the match, the captures, the offset and the whole string. *)
Inductive replacement :=
| ReplString (tpl : jsstring)
| ReplFunction (f : jsstring -> list jsstring -> N -> jsstring -> jsstring).

Definition digit_val (c : N) : nat := N.to_nat (c - 48).

(** The capture numbered [i], when [1 <= i <= captures.length]. *)
Definition capture (caps : list jsstring) (i : nat) : option jsstring :=
  match i with
  | O => None
  | S j => nth_error caps j
  end.

(** GetSubstitution: expand the [$] references of a template. *)
Fixpoint getSubstitution (matched before after : jsstring)
         (caps : list jsstring) (tpl : jsstring) : jsstring :=
  let gs := getSubstitution matched before after caps in
  match tpl with
  | [] => []
  | c :: t1 =>
      if negb (N.eqb c 36) then c :: gs t1
      else
        match t1 with
        | [] => [c]
        | d :: t2 =>
            if N.eqb d 36 then 36%N :: gs t2                (* $$ *)
            else if N.eqb d 38 then matched ++ gs t2        (* $& *)
            else if N.eqb d 96 then before ++ gs t2         (* $` *)
            else if N.eqb d 39 then after ++ gs t2          (* $' *)
            else if is_digit d then
              let one_digit :=
                match capture caps (digit_val d) with
                | Some cap => cap ++ gs t2
                | None => c :: d :: gs t2
                end in
              match t2 with
              | d2 :: t3 =>
                  if is_digit d2 then
                    let index := 10 * digit_val d + digit_val d2 in
                    if length caps <? index then one_digit
                    else match capture caps index with
                         | Some cap => cap ++ gs t3
                         | None => c :: d :: d2 :: gs t3
                         end
                  else one_digit
              | [] => one_digit
              end
            else c :: gs t1
        end
  end.

Section Replace.
Variable re : RegExp.t.
Variable rp : replacement.
Variable whole : jsstring.

(** The text put in place of a match found after [bef]. *)
Definition replacement_text (bef : jsstring) (r : mres) : jsstring :=
  match rp with
  | ReplString tpl =>
      getSubstitution (mtext r) (rev bef) (mrest r) (mcaps r) tpl
  | ReplFunction f =>
      f (mtext r) (mcaps r) (N.of_nat (length bef)) whole
  end.

(** The loop of a global replace.  [skip] is the number of characters
    of the last match still to step over; an empty match advances by
    one character, which is copied. *)
Fixpoint replace_global (skip : nat) (bef : jsstring) (s : jsstring)
  : jsstring :=
  match skip with
  | S k =>
      match s with
      | x :: s' => replace_global k (x :: bef) s'
      | [] => []
      end
  | O =>
      match m (multiline re) (items re) (hd_error bef) s with
      | Some r =>
          replacement_text bef r ++
          match s with
          | [] => []
          | x :: s' =>
              match mtext r with
              | [] => x :: replace_global 0 (x :: bef) s'
              | _ :: mt' => replace_global (length mt') (x :: bef) s'
              end
          end
      | None =>
          match s with
          | [] => []
          | x :: s' => x :: replace_global 0 (x :: bef) s'
          end
      end
  end.

(** A replace without the [g] flag rewrites the leftmost match only. *)
Definition replace_first (s : jsstring) : jsstring :=
  match exec re s with
  | Some (bef, r) => rev bef ++ replacement_text bef r ++ mrest r
  | None => s
  end.
End Replace.

(** [s.replace(re, rp)]. *)
Definition replace (re : RegExp.t) (rp : replacement) (s : jsstring)
  : jsstring :=
  if global re then replace_global re rp s 0 [] s
  else replace_first re rp s s.

End Replace.

(** ** The patch script *)

Import RegExp Replace.

Definition NODE_MODULES : jsstring := str "./node_modules".
Definition PATCH_MARKER : jsstring := str "// DRIZZLE-KIT-DENO-PATCHED-V10".

(** Drizzle-kit versions that have been tested with this patch. *)
Definition SUPPORTED_VERSIONS : list jsstring := [str "0.30.6"; str "0.31.8"].

Record PatchResult := mkResult {
  name : jsstring;
  success : bool;
  error : option jsstring }.

(** The first argument of [applyPatch] after the name. *)
Inductive searchPattern :=
| PRegExp (r : RegExp.t)
| PString (s : jsstring).

(** [new RegExp(escapeRegex(s), "g")]: every character of [s] stands for
    itself once the syntax characters are escaped. *)
Definition of_escaped (s : jsstring) : RegExp.t := RegExp.mk (lit s) true false.

Definition applyPatch (content name : jsstring) (searchPattern : searchPattern)
           (replacement : replacement) : jsstring * PatchResult :=
  let pattern :=
    match searchPattern with
    | PString s => of_escaped s
    | PRegExp r => r
    end in
  if negb (RegExp.test pattern content) then
    (content, mkResult name false (Some (str "Pattern not found")))
  else
    let newContent := replace pattern replacement content in
    if JS.eqb newContent content then
      (content, mkResult name false (Some (str "Replacement had no effect")))
    else
      (newContent, mkResult name true None).

(** *** The patterns and replacements of the fifteen rules *)

Module Rules.

(** [\s*] *)
Definition ws : item := IAtom (AChar C_s) Star.

(** [[^c]] under a quantifier. *)
Definition not_char (c : N) (q : quant) : item :=
  IAtom (AClass true [CLit c]) q.

Definition re (its : list item) : searchPattern :=
  PRegExp (RegExp.mk its true false).

(** [/function walkForTsConfig\(directory[^)]*\)\s*\{/g] *)
Definition walkForTsConfig_re : searchPattern :=
  re (lit (str "function walkForTsConfig(directory") ++
      [not_char (ch ")") Star] ++ lit (str ")") ++ [ws] ++ lit (str "{")).

Definition walkForTsConfig_to : jsstring :=
  str "function walkForTsConfig(directory, readdirSync) {" ++ [NL] ++
  str "  return void 0; // PATCHED: disabled for Deno".

(** [/recusivelyResolveSync\(options\)\s*\{/g] *)
Definition recusivelyResolveSync_re : searchPattern :=
  re (lit (str "recusivelyResolveSync(options)") ++ [ws] ++ lit (str "{")).

Definition recusivelyResolveSync_to : jsstring :=
  str "recusivelyResolveSync(options) {" ++ [NL] ++
  str "    return null; // PATCHED: disabled for Deno".

(** [/function _supportsColor\(haveStream,\s*\{[^}]*\}\s*=\s*\{\}\)\s*\{/g] *)
Definition supportsColor_re : searchPattern :=
  re (lit (str "function _supportsColor(haveStream,") ++ [ws] ++
      lit (str "{") ++ [not_char (ch "}") Star] ++ lit (str "}") ++ [ws] ++
      lit (str "=") ++ [ws] ++ lit (str "{})") ++ [ws] ++ lit (str "{")).

Definition supportsColor_to : jsstring :=
  str "function _supportsColor(haveStream, { streamIsTTY, sniffFlags = true } = {}) {" ++ [NL] ++
  str "  // PATCHED: Return color level 3 (truecolor) without checking env vars for Deno" ++ [NL] ++
  str "  return 3;" ++ [NL] ++
  str "  // Original code below (unreachable):".

(** [/function supportsColor2\(stream\)\s*\{/g] *)
Definition supportsColor2_re : searchPattern :=
  re (lit (str "function supportsColor2(stream)") ++ [ws] ++ lit (str "{")).

Definition supportsColor2_to : jsstring :=
  str "function supportsColor2(stream) {" ++ [NL] ++
  str "      // PATCHED: Return color level 3 (truecolor) without checking env vars for Deno" ++ [NL] ++
  str "      return 3;" ++ [NL] ++
  str "      // Original code below (unreachable):".

(** [/if \(!process\.env\.WS_NO_BUFFER_UTIL\) \{/g] *)
Definition bufferutil_re : searchPattern :=
  re (lit (str "if (!process.env.WS_NO_BUFFER_UTIL) {")).

Definition bufferutil_to : jsstring :=
  str "if (false /* PATCHED: skip bufferutil for Deno */ && !process.env.WS_NO_BUFFER_UTIL) {".

(** [/\x22\.\.\/node_modules\/\.pnpm\/dotenv@[^\x22]+\/node_modules\/dotenv\/lib\/env-options\.js\x22\(exports2, module2\) \{\s*var options = \{\};/g],
    the double quotes of the source written [\x22] here. *)
Definition dotenv_options_re : searchPattern :=
  re (lit ([DQ] ++ str "../node_modules/.pnpm/dotenv@") ++
      [not_char DQ Plus] ++
      lit (str "/node_modules/dotenv/lib/env-options.js" ++ [DQ] ++
           str "(exports2, module2) {") ++ [ws] ++
      lit (str "var options = {};")).

Definition dotenv_options_to : jsstring :=
  [DQ] ++ str "../node_modules/.pnpm/dotenv@16.4.5/node_modules/dotenv/lib/env-options.js" ++
  [DQ] ++ str "(exports2, module2) {" ++ [NL] ++
  str "    // PATCHED: Skip DOTENV_CONFIG_* env checks for Deno" ++ [NL] ++
  str "    module2.exports = {};" ++ [NL] ++
  str "    return;" ++ [NL] ++
  str "    var options = {};".

(** [/\/\/ \.\.\/node_modules\/\.pnpm\/dotenv@[^/]+\/node_modules\/dotenv\/config\.js\s*\(function\(\) \{\s*require_main\(\)\.config\(/g] *)
Definition dotenv_config_re : searchPattern :=
  re (lit (str "// ../node_modules/.pnpm/dotenv@") ++
      [not_char (ch "/") Plus] ++
      lit (str "/node_modules/dotenv/config.js") ++ [ws] ++
      lit (str "(function() {") ++ [ws] ++
      lit (str "require_main().config(")).

Definition dotenv_config_to : jsstring :=
  str "// ../node_modules/.pnpm/dotenv@16.4.5/node_modules/dotenv/config.js" ++ [NL] ++
  str "// PATCHED: Skip dotenv auto-config for Deno" ++ [NL] ++
  str "(function() { return; require_main().config(".

(** [/var homedir = import_node_os2\.default\.homedir\(\);/g] *)
Definition homedir_re : searchPattern :=
  re (lit (str "var homedir = import_node_os2.default.homedir();")).

Definition homedir_to : jsstring :=
  str "var homedir = " ++ [DQ] ++ [DQ] ++
  str "; // PATCHED: deferred for Deno - will be set on first use" ++ [NL] ++
  str "var _getHomedir = () => { if (!homedir) homedir = import_node_os2.default.homedir(); return homedir; };".

(** [/var tmpdir = import_node_os2\.default\.tmpdir\(\);/g] *)
Definition tmpdir_re : searchPattern :=
  re (lit (str "var tmpdir = import_node_os2.default.tmpdir();")).

Definition tmpdir_to : jsstring :=
  str "var tmpdir = " ++ [DQ] ++ [DQ] ++
  str "; // PATCHED: deferred for Deno - will be set on first use" ++ [NL] ++
  str "var _getTmpdir = () => { if (!tmpdir) tmpdir = import_node_os2.default.tmpdir(); return tmpdir; };".

(** [/import_node_path\.default\.join\(homedir,/g] *)
Definition lazy_homedir_re : searchPattern :=
  re (lit (str "import_node_path.default.join(homedir,")).

Definition lazy_homedir_to : jsstring :=
  str "import_node_path.default.join(_getHomedir(),".

(** [/import_node_path\.default\.join\(tmpdir,/g] *)
Definition lazy_tmpdir_re : searchPattern :=
  re (lit (str "import_node_path.default.join(tmpdir,")).

Definition lazy_tmpdir_to : jsstring :=
  str "import_node_path.default.join(_getTmpdir(),".

(** [/safeRegister\s*=\s*async\s*\(\)\s*=>\s*\{/g] *)
Definition safeRegister_re : searchPattern :=
  re (lit (str "safeRegister") ++ [ws] ++ lit (str "=") ++ [ws] ++
      lit (str "async") ++ [ws] ++ lit (str "()") ++ [ws] ++
      lit (str "=>") ++ [ws] ++ lit (str "{")).

Definition safeRegister_to : jsstring :=
  str "safeRegister = async () => {" ++ [NL] ++
  str "    return { unregister: () => {} }; // PATCHED: esbuild disabled for Deno".

(** [/const required = require\(`\$\{(\w+)\}`\);/g] *)
Definition config_loading_re : searchPattern :=
  re (lit (str "const required = require(`${") ++
      [IOpen; IAtom (AChar C_w) Plus; IClose] ++ lit (str "}`);")).

Definition config_loading_to : jsstring :=
  str "const required = await import($1); // PATCHED: import for Deno TS support".

(** [/const i0 = require\(`\$\{(\w+)\}`\);/g] *)
Definition schema_loading_re : searchPattern :=
  re (lit (str "const i0 = require(`${") ++
      [IOpen; IAtom (AChar C_w) Plus; IClose] ++ lit (str "}`);")).

Definition schema_loading_to : jsstring :=
  str "const i0 = await import($1); // PATCHED: import for Deno TS support".

(** [/^(run\(\[generate, migrate, pull, push, studio.*\], \{[\s\S]*?\}\));?\s*$/m] *)
Definition runPattern : searchPattern :=
  PRegExp (RegExp.mk
    ([IBol; IOpen] ++
     lit (str "run([generate, migrate, pull, push, studio") ++
     [IAtom ADot Star] ++ lit (str "], {") ++
     [IAtom (AClass false [C_s; C_S]) LazyStar] ++ lit (str "})") ++
     [IClose; IAtom (AChar (CLit (ch ";"))) Opt; ws; IEol])
    false true).

Definition cli_exit_to : jsstring :=
  str "$1.then(() => { setTimeout(() => process.exit(0), 50); }); // PATCHED: force exit for Deno".

(** The rule names. *)
Definition n_walkForTsConfig := str "walkForTsConfig".
Definition n_recusivelyResolveSync := str "recusivelyResolveSync".
Definition n_supportsColor := str "stub _supportsColor (chalk)".
Definition n_supportsColor2 := str "stub supportsColor2 (colors)".
Definition n_bufferutil := str "skip bufferutil (ws)".
Definition n_dotenv_options := str "stub dotenv env-options".
Definition n_dotenv_config := str "stub dotenv config auto-call".
Definition n_homedir := str "defer homedir (env-paths)".
Definition n_tmpdir := str "defer tmpdir (env-paths)".
Definition n_lazy_homedir := str "lazy homedir usage".
Definition n_lazy_tmpdir := str "lazy tmpdir usage".
Definition n_safeRegister := str "safeRegister (disable esbuild)".
Definition n_config_loading :=
  str "config loading (require " ++ [ARROW] ++ str " import)".
Definition n_schema_loading :=
  str "schema loading (require " ++ [ARROW] ++ str " import)".
Definition n_cli_exit := str "CLI exit handler".

End Rules.

(** *** The process: console, file system and exit *)

Inductive message :=
| MsgNotFound                               (* Could not find drizzle-kit bin.cjs *)
| MsgRunInstall                             (* Make sure you've run `deno install` first *)
| MsgFound (version path : jsstring)        (* Found drizzle-kit@.. at: .. *)
| MsgMayNotBeCompatible (version : jsstring)
| MsgAttempting                             (* Attempting to patch anyway... *)
| MsgAlreadyPatched                         (* drizzle-kit already patched (v10) *)
| MsgOlderPatch (v : jsstring)              (* Found older patch (v..), will re-patch to v10 *)
| MsgPatchResults                           (* Patch results: *)
| MsgApplied (name : jsstring)              (* a check mark and the name *)
| MsgFailed (name : jsstring) (error : option jsstring)
| MsgCriticalFailed                         (* Critical patches failed - ... *)
| MsgSomeFailed                             (* Some non-critical patches failed, but ... *)
| MsgPatched.                               (* Patched drizzle-kit successfully *)

Inductive level := Log | Warn | Error.

Inductive event :=
| Console (l : level) (msg : message)
| WriteTextFile (path content : jsstring).

Record WalkEntry := mkEntry { path : jsstring; isFile : bool }.

(** How the host answers a call of [Deno.writeTextFile]: it carries the
    write out, or it rejects it, and then the file is either untouched
    or left holding some other text (a write cut short). *)
Inductive write_result :=
| Done
| Rejected (remains : option jsstring).

(** What the host decides and the files do not show: whether [walk]
    ends by throwing once it has yielded the entries of the tree (a
    missing [NODE_MODULES], a directory it may not read); how a write
    of a text to a path is answered; and the file a path names, two
    paths naming one file when a link stands between them, as
    [node_modules/drizzle-kit] and the directory under
    [node_modules/.deno] do. *)
Record host := mkHost {
  walk_throws : bool;
  on_write : jsstring -> jsstring -> write_result;
  realpath : jsstring -> jsstring }.

(** What a run can see and change: the host; the entries under
    [NODE_MODULES] that [walk] yields within [maxDepth], in its order,
    before it ends; what reading a path gives; and what the run has
    printed and asked to write so far. *)
Record world := mkWorld {
  sys : host;
  tree : list WalkEntry;
  disk : jsstring -> option jsstring;
  trace : list event }.

(** How a computation ends: with a value, by [Deno.exit], or with an
    exception nobody catches. *)
Inductive completion (A : Type) :=
| Normal (a : A)
| Exit (code : Z)
| Uncaught.

Arguments Normal {A} a.
Arguments Exit {A} code.
Arguments Uncaught {A}.

Definition M (A : Type) : Type := world -> completion A * world.

Definition ret {A} (a : A) : M A := fun w => (Normal a, w).

Definition bind {A B} (c : M A) (k : A -> M B) : M B :=
  fun w =>
    match c w with
    | (Normal a, w') => k a w'
    | (Exit code, w') => (Exit code, w')
    | (Uncaught, w') => (Uncaught, w')
    end.

Notation "x <- c ;; k" := (bind c (fun x => k))
  (at level 61, c at next level, right associativity).
Notation "c ;; k" := (bind c (fun _ => k))
  (at level 61, right associativity).

Definition emit (e : event) : M unit :=
  fun w => (Normal tt, mkWorld (sys w) (tree w) (disk w) (trace w ++ [e])).

Definition console_log (msg : message) : M unit := emit (Console Log msg).
Definition console_warn (msg : message) : M unit := emit (Console Warn msg).
Definition console_error (msg : message) : M unit := emit (Console Error msg).

Definition Deno_exit {A} (code : Z) : M A := fun w => (Exit code, w).

(** [Deno.readTextFile]: rejects when the path cannot be read, and
    nothing catches it. *)
Definition readTextFile (p : jsstring) : M jsstring :=
  fun w =>
    match disk w p with
    | Some content => (Normal content, w)
    | None => (Uncaught, w)
    end.

(** The files after a text is stored under a path: every path that
    names the same file reads the text. *)
Definition write (h : host) (p content : jsstring)
           (d : jsstring -> option jsstring) : jsstring -> option jsstring :=
  fun q => if JS.eqb (realpath h q) (realpath h p) then Some content else d q.

(** The files after a write the host rejected. *)
Definition cut_short (h : host) (p : jsstring) (remains : option jsstring)
           (d : jsstring -> option jsstring) : jsstring -> option jsstring :=
  match remains with
  | None => d
  | Some cut => write h p cut d
  end.

(** [Deno.writeTextFile]: the call is recorded; the promise is rejected
    when the host rejects the write, and nothing catches it. *)
Definition writeTextFile (p content : jsstring) : M unit :=
  fun w =>
    let tr := trace w ++ [WriteTextFile p content] in
    match on_write (sys w) p content with
    | Done =>
        (Normal tt,
         mkWorld (sys w) (tree w) (write (sys w) p content (disk w)) tr)
    | Rejected remains =>
        (Uncaught,
         mkWorld (sys w) (tree w) (cut_short (sys w) p remains (disk w)) tr)
    end.

(** *** [findDrizzleKitBin] *)

(** [/drizzle-kit.*\/bin\.cjs$/], the [match] option of [walk]. *)
Definition bin_re : RegExp.t :=
  RegExp.mk (lit (str "drizzle-kit") ++ [IAtom ADot Star] ++
             lit (str "/bin.cjs") ++ [IEol]) false false.

(** [/drizzle-kit@(\d+\.\d+\.\d+)/] *)
Definition version_re : RegExp.t :=
  RegExp.mk (lit (str "drizzle-kit@") ++
             [IOpen; IAtom (AChar C_d) Plus] ++ lit (str ".") ++
             [IAtom (AChar C_d) Plus] ++ lit (str ".") ++
             [IAtom (AChar C_d) Plus; IClose]) false false.

(** [versionMatch?.[1] ?? "unknown"] for [versionMatch = p.match(version_re)]. *)
Definition extract_version (p : jsstring) : jsstring :=
  match RegExp.exec version_re p with
  | Some (_, r) =>
      match nth_error (mcaps r) 0 with
      | Some v => v
      | None => str "unknown"
      end
  | None => str "unknown"
  end.

(** The first file among the entries [walk] yields. *)
Fixpoint first_file (entries : list WalkEntry) : option (jsstring * jsstring) :=
  match entries with
  | [] => None
  | entry :: rest =>
      if isFile entry
      then Some (path entry, extract_version (path entry))
      else first_file rest
  end.

(** The loop over [walk]: it returns at the first file among the
    matching entries; when [walk] throws before that, nothing catches
    it; when [walk] ends without one, the result is [null]. *)
Definition findDrizzleKitBin : M (option (jsstring * jsstring)) :=
  fun w =>
    match first_file
            (filter (fun e => RegExp.test bin_re (path e)) (tree w)) with
    | Some found => (Normal (Some found), w)
    | None => if walk_throws (sys w) then (Uncaught, w) else (Normal None, w)
    end.

(** *** [patchDrizzleKit] *)

(** [/\/\/ DRIZZLE-KIT-DENO-PATCHED-V(\d+)/] *)
Definition old_patch_re : RegExp.t :=
  RegExp.mk (lit (str "// DRIZZLE-KIT-DENO-PATCHED-V") ++
             [IOpen; IAtom (AChar C_d) Plus; IClose]) false false.

(** Insert patch marker after shebang (if present). *)
Definition insert_marker (content : jsstring) : jsstring :=
  if JS.startsWith (str "#!") content then
    let firstNewline := JS.indexOf [NL] content in
    JS.slice content 0 (firstNewline + 1) ++ PATCH_MARKER ++ [NL] ++
    JS.slice_from content (firstNewline + 1)
  else
    PATCH_MARKER ++ [NL] ++ content.

(** One block of the script: apply a rule to [content], keep the new
    content and push the result. *)
Definition step (name : jsstring) (pat : searchPattern) (to : jsstring)
           (st : jsstring * list PatchResult) : jsstring * list PatchResult :=
  let '(content, results) := st in
  let '(newContent, result) := applyPatch content name pat (ReplString to) in
  (newContent, results ++ [result]).

Import Rules.

(** Patches 1 to 9, in the order of the script. *)
Definition apply_patches (content : jsstring) : jsstring * list PatchResult :=
  let st := (content, []) in
  let st := step n_walkForTsConfig walkForTsConfig_re walkForTsConfig_to st in
  let st := step n_recusivelyResolveSync recusivelyResolveSync_re recusivelyResolveSync_to st in
  let st := step n_supportsColor supportsColor_re supportsColor_to st in
  let st := step n_supportsColor2 supportsColor2_re supportsColor2_to st in
  let st := step n_bufferutil bufferutil_re bufferutil_to st in
  let st := step n_dotenv_options dotenv_options_re dotenv_options_to st in
  let st := step n_dotenv_config dotenv_config_re dotenv_config_to st in
  let st := step n_homedir homedir_re homedir_to st in
  let st := step n_tmpdir tmpdir_re tmpdir_to st in
  let st := step n_lazy_homedir lazy_homedir_re lazy_homedir_to st in
  let st := step n_lazy_tmpdir lazy_tmpdir_re lazy_tmpdir_to st in
  let st := step n_safeRegister safeRegister_re safeRegister_to st in
  let st := step n_config_loading config_loading_re config_loading_to st in
  let st := step n_schema_loading schema_loading_re schema_loading_to st in
  let st := step n_cli_exit runPattern cli_exit_to st in
  st.

(** The loop printing the results; it returns [hasFailure]. *)
Fixpoint print_results (results : list PatchResult) (hasFailure : bool)
  : M bool :=
  match results with
  | [] => ret hasFailure
  | result :: rest =>
      if success result then
        console_log (MsgApplied (name result)) ;;
        print_results rest hasFailure
      else
        console_log (MsgFailed (name result) (error result)) ;;
        print_results rest true
  end.

Definition criticalPatches : list jsstring :=
  [n_safeRegister; n_config_loading; n_schema_loading].

Definition criticalFailures (results : list PatchResult) : list PatchResult :=
  filter (fun r => negb (success r) && JS.arr_includes (name r) criticalPatches)
         results.

Definition patchDrizzleKit : M unit :=
  result <- findDrizzleKitBin ;;
  match result with
  | None =>
      console_error MsgNotFound ;;
      console_error MsgRunInstall ;;
      Deno_exit 1
  | Some (binPath, version) =>
      console_log (MsgFound version binPath) ;;
      (if negb (JS.arr_includes version SUPPORTED_VERSIONS) &&
          negb (JS.eqb version (str "unknown"))
       then console_warn (MsgMayNotBeCompatible version) ;;
            console_warn MsgAttempting
       else ret tt) ;;
      content <- readTextFile binPath ;;
      if JS.includes PATCH_MARKER content then
        console_log MsgAlreadyPatched
      else
        (match RegExp.exec old_patch_re content with
         | Some (_, r) => console_log (MsgOlderPatch (nth 0 (mcaps r) []))
         | None => ret tt
         end) ;;
        let content := insert_marker content in
        let '(content, results) := apply_patches content in
        console_log MsgPatchResults ;;
        hasFailure <- print_results results false ;;
        (if (0 <? length (criticalFailures results))%nat
         then console_error MsgCriticalFailed ;; Deno_exit 1
         else ret tt) ;;
        writeTextFile binPath content ;;
        if hasFailure then console_log MsgSomeFailed
        else console_log MsgPatched
  end.

(** *** The rule table

    The same fifteen rules as a list of records, and the pipeline as a
    left-to-right fold over it: the reading of section 4.4.  It is
    compared with [apply_patches] in [apply_patches_run_rules]. *)

Record rule := mkRule {
  rule_name : jsstring;
  rule_pattern : searchPattern;
  rule_to : jsstring }.

Definition RULES : list rule :=
  [ mkRule n_walkForTsConfig walkForTsConfig_re walkForTsConfig_to;
    mkRule n_recusivelyResolveSync recusivelyResolveSync_re recusivelyResolveSync_to;
    mkRule n_supportsColor supportsColor_re supportsColor_to;
    mkRule n_supportsColor2 supportsColor2_re supportsColor2_to;
    mkRule n_bufferutil bufferutil_re bufferutil_to;
    mkRule n_dotenv_options dotenv_options_re dotenv_options_to;
    mkRule n_dotenv_config dotenv_config_re dotenv_config_to;
    mkRule n_homedir homedir_re homedir_to;
    mkRule n_tmpdir tmpdir_re tmpdir_to;
    mkRule n_lazy_homedir lazy_homedir_re lazy_homedir_to;
    mkRule n_lazy_tmpdir lazy_tmpdir_re lazy_tmpdir_to;
    mkRule n_safeRegister safeRegister_re safeRegister_to;
    mkRule n_config_loading config_loading_re config_loading_to;
    mkRule n_schema_loading schema_loading_re schema_loading_to;
    mkRule n_cli_exit runPattern cli_exit_to ].

Definition apply_rule (r : rule) (content : jsstring) : jsstring * PatchResult :=
  applyPatch content (rule_name r) (rule_pattern r) (ReplString (rule_to r)).

(** Each rule consumes the buffer the previous one produced; every rule
    contributes one result, whatever the earlier outcomes. *)
Fixpoint run_rules (rules : list rule) (content : jsstring)
  : jsstring * list PatchResult :=
  match rules with
  | [] => (content, [])
  | r :: rest =>
      let '(content1, result) := apply_rule r content in
      let '(content2, results) := run_rules rest content1 in
      (content2, result :: results)
  end.

(** *** Reading a run off the world it leaves *)

(** The artifact [findDrizzleKitBin] returns in a world, when [walk]
    yields one. *)
Definition located (w : world) : option (jsstring * jsstring) :=
  first_file (filter (fun e => RegExp.test bin_re (path e)) (tree w)).

(** The calls of [Deno.writeTextFile], in order. *)
Fixpoint writes (tr : list event) : list (jsstring * jsstring) :=
  match tr with
  | [] => []
  | WriteTextFile p c :: tr' => (p, c) :: writes tr'
  | Console _ _ :: tr' => writes tr'
  end.

(** The per-rule report: the rule names printed, each with its verdict. *)
Fixpoint report (tr : list event) : list (jsstring * bool) :=
  match tr with
  | [] => []
  | Console Log (MsgApplied n) :: tr' => (n, true) :: report tr'
  | Console Log (MsgFailed n _) :: tr' => (n, false) :: report tr'
  | _ :: tr' => report tr'
  end.

(** The messages printed at a level. *)
Fixpoint printed (l : level) (tr : list event) : list message :=
  match tr with
  | [] => []
  | Console l' msg :: tr' =>
      match l, l' with
      | Log, Log | Warn, Warn | Error, Error => msg :: printed l tr'
      | _, _ => printed l tr'
      end
  | WriteTextFile _ _ :: tr' => printed l tr'
  end.

(** A fresh run: nothing printed or written yet. *)
Definition run (h : host) (t : list WalkEntry)
           (d : jsstring -> option jsstring) : completion unit * world :=
  patchDrizzleKit (mkWorld h t d []).

(** The line printed for a result. *)
Definition result_line (r : PatchResult) : event :=
  Console Log (if success r then MsgApplied (name r)
               else MsgFailed (name r) (error r)).

(** What is printed before the artifact is read. *)
Definition preamble (version binPath : jsstring) : list event :=
  Console Log (MsgFound version binPath) ::
  (if negb (JS.arr_includes version SUPPORTED_VERSIONS) &&
      negb (JS.eqb version (str "unknown"))
   then [Console Warn (MsgMayNotBeCompatible version);
         Console Warn MsgAttempting]
   else []).

(** The note about an older marker. *)
Definition older_note (content : jsstring) : list event :=
  match RegExp.exec old_patch_re content with
  | Some (_, r) => [Console Log (MsgOlderPatch (nth 0 (mcaps r) []))]
  | None => []
  end.

Definition failed (r : PatchResult) : bool := negb (success r).

(** The pattern [applyPatch] works with. *)
Definition pattern_of (p : searchPattern) : RegExp.t :=
  match p with
  | PString s => of_escaped s
  | PRegExp r => r
  end.

(** The same pattern with the [g] flag set. *)
Definition with_g (re : RegExp.t) : RegExp.t :=
  RegExp.mk (items re) true (multiline re).

(** The buffer the [n]-th rule receives. *)
Definition buffer_at (rules : list rule) (n : nat) (content : jsstring)
  : jsstring :=
  fst (run_rules (firstn n rules) content).

(** *** Sample artifacts *)

Module Sample.

(** A host that lets the walk end, carries every write out and has no
    two paths for one file. *)
Definition plain : host := mkHost false (fun _ _ => Done) (fun p => p).

(** A host that rejects every write and leaves the file untouched. *)
Definition read_only : host :=
  mkHost false (fun _ _ => Rejected None) (fun p => p).

(** A host on which [walk] throws: there is no [NODE_MODULES]. *)
Definition no_modules : host :=
  mkHost true (fun _ _ => Done) (fun p => p).

Definition bin : jsstring :=
  str "node_modules/.deno/drizzle-kit@0.31.8/node_modules/drizzle-kit/bin.cjs".

Definition bin_unversioned : jsstring :=
  str "node_modules/drizzle-kit/bin.cjs".

Definition bin_other : jsstring :=
  str "node_modules/.deno/drizzle-kit@0.29.1/node_modules/drizzle-kit/bin.cjs".

(** A path with two versioned segments. *)
Definition bin_nested : jsstring :=
  str "node_modules/.deno/drizzle-kit@0.30.6/node_modules/drizzle-kit@0.31.8/bin.cjs".

(** A host on which [node_modules/drizzle-kit] is a link to the
    directory of the package under [node_modules/.deno]. *)
Definition linked : host :=
  mkHost false (fun _ _ => Done)
         (fun p => if JS.eqb p bin_unversioned then bin else p).

Definition tree_of (p : jsstring) : list WalkEntry :=
  [mkEntry (str "node_modules/drizzle-kit") false; mkEntry p true].

Definition disk_of (p content : jsstring) : jsstring -> option jsstring :=
  fun q => if JS.eqb q p then Some content else None.

(** The files of [linked]: one text, read through either path. *)
Definition disk_linked (content : jsstring) : jsstring -> option jsstring :=
  fun q => if JS.eqb (realpath linked q) bin then Some content else None.

(** The three lines the critical rules look for. *)
Definition critical_lines : jsstring :=
  str "safeRegister = async () => {" ++ [NL] ++
  str "const required = require(`${path}`);" ++ [NL] ++
  str "const i0 = require(`${it}`);" ++ [NL].

(** A small bundle on which every critical rule applies. *)
Definition bundle : jsstring :=
  str "#!/usr/bin/env node" ++ [NL] ++
  str "function walkForTsConfig(directory, x) {" ++ [NL] ++
  str "}" ++ [NL] ++ critical_lines.

(** The same bundle without the schema-loading line. *)
Definition bundle_no_schema : jsstring :=
  str "#!/usr/bin/env node" ++ [NL] ++
  str "safeRegister = async () => {" ++ [NL] ++
  str "const required = require(`${path}`);" ++ [NL].

(** A bundle that already carries the marker. *)
Definition bundle_patched : jsstring :=
  str "#!/usr/bin/env node" ++ [NL] ++ PATCH_MARKER ++ [NL] ++
  critical_lines.

(** Two calls of the command runner, one per line. *)
Definition two_runs : jsstring :=
  str "run([generate, migrate, pull, push, studio], {});" ++ [NL] ++
  str "run([generate, migrate, pull, push, studio], {});" ++ [NL].


(** A shebang line that opens the braces the [_supportsColor] rule
    spans, closed on the next line. *)
Definition bundle_shebang_spanned : jsstring :=
  str "#!function _supportsColor(haveStream, {" ++ [NL] ++
  str "} = {}) {" ++ [NL] ++ critical_lines.

End Sample.

(** *** Notions used in the statements *)

(** Every run is of one of seven shapes. *)
Inductive shape (h : host) (t : list WalkEntry)
          (d : jsstring -> option jsstring) : Prop :=
| NotFound :
    located (mkWorld h t d []) = None -> walk_throws h = false ->
    run h t d = (Exit 1, mkWorld h t d
                   [Console Error MsgNotFound; Console Error MsgRunInstall]) ->
    shape h t d
| Unreadable p v :
    located (mkWorld h t d []) = Some (p, v) -> d p = None ->
    run h t d = (Uncaught, mkWorld h t d (preamble v p)) ->
    shape h t d
| AlreadyPatched p v c :
    located (mkWorld h t d []) = Some (p, v) -> d p = Some c ->
    JS.includes PATCH_MARKER c = true ->
    run h t d = (Normal tt, mkWorld h t d
                   (preamble v p ++ [Console Log MsgAlreadyPatched])) ->
    shape h t d
| Aborted p v c :
    located (mkWorld h t d []) = Some (p, v) -> d p = Some c ->
    JS.includes PATCH_MARKER c = false ->
    criticalFailures (snd (apply_patches (insert_marker c))) <> [] ->
    run h t d =
    (Exit 1, mkWorld h t d
       (preamble v p ++ older_note c ++ [Console Log MsgPatchResults] ++
        map result_line (snd (apply_patches (insert_marker c))) ++
        [Console Error MsgCriticalFailed])) ->
    shape h t d
| Committed p v c :
    located (mkWorld h t d []) = Some (p, v) -> d p = Some c ->
    JS.includes PATCH_MARKER c = false ->
    criticalFailures (snd (apply_patches (insert_marker c))) = [] ->
    on_write h p (fst (apply_patches (insert_marker c))) = Done ->
    run h t d =
    (Normal tt,
     mkWorld h t (write h p (fst (apply_patches (insert_marker c))) d)
       (preamble v p ++ older_note c ++ [Console Log MsgPatchResults] ++
        map result_line (snd (apply_patches (insert_marker c))) ++
        [WriteTextFile p (fst (apply_patches (insert_marker c)));
         Console Log
           (if existsb failed (snd (apply_patches (insert_marker c)))
            then MsgSomeFailed else MsgPatched)])) ->
    shape h t d
| WalkFailed :
    located (mkWorld h t d []) = None -> walk_throws h = true ->
    run h t d = (Uncaught, mkWorld h t d []) ->
    shape h t d
| WriteRejected p v c remains :
    located (mkWorld h t d []) = Some (p, v) -> d p = Some c ->
    JS.includes PATCH_MARKER c = false ->
    criticalFailures (snd (apply_patches (insert_marker c))) = [] ->
    on_write h p (fst (apply_patches (insert_marker c))) = Rejected remains ->
    run h t d =
    (Uncaught,
     mkWorld h t (cut_short h p remains d)
       (preamble v p ++ older_note c ++ [Console Log MsgPatchResults] ++
        map result_line (snd (apply_patches (insert_marker c))) ++
        [WriteTextFile p (fst (apply_patches (insert_marker c)))])) ->
    shape h t d.

Module MatchDefs.
Import RegExp.

(** A continuation is sound when the text it consumes is a prefix of
    its input. *)
Definition sound (k : option N -> jsstring -> option mres) : Prop :=
  forall prev s r, k prev s = Some r -> s = mtext r ++ mrest r.

(** What [test] decides. *)
Definition has_match (re : RegExp.t) (s : jsstring) : Prop :=
  exists pre suf,
    s = pre ++ suf /\
    m (multiline re) (items re) (hd_error (rev pre)) suf <> None.

(** The texts a sequence of items can match, assertions and
    parentheses apart. *)
Fixpoint lang (its : list item) (t : jsstring) : Prop :=
  match its with
  | [] => t = []
  | IAtom a q :: its' =>
      match q with
      | One =>
          exists x t', t = x :: t' /\ atom_matches a x = true /\ lang its' t'
      | Star | LazyStar =>
          exists xs t',
            t = xs ++ t' /\ Forall (fun x => atom_matches a x = true) xs /\
            lang its' t'
      | Plus =>
          exists x xs t',
            t = x :: xs ++ t' /\ atom_matches a x = true /\
            Forall (fun x => atom_matches a x = true) xs /\ lang its' t'
      | Opt =>
          lang its' t \/
          exists x t', t = x :: t' /\ atom_matches a x = true /\ lang its' t'
      end
  | _ :: its' => lang its' t
  end.

(** A continuation whose matched text always satisfies [L]. *)
Definition matches_in (k : option N -> jsstring -> option mres)
           (L : jsstring -> Prop) : Prop :=
  forall prev s r, k prev s = Some r -> L (mtext r).

(** The literal text every match of the items starts with. *)
Fixpoint head_of (its : list item) : jsstring :=
  match its with
  | IAtom (AChar (CLit c)) One :: its' => c :: head_of its'
  | IBol :: its' | IOpen :: its' | IClose :: its' => head_of its'
  | _ => []
  end.

End MatchDefs.

(** A version: digits, a dot, digits, a dot, digits. *)
Definition digits (x : jsstring) : Prop :=
  x <> [] /\ Forall (fun c => is_digit c = true) x.

(** The path has a part [@X.Y.Z]. *)
Definition has_at_version (p : jsstring) : Prop :=
  exists pre x y z post,
    p = pre ++ str "@" ++ x ++ str "." ++ y ++ str "." ++ z ++ post /\
    digits x /\ digits y /\ digits z.

(** The shebang line the marker goes after, with its line break; empty
    when the marker goes to the start of the buffer. *)
Definition shebang_line (content : jsstring) : jsstring :=
  if JS.startsWith (str "#!") content
  then JS.slice content 0 (JS.indexOf [NL] content + 1)
  else [].

(** The text the marker goes before. *)
Definition after_shebang (content : jsstring) : jsstring :=
  if JS.startsWith (str "#!") content
  then JS.slice_from content (JS.indexOf [NL] content + 1)
  else content.



(** *** Checks on the rule table *)

(** The literal text every match of a rule starts with. *)
Definition rule_head (r : rule) : jsstring :=
  MatchDefs.head_of (items (pattern_of (rule_pattern r))).

(** No rule's leading text occurs in the shebang line. *)
Definition first_line_clear (content : jsstring) : bool :=
  forallb (fun r => negb (JS.includes (rule_head r) (shebang_line content)))
          RULES.

(** Two texts differ at a position both have. *)
Fixpoint clash (a b : jsstring) : bool :=
  match a, b with
  | x :: a', y :: b' => negb (N.eqb x y) || clash a' b'
  | _, _ => false
  end.

(** The non-empty suffixes of a text. *)
Fixpoint suffixes (s : jsstring) : list jsstring :=
  match s with
  | [] => []
  | x :: s' => (x :: s') :: suffixes s'
  end.

(** No match of the rule can start inside the marker line, and its
    leading text has no line break. *)
Definition marker_safe (r : rule) : bool :=
  negb (existsb (N.eqb NL) (rule_head r)) &&
  forallb (clash (rule_head r)) (suffixes (PATCH_MARKER ++ [NL])).




(** The number of occurrences of [k] in [s]. *)
Fixpoint occurrences (k s : jsstring) : nat :=
  (if JS.startsWith k s then 1 else 0) +
  match s with
  | [] => 0
  | _ :: s' => occurrences k s'
  end.

(** [f] is a prefix of [k] and shorter. *)
Definition proper_prefix (f k : jsstring) : bool :=
  JS.startsWith f k && (length f <? length k).

(** No occurrence of [k] can touch an inserted [f]: none starts before
    [f] and runs into it, none starts in [f] and runs out of it, and
    none lies in it. *)
Definition separator (k f : jsstring) : bool :=
  forallb (fun k2 => clash k2 f) (suffixes (tl k)) &&
  forallb (fun f2 => negb (proper_prefix f2 k)) (suffixes f) &&
  negb (JS.includes k f).

(** The captures lie in a text one after the other. *)
Inductive embeds : list jsstring -> jsstring -> Prop :=
| embeds_nil t : embeds [] t
| embeds_cons a c caps t :
    embeds caps t -> embeds (c :: caps) (a ++ c ++ t).

(** The number of capture groups. *)
Fixpoint count_open (its : list item) : nat :=
  match its with
  | [] => 0
  | IOpen :: its' => S (count_open its')
  | _ :: its' => count_open its'
  end.

(** What the matcher keeps true of a result: the text since the last
    parenthesis starts the matched text, the captures follow in it,
    and there are [n] of them. *)
Definition caps_ok (n : nat) (r : mres) : Prop :=
  (exists tl, mtext r = mcur r ++ tl /\ embeds (mcaps r) tl) /\
  length (mcaps r) = n.

(** A continuation whose results are all in order. *)
Definition keeps (n : nat) (k : option N -> jsstring -> option mres) : Prop :=
  forall prev s r, k prev s = Some r -> caps_ok n r.

(** Putting the replacement [to] in place of a match of [re] adds no
    occurrence of [k], whatever stands before the match. *)
Definition shrinks (k : jsstring) (re : RegExp.t) (to : jsstring) : Prop :=
  forall whole bef prev s r pre,
    m (multiline re) (items re) prev s = Some r ->
    occurrences k
      (pre ++ replacement_text (ReplString to) whole bef r ++ mrest r) <=
    occurrences k (pre ++ mtext r ++ mrest r).

Definition rule_shrinks (k : jsstring) (r : rule) : Prop :=
  shrinks k (pattern_of (rule_pattern r)) (rule_to r).

(** *** Notions for the matcher and the locator *)

(** The texts one item can consume. *)
Definition item_lang (it : item) (xs : jsstring) : Prop :=
  match it with
  | IAtom a One => exists x, xs = [x] /\ atom_matches a x = true
  | IAtom a Star | IAtom a LazyStar =>
      Forall (fun x => atom_matches a x = true) xs
  | IAtom a Plus =>
      xs <> [] /\ Forall (fun x => atom_matches a x = true) xs
  | IAtom a Opt =>
      xs = [] \/ exists x, xs = [x] /\ atom_matches a x = true
  | IBol | IEol | IOpen | IClose => xs = []
  end.

(** Items without parentheses. *)
Definition paren_free (its : list item) : bool :=
  forallb (fun it => match it with
                     | IOpen | IClose => false
                     | _ => true
                     end) its.

(** Items without [^] and [$]. *)
Definition assertion_free (its : list item) : bool :=
  forallb (fun it => match it with
                     | IBol | IEol => false
                     | _ => true
                     end) its.

(** The path has a part [drizzle-kit@X.Y.Z]. *)
Definition has_kit_version (p : jsstring) : Prop :=
  exists pre x y z post,
    p = pre ++ str "drizzle-kit@" ++ x ++ str "." ++ y ++ str "." ++ z ++
        post /\
    digits x /\ digits y /\ digits z.

(** The entries [findDrizzleKitBin] looks at: what [walk] yields under
    its [match] option, that are files. *)
Definition candidate (e : WalkEntry) : bool :=
  test bin_re (path e) && isFile e.

(** The text does not go on with a character of [a]. *)
Definition stops_before (a : atom) (s : jsstring) : Prop :=
  match s with
  | x :: _ => atom_matches a x = false
  | [] => True
  end.

(** The text does not go on with a digit. *)
Definition no_digit_next (s : jsstring) : Prop :=
  stops_before (AChar C_d) s.

(** The text of a marker of any version, up to the version number. *)
Definition MARKER_STEM : jsstring := str "// DRIZZLE-KIT-DENO-PATCHED-V".

(** The content holds a marker of some version [n]. *)
Definition has_marker_of (n content : jsstring) : Prop :=
  exists a b, content = a ++ MARKER_STEM ++ n ++ b /\ digits n /\
              no_digit_next b.

(** *** [escapeRegex] *)

Definition BACKSLASH : N := 92.

(** The characters of the class [[.*+?^${}()|[\]\\]]: the syntax
    characters of the pattern language. *)
Definition syntax_chars : jsstring := str ".*+?^${}()|[]" ++ [BACKSLASH].

(** [/[.*+?^${}()|[\]\\]/g] *)
Definition escape_re : RegExp.t :=
  RegExp.mk [IAtom (AClass false (map CLit syntax_chars)) One] true false.

(** [str.replace(/[.*+?^${}()|[\]\\]/g, "\\$&")]: the template is a
    backslash and [$&]. *)
Definition escapeRegex (s : jsstring) : jsstring :=
  replace escape_re (ReplString (BACKSLASH :: str "$&")) s.

Definition is_syntax (c : N) : bool := existsb (N.eqb c) syntax_chars.

(** A pattern source read as [new RegExp] reads it, for the sources
    made of characters that stand for themselves and of syntax
    characters after a backslash; [None] for any other source. *)
Fixpoint read_source (src : jsstring) : option (list item) :=
  match src with
  | [] => Some []
  | c :: rest =>
      if N.eqb c BACKSLASH then
        match rest with
        | e :: rest' =>
            if is_syntax e
            then option_map (cons (IAtom (AChar (CLit e)) One))
                            (read_source rest')
            else None
        | [] => None
        end
      else if is_syntax c then None
      else option_map (cons (IAtom (AChar (CLit c)) One)) (read_source rest)
  end.

(** *** The rules one by one *)

(** The text is not empty and its last character is not [y]. *)
Definition ends_not (y : N) (t : jsstring) : Prop :=
  exists t' x, t = t' ++ [x] /\ x <> y.

(** Whether a text of the items, given last item first, may be empty
    or end with [y]. *)
Fixpoint may_end_with (rits : list item) (y : N) : bool :=
  match rits with
  | [] => true
  | IAtom a One :: _ | IAtom a Plus :: _ => atom_matches a y
  | IAtom a _ :: rest => atom_matches a y || may_end_with rest y
  | _ :: rest => may_end_with rest y
  end.

(** A template without [$]. *)
Definition plain_text (to : jsstring) : bool :=
  forallb (fun c => negb (N.eqb c 36)) to.

(** Where the pattern of the rule has a match, the replace changes
    the text. *)
Definition rule_changes (r : rule) : Prop :=
  forall c,
    test (pattern_of (rule_pattern r)) c = true ->
    replace (pattern_of (rule_pattern r)) (ReplString (rule_to r)) c <> c.

(** The text of a pattern in which every item is one literal
    character. *)
Fixpoint literal_of (its : list item) : option jsstring :=
  match its with
  | [] => Some []
  | IAtom (AChar (CLit c)) One :: its' => option_map (cons c) (literal_of its')
  | _ => None
  end.

Definition is_literal (r : rule) : bool :=
  match literal_of (items (pattern_of (rule_pattern r))) with
  | Some _ => true
  | None => false
  end.

(** The pattern of the rule has a match in the rule's own replacement. *)
Definition self_matching (r : rule) : bool :=
  test (pattern_of (rule_pattern r)) (rule_to r).

(** A run of word characters, as [\w+] takes it. *)
Definition word (w : jsstring) : Prop :=
  w <> [] /\ Forall (fun c => is_word c = true) w.

(** The line the two loading rules look for, and the line they write,
    for the variable [v] and the argument [w]. *)
Definition require_call (v w : jsstring) : jsstring :=
  str "const " ++ v ++ str " = require(`${" ++ w ++ str "}`);".

Definition import_call (v w : jsstring) : jsstring :=
  str "const " ++ v ++ str " = await import(" ++ w ++
  str "); // PATCHED: import for Deno TS support".

Definition loading_rules : list (rule * jsstring) :=
  [ (mkRule n_config_loading config_loading_re config_loading_to,
     str "required");
    (mkRule n_schema_loading schema_loading_re schema_loading_to,
     str "i0") ].

(** The call the last rule looks for: the text of its group. *)
Definition run_call (G : jsstring) : Prop :=
  exists xs ys,
    G = str "run([generate, migrate, pull, push, studio" ++ xs ++
        str "], {" ++ ys ++ str "})" /\
    Forall (fun c => is_line_terminator c = false) xs.

(** What the last rule drops after the call: at most one semicolon,
    then white space. *)
Definition call_tail (tl : jsstring) : Prop :=
  exists semi sp,
    tl = semi ++ sp /\ (semi = [] \/ semi = str ";") /\
    Forall (fun c => is_space c = true) sp.

Definition cli_exit_rule : rule := mkRule n_cli_exit runPattern cli_exit_to.

(** What the last rule puts after the call. *)
Definition cli_exit_tail : jsstring :=
  str ".then(() => { setTimeout(() => process.exit(0), 50); }); // PATCHED: force exit for Deno".

(** *** The checks of the test suite on a patched artifact

    [verifyPatchMarker] and [verifyAllPatches] of the test suite that
    goes with this script.  The world holds what the check sees: the
    entries its walk of [`${testDir}/node_modules`] yields, and the
    files by the paths of these entries. *)

Definition TEST_DIR : jsstring := str ".test-patch".

(** [`${TEST_DIR}/drizzle-kit-${version}`], the directory
    [setupTestEnvironment] makes and returns. *)
Definition versionDir (version : jsstring) : jsstring :=
  TEST_DIR ++ str "/drizzle-kit-" ++ version.

(** [`${testDir}/node_modules`], the root of the walk of both checks. *)
Definition walk_root (testDir : jsstring) : jsstring :=
  testDir ++ str "/node_modules".

(** The [error] of a step: a text of the suite, or the message of an
    exception it caught. *)
Inductive step_error :=
| ErrText (s : jsstring)
| ErrCaught.

Record StepResult := mkStep {
  step_name : jsstring;
  step_success : bool;
  step_err : option step_error;
  step_output : option jsstring }.

(** The first file among the entries the walk yields. *)
Fixpoint first_path (entries : list WalkEntry) : option jsstring :=
  match entries with
  | [] => None
  | entry :: rest =>
      if isFile entry then Some (path entry) else first_path rest
  end.

(** The entry both checks read. *)
Definition checked_path (w : world) : option jsstring :=
  first_path (filter (fun e => test bin_re (path e)) (tree w)).

Definition CHECKED_MARKER : jsstring := str "DRIZZLE-KIT-DENO-PATCHED-V10".

Definition verifyPatchMarker (w : world) : StepResult :=
  match checked_path w with
  | Some p =>
      match disk w p with
      | Some content =>
          let hasMarker := JS.includes CHECKED_MARKER content in
          mkStep (str "Verify patch marker") hasMarker
                 (if hasMarker then None
                  else Some (ErrText (str "Patch marker not found in bin.cjs")))
                 None
      | None => mkStep (str "Verify patch marker") false (Some ErrCaught) None
      end
  | None =>
      mkStep (str "Verify patch marker") false
             (Some (ErrText (str "Could not find drizzle-kit bin.cjs"))) None
  end.

(** Critical patches that MUST be present for drizzle-kit to work. *)
Definition CRITICAL_PATCH_MARKERS : list (jsstring * jsstring) :=
  [ (str "walkForTsConfig",
     str "return void 0; // PATCHED: disabled for Deno");
    (str "safeRegister",
     str "return { unregister: () => {} }; // PATCHED: esbuild disabled for Deno");
    (str "config loading", str "// PATCHED: import for Deno TS support");
    (str "CLI exit handler", str "setTimeout(() => process.exit(0), 50)") ].

(** Non-critical patches (may not be present in all versions). *)
Definition OPTIONAL_PATCH_MARKERS : list (jsstring * jsstring) :=
  [ (str "recusivelyResolveSync",
     str "return null; // PATCHED: disabled for Deno");
    (str "_supportsColor stub",
     str "// PATCHED: Return color level 3 (truecolor)");
    (str "supportsColor2 stub",
     str "// PATCHED: Return color level 3 (truecolor) without checking env vars for Deno");
    (str "bufferutil skip", str "/* PATCHED: skip bufferutil for Deno */");
    (str "dotenv stub",
     str "// PATCHED: Skip DOTENV_CONFIG_* env checks for Deno");
    (str "homedir defer",
     str "// PATCHED: deferred for Deno - will be set on first use");
    (str "lazy homedir", str "_getHomedir(),");
    (str "lazy tmpdir", str "_getTmpdir(),") ].

(** The names a loop pushes to [foundPatches], and those it pushes to
    its list of missing ones. *)
Definition found_in (content : jsstring) (markers : list (jsstring * jsstring))
  : list jsstring :=
  map fst (filter (fun mk => JS.includes (snd mk) content) markers).

Definition missing_in (content : jsstring)
           (markers : list (jsstring * jsstring)) : list jsstring :=
  map fst (filter (fun mk => negb (JS.includes (snd mk) content)) markers).

(** [arr.join(sep)]. *)
Fixpoint join (sep : jsstring) (arr : list jsstring) : jsstring :=
  match arr with
  | [] => []
  | [x] => x
  | x :: rest => x ++ sep ++ join sep rest
  end.

(** A number in a template: its decimal digits. *)
Fixpoint show_digits (fuel n : nat) (acc : jsstring) : jsstring :=
  match fuel with
  | O => acc
  | S fuel' =>
      let acc' := (48 + N.of_nat (n mod 10))%N :: acc in
      if n <? 10 then acc' else show_digits fuel' (n / 10) acc'
  end.

Definition show_nat (n : nat) : jsstring := show_digits (S n) n [].

Definition verifyAllPatches (w : world) : StepResult :=
  match checked_path w with
  | Some p =>
      match disk w p with
      | Some content =>
          let missingCritical := missing_in content CRITICAL_PATCH_MARKERS in
          let missingOptional := missing_in content OPTIONAL_PATCH_MARKERS in
          let foundPatches :=
            found_in content CRITICAL_PATCH_MARKERS ++
            found_in content OPTIONAL_PATCH_MARKERS in
          if 0 <? length missingCritical then
            mkStep (str "Verify all patches applied") false
                   (Some (ErrText (str "Missing critical patches: " ++
                                   join (str ", ") missingCritical)))
                   (Some (str "Found: " ++ join (str ", ") foundPatches ++
                          [NL] ++ str "Missing optional: " ++
                          join (str ", ") missingOptional))
          else
            mkStep (str "Verify all patches applied") true None
                   (Some (str "Critical: " ++
                          show_nat (length CRITICAL_PATCH_MARKERS) ++
                          str "/" ++
                          show_nat (length CRITICAL_PATCH_MARKERS) ++
                          str ", Optional: " ++
                          show_nat (length OPTIONAL_PATCH_MARKERS -
                                    length missingOptional) ++
                          str "/" ++
                          show_nat (length OPTIONAL_PATCH_MARKERS)))
      | None =>
          mkStep (str "Verify all patches applied") false (Some ErrCaught) None
      end
  | None =>
      mkStep (str "Verify all patches applied") false
             (Some (ErrText (str "Could not find drizzle-kit bin.cjs"))) None
  end.

(** The text the check looks for under the name walkForTsConfig. *)
Definition WALK_CHECKED : jsstring :=
  str "return void 0; // PATCHED: disabled for Deno".

(** *** The script as a process, and the step that runs it

    The text of each console line as the source writes it; the signs
    before the texts are given by their code units. *)

Definition CROSS_MARK : jsstring := [10060%N].            (* U+274C *)
Definition PACKAGE : jsstring := [55357%N; 56550%N].      (* U+1F4E6 *)
Definition WARNING : jsstring := [9888%N; 65039%N].       (* U+26A0 U+FE0F *)
Definition CHECK_MARK : jsstring := [9989%N].             (* U+2705 *)
Definition RECYCLE : jsstring := [9851%N; 65039%N].       (* U+267B U+FE0F *)
Definition TICK : jsstring := [10003%N].                  (* U+2713 *)
Definition BALLOT_X : jsstring := [10007%N].              (* U+2717 *)

Definition render (msg : message) : jsstring :=
  match msg with
  | MsgNotFound => CROSS_MARK ++ str " Could not find drizzle-kit bin.cjs"
  | MsgRunInstall => str "   Make sure you've run `deno install` first"
  | MsgFound version binPath =>
      PACKAGE ++ str " Found drizzle-kit@" ++ version ++ str " at: " ++ binPath
  | MsgMayNotBeCompatible version =>
      WARNING ++ str "  drizzle-kit@" ++ version ++
      str " may not be compatible (tested: " ++
      join (str ", ") SUPPORTED_VERSIONS ++ str ")"
  | MsgAttempting => str "   Attempting to patch anyway..." ++ [NL]
  | MsgAlreadyPatched => CHECK_MARK ++ str " drizzle-kit already patched (v10)"
  | MsgOlderPatch n =>
      RECYCLE ++ str "  Found older patch (v" ++ n ++
      str "), will re-patch to v10"
  | MsgPatchResults => [NL] ++ str "Patch results:"
  | MsgApplied n => str "  " ++ TICK ++ str " " ++ n
  | MsgFailed n e =>
      str "  " ++ BALLOT_X ++ str " " ++ n ++ str ": " ++
      match e with
      | Some x => x
      | None => str "undefined"
      end
  | MsgCriticalFailed =>
      [NL] ++ CROSS_MARK ++
      str " Critical patches failed - drizzle-kit may not work correctly"
  | MsgSomeFailed =>
      [NL] ++ WARNING ++
      str "  Some non-critical patches failed, but drizzle-kit should work"
  | MsgPatched => [NL] ++ CHECK_MARK ++ str " Patched drizzle-kit successfully"
  end.

(** A console call writes its text and a line break. *)
Definition line (msg : message) : jsstring := render msg ++ [NL].

(** [console.log] writes to the standard output, [console.warn] and
    [console.error] to the standard error. *)
Fixpoint stdout_of (tr : list event) : jsstring :=
  match tr with
  | [] => []
  | Console Log msg :: tr' => line msg ++ stdout_of tr'
  | _ :: tr' => stdout_of tr'
  end.

Fixpoint stderr_of (tr : list event) : jsstring :=
  match tr with
  | [] => []
  | Console Warn msg :: tr' | Console Error msg :: tr' =>
      line msg ++ stderr_of tr'
  | _ :: tr' => stderr_of tr'
  end.

(** What [runCommand] returns. *)
Record CommandResult := mkCommandResult {
  cmd_success : bool;
  cmd_stdout : jsstring;
  cmd_stderr : jsstring;
  cmd_code : Z }.

(** The script run as a process that ends within the time limit:
    status 0 when [patchDrizzleKit] returns, the status given to
    [Deno.exit], or status 1 with the report [exn] of the runtime on
    the standard error after an exception nobody catches. *)
Definition script_process (exn : jsstring) (res : completion unit * world)
  : CommandResult :=
  let tr := trace (snd res) in
  match fst res with
  | Normal _ => mkCommandResult true (stdout_of tr) (stderr_of tr) 0
  | Exit code =>
      mkCommandResult (Z.eqb code 0) (stdout_of tr) (stderr_of tr) code
  | Uncaught => mkCommandResult false (stdout_of tr) (stderr_of tr ++ exn) 1
  end.

Definition PATCHED_TEXT : jsstring := str "Patched drizzle-kit successfully".
Definition ALREADY_TEXT : jsstring := str "already patched".

(** [runPatchScript], from the result of its [runCommand]. *)
Definition runPatchScript (result : CommandResult) : StepResult :=
  let output := cmd_stdout result ++ cmd_stderr result in
  let success :=
    cmd_success result &&
    (JS.includes PATCHED_TEXT output || JS.includes ALREADY_TEXT output) in
  mkStep (str "Apply patch") success
         (if success then None
          else Some (ErrText (match cmd_stderr result with
                              | [] => str "Patch did not complete successfully"
                              | _ => cmd_stderr result
                              end)))
         (Some (cmd_stdout result)).

(** The line of the message holds neither of the two texts
    [runPatchScript] looks for. *)
Definition quietb (msg : message) : bool :=
  negb (JS.includes PATCHED_TEXT (line msg)) &&
  negb (JS.includes ALREADY_TEXT (line msg)).

(** * Properties *)

(** ** Strings *)

Lemma eqb_eq (a b : jsstring) : JS.eqb a b = true <-> a = b.
Proof.
  revert b; induction a as [|x a IH]; intros [|y b]; simpl; split;
    try congruence; try reflexivity.
  - intros H. apply andb_true_iff in H as [Hx Hab].
    apply N.eqb_eq in Hx. apply IH in Hab. congruence.
  - intros H. injection H as -> ->.
    rewrite N.eqb_refl. simpl. now apply IH.
Qed.

Lemma eqb_refl (a : jsstring) : JS.eqb a a = true.
Proof. now apply eqb_eq. Qed.

Lemma arr_includes_In (x : jsstring) (arr : list jsstring) :
  JS.arr_includes x arr = true <-> In x arr.
Proof.
  unfold JS.arr_includes. rewrite existsb_exists. split.
  - intros (y & Hy & E). apply eqb_eq in E. now subst.
  - intros H. exists x. split; [assumption | apply eqb_refl].
Qed.

(** ** The shape of a run *)

Lemma print_results_spec (results : list PatchResult) :
  forall (b : bool) (w : world),
    print_results results b w =
    (Normal (b || existsb failed results),
     mkWorld (sys w) (tree w) (disk w) (trace w ++ map result_line results)).
Proof.
  induction results as [|r rs IH]; intros b w; simpl.
  - unfold ret. rewrite orb_false_r, app_nil_r. now destruct w.
  - unfold failed at 1, result_line at 1.
    destruct (success r); simpl;
      unfold bind, console_log, emit; rewrite IH; simpl;
      rewrite <- app_assoc; simpl.
    + reflexivity.
    + now rewrite orb_true_r.
Qed.

Lemma criticalFailures_nil (results : list PatchResult) :
  criticalFailures results = [] <->
  (forall r, In r results -> success r = false ->
             ~ In (name r) criticalPatches).
Proof.
  unfold criticalFailures. split.
  - intros H r Hin Hf Hc.
    assert (Hr : In r (filter (fun r => negb (success r) &&
                  JS.arr_includes (name r) criticalPatches) results)).
    { apply filter_In. split; [assumption|].
      apply andb_true_iff. split; [now rewrite Hf | now apply arr_includes_In]. }
    rewrite H in Hr. contradiction.
  - intros H. induction results as [|r rs IH]; [reflexivity|].
    cbn [filter].
    destruct (success r) eqn:Hs; cbn [negb andb].
    + apply IH. intros r' Hin. apply H. now right.
    + destruct (JS.arr_includes (name r) criticalPatches) eqn:Hc.
      * exfalso. apply (H r); [now left | assumption |].
        now apply arr_includes_In.
      * apply IH. intros r' Hin. apply H. now right.
Qed.

Lemma criticalFailures_cons (results : list PatchResult) :
  criticalFailures results <> [] <->
  (exists r, In r results /\ success r = false /\
             In (name r) criticalPatches).
Proof.
  unfold criticalFailures. split.
  - intros H.
    destruct (filter _ results) as [|r l] eqn:E; [congruence|].
    assert (Hr : In r (r :: l)) by now left.
    rewrite <- E in Hr. apply filter_In in Hr as [Hin Hb].
    apply andb_true_iff in Hb as [Hs Hc].
    exists r. repeat split; try assumption.
    + now apply negb_true_iff.
    + now apply arr_includes_In.
  - intros (r & Hin & Hs & Hc) E.
    assert (Hr : In r (filter (fun r => negb (success r) &&
                  JS.arr_includes (name r) criticalPatches) results)).
    { apply filter_In. split; [assumption|].
      apply andb_true_iff. split; [now rewrite Hs | now apply arr_includes_In]. }
    rewrite E in Hr. contradiction.
Qed.

(** Run the monadic steps that are ready, leaving the script's own
    functions folded. *)
Ltac run_steps :=
  repeat (progress
    (cbv beta iota zeta delta
       [bind ret emit console_log console_warn console_error Deno_exit
        readTextFile writeTextFile];
     cbn [sys tree disk trace])).

Section Runs.
Variable w : world.
Variables binPath version content : jsstring.
Hypothesis Hloc : located w = Some (binPath, version).
Hypothesis Hread : disk w binPath = Some content.

Let buffer := fst (apply_patches (insert_marker content)).
Let results := snd (apply_patches (insert_marker content)).

Lemma run_already_patched :
  JS.includes PATCH_MARKER content = true ->
  patchDrizzleKit w =
  (Normal tt,
   mkWorld (sys w) (tree w) (disk w)
     (trace w ++ preamble version binPath ++
      [Console Log MsgAlreadyPatched])).
Proof.
  intros Hm. unfold patchDrizzleKit, bind at 1, findDrizzleKitBin.
  fold (located w). rewrite Hloc. unfold preamble.
  destruct (negb (JS.arr_includes version SUPPORTED_VERSIONS) &&
            negb (JS.eqb version (str "unknown")));
    run_steps; rewrite Hread; run_steps; rewrite Hm; run_steps;
    repeat (rewrite <- app_assoc; cbn [app]); reflexivity.
Qed.

Lemma run_aborted :
  JS.includes PATCH_MARKER content = false ->
  criticalFailures results <> [] ->
  patchDrizzleKit w =
  (Exit 1,
   mkWorld (sys w) (tree w) (disk w)
     (trace w ++ preamble version binPath ++ older_note content ++
      [Console Log MsgPatchResults] ++ map result_line results ++
      [Console Error MsgCriticalFailed])).
Proof.
  intros Hm Hc. unfold patchDrizzleKit, bind at 1, findDrizzleKitBin.
  fold (located w). rewrite Hloc. unfold preamble, older_note.
  subst results. destruct (apply_patches (insert_marker content))
    as [c rs] eqn:E. cbn [fst snd] in *.
  assert (Hlen : (0 <? length (criticalFailures rs))%nat = true).
  { destruct (criticalFailures rs); [congruence | reflexivity]. }
  destruct (negb (JS.arr_includes version SUPPORTED_VERSIONS) &&
            negb (JS.eqb version (str "unknown")));
    destruct (RegExp.exec old_patch_re content) as [[? ?]|] eqn:Eo;
    run_steps; rewrite Hread; run_steps; rewrite Hm, ?Eo; run_steps;
    rewrite E; run_steps; rewrite print_results_spec; run_steps;
    rewrite Hlen; run_steps;
    repeat (rewrite <- app_assoc; cbn [app]); reflexivity.
Qed.

Lemma run_committed :
  JS.includes PATCH_MARKER content = false ->
  criticalFailures results = [] ->
  on_write (sys w) binPath buffer = Done ->
  patchDrizzleKit w =
  (Normal tt,
   mkWorld (sys w) (tree w) (write (sys w) binPath buffer (disk w))
     (trace w ++ preamble version binPath ++ older_note content ++
      [Console Log MsgPatchResults] ++ map result_line results ++
      [WriteTextFile binPath buffer;
       Console Log (if existsb failed results then MsgSomeFailed
                    else MsgPatched)])).
Proof.
  intros Hm Hc Hw. unfold patchDrizzleKit, bind at 1, findDrizzleKitBin.
  fold (located w). rewrite Hloc. unfold preamble, older_note.
  subst results buffer. destruct (apply_patches (insert_marker content))
    as [c rs] eqn:E. cbn [fst snd] in *.
  destruct (negb (JS.arr_includes version SUPPORTED_VERSIONS) &&
            negb (JS.eqb version (str "unknown")));
    destruct (RegExp.exec old_patch_re content) as [[? ?]|] eqn:Eo;
    run_steps; rewrite Hread; run_steps; rewrite Hm, ?Eo; run_steps;
    rewrite E; run_steps; rewrite print_results_spec; run_steps;
    rewrite Hc; cbn [length Nat.ltb Nat.leb]; run_steps;
    rewrite Hw; run_steps;
    destruct (existsb failed rs); cbn [orb]; run_steps;
    repeat (rewrite <- app_assoc; cbn [app]); reflexivity.
Qed.

Lemma run_rejected (remains : option jsstring) :
  JS.includes PATCH_MARKER content = false ->
  criticalFailures results = [] ->
  on_write (sys w) binPath buffer = Rejected remains ->
  patchDrizzleKit w =
  (Uncaught,
   mkWorld (sys w) (tree w) (cut_short (sys w) binPath remains (disk w))
     (trace w ++ preamble version binPath ++ older_note content ++
      [Console Log MsgPatchResults] ++ map result_line results ++
      [WriteTextFile binPath buffer])).
Proof.
  intros Hm Hc Hw. unfold patchDrizzleKit, bind at 1, findDrizzleKitBin.
  fold (located w). rewrite Hloc. unfold preamble, older_note.
  subst results buffer. destruct (apply_patches (insert_marker content))
    as [c rs] eqn:E. cbn [fst snd] in *.
  destruct (negb (JS.arr_includes version SUPPORTED_VERSIONS) &&
            negb (JS.eqb version (str "unknown")));
    destruct (RegExp.exec old_patch_re content) as [[? ?]|] eqn:Eo;
    run_steps; rewrite Hread; run_steps; rewrite Hm, ?Eo; run_steps;
    rewrite E; run_steps; rewrite print_results_spec; run_steps;
    rewrite Hc; cbn [length Nat.ltb Nat.leb]; run_steps;
    rewrite Hw; run_steps;
    repeat (rewrite <- app_assoc; cbn [app]); reflexivity.
Qed.
End Runs.

Lemma run_not_found (w : world) :
  located w = None ->
  walk_throws (sys w) = false ->
  patchDrizzleKit w =
  (Exit 1,
   mkWorld (sys w) (tree w) (disk w)
     (trace w ++ [Console Error MsgNotFound; Console Error MsgRunInstall])).
Proof.
  intros Hloc Hwalk. unfold patchDrizzleKit, bind at 1, findDrizzleKitBin.
  fold (located w). rewrite Hloc, Hwalk.
  run_steps. now rewrite <- app_assoc.
Qed.

Lemma run_walk_failed (w : world) :
  located w = None ->
  walk_throws (sys w) = true ->
  patchDrizzleKit w = (Uncaught, w).
Proof.
  intros Hloc Hwalk. unfold patchDrizzleKit, bind at 1, findDrizzleKitBin.
  fold (located w). now rewrite Hloc, Hwalk.
Qed.

Lemma run_unreadable (w : world) (binPath version : jsstring) :
  located w = Some (binPath, version) ->
  disk w binPath = None ->
  patchDrizzleKit w =
  (Uncaught,
   mkWorld (sys w) (tree w) (disk w) (trace w ++ preamble version binPath)).
Proof.
  intros Hloc Hread. unfold patchDrizzleKit, bind at 1, findDrizzleKitBin.
  fold (located w). rewrite Hloc. unfold preamble.
  destruct (negb (JS.arr_includes version SUPPORTED_VERSIONS) &&
            negb (JS.eqb version (str "unknown")));
    run_steps; rewrite Hread; run_steps;
    repeat (rewrite <- app_assoc; cbn [app]); reflexivity.
Qed.

(** ** The rule table and the script agree *)

Lemma applyPatch_name (content n : jsstring) (p : searchPattern)
      (rp : replacement) :
  name (snd (applyPatch content n p rp)) = n.
Proof.
  unfold applyPatch.
  destruct (negb (test _ content)); [reflexivity|].
  destruct (JS.eqb _ content); reflexivity.
Qed.

Lemma apply_patches_run_rules (content : jsstring) :
  apply_patches content = run_rules RULES content.
Proof.
  unfold apply_patches, step, RULES.
  cbn [run_rules]. unfold apply_rule.
  cbn [rule_name rule_pattern rule_to app].
  repeat match goal with
         | |- context [applyPatch ?a ?b ?c ?d] =>
             destruct (applyPatch a b c d) as [? ?]
         end.
  reflexivity.
Qed.

Lemma run_rules_cons (r : rule) (rs : list rule) (content : jsstring) :
  run_rules (r :: rs) content =
  (fst (run_rules rs (fst (apply_rule r content))),
   snd (apply_rule r content) ::
   snd (run_rules rs (fst (apply_rule r content)))).
Proof.
  cbn [run_rules]. destruct (apply_rule r content) as [c1 r1].
  cbn [fst snd]. destruct (run_rules rs c1). reflexivity.
Qed.

Lemma run_rules_names (rules : list rule) :
  forall content,
    map name (snd (run_rules rules content)) = map rule_name rules.
Proof.
  induction rules as [|r rs IH]; intros content; [reflexivity|].
  cbn [run_rules]. unfold apply_rule at 1.
  pose proof (applyPatch_name content (rule_name r) (rule_pattern r)
                (ReplString (rule_to r))) as Hn.
  destruct (applyPatch content (rule_name r) (rule_pattern r) _) as [c1 r1].
  specialize (IH c1). destruct (run_rules rs c1) as [c2 rs2].
  cbn [snd map] in *. now rewrite Hn, IH.
Qed.

Lemma run_rules_chain (rules : list rule) :
  forall content i r,
    nth_error rules i = Some r ->
    nth_error (snd (run_rules rules content)) i =
    Some (snd (apply_rule r (buffer_at rules i content))).
Proof.
  unfold buffer_at.
  induction rules as [|r0 rs IH]; intros content i r Hi.
  - destruct i; discriminate.
  - destruct i as [|i].
    + injection Hi as ->. cbn [run_rules firstn fst].
      destruct (apply_rule r content) as [c1 r1].
      destruct (run_rules rs c1) as [c2 rs2]. reflexivity.
    + cbn [nth_error] in Hi. cbn [run_rules firstn].
      destruct (apply_rule r0 content) as [c1 r1].
      specialize (IH c1 i r Hi).
      destruct (run_rules rs c1) as [c2 rs2].
      destruct (run_rules (firstn i rs) c1) as [c3 rs3].
      exact IH.
Qed.

(** ** Reading the trace *)

Lemma report_app (a b : list event) : report (a ++ b) = report a ++ report b.
Proof.
  induction a as [|e a IH]; [reflexivity|].
  destruct e as [[] []|]; simpl; now rewrite ?IH.
Qed.

Lemma writes_app (a b : list event) : writes (a ++ b) = writes a ++ writes b.
Proof.
  induction a as [|e a IH]; [reflexivity|].
  destruct e; simpl; now rewrite ?IH.
Qed.

Lemma printed_app (l : level) (a b : list event) :
  printed l (a ++ b) = printed l a ++ printed l b.
Proof.
  induction a as [|e a IH]; [reflexivity|].
  destruct e as [l' ?|]; [destruct l, l'|]; simpl; now rewrite ?IH.
Qed.

Lemma report_lines (results : list PatchResult) :
  report (map result_line results) =
  map (fun r => (name r, success r)) results.
Proof.
  induction results as [|r rs IH]; [reflexivity|].
  cbn [map]. unfold result_line at 1.
  destruct (success r); cbn [report]; now rewrite IH.
Qed.

Lemma writes_lines (results : list PatchResult) :
  writes (map result_line results) = [].
Proof. induction results as [|r rs IH]; [reflexivity | exact IH]. Qed.

Lemma printed_lines (l : level) (results : list PatchResult) :
  l <> Log -> printed l (map result_line results) = [].
Proof.
  intros Hl. induction results as [|r rs IH]; [reflexivity|].
  destruct l; [congruence | exact IH | exact IH].
Qed.

Lemma report_preamble (v p : jsstring) : report (preamble v p) = [].
Proof. unfold preamble. now destruct (_ && _). Qed.

Lemma writes_preamble (v p : jsstring) : writes (preamble v p) = [].
Proof. unfold preamble. now destruct (_ && _). Qed.

Lemma report_older (c : jsstring) : report (older_note c) = [].
Proof. unfold older_note. now destruct (exec _ _) as [[? ?]|]. Qed.

Lemma writes_older (c : jsstring) : writes (older_note c) = [].
Proof. unfold older_note. now destruct (exec _ _) as [[? ?]|]. Qed.

Lemma printed_older (l : level) (c : jsstring) :
  l <> Log -> printed l (older_note c) = [].
Proof.
  intros Hl. unfold older_note.
  destruct (exec _ _) as [[? ?]|]; [|reflexivity].
  destruct l; [congruence | reflexivity | reflexivity].
Qed.

Ltac read_trace :=
  rewrite ?report_app, ?writes_app, ?printed_app, ?report_lines,
    ?writes_lines, ?report_preamble, ?writes_preamble, ?report_older,
    ?writes_older, ?app_nil_r; cbn [report writes printed app].

Lemma run_shape (h : host) (t : list WalkEntry)
      (d : jsstring -> option jsstring) :
  shape h t d.
Proof.
  destruct (located (mkWorld h t d [])) as [[p v]|] eqn:Hloc.
  - destruct (d p) as [c|] eqn:Hread.
    + destruct (JS.includes PATCH_MARKER c) eqn:Hm.
      * apply (AlreadyPatched h t d p v c Hloc Hread Hm).
        unfold run. now rewrite (run_already_patched _ p v c Hloc Hread Hm).
      * destruct (criticalFailures (snd (apply_patches (insert_marker c))))
          as [|f fs] eqn:Hc.
        -- destruct (on_write h p (fst (apply_patches (insert_marker c))))
             as [|remains] eqn:Hw.
           ++ apply (Committed h t d p v c Hloc Hread Hm Hc Hw).
              unfold run.
              now rewrite (run_committed _ p v c Hloc Hread Hm Hc Hw).
           ++ apply (WriteRejected h t d p v c remains Hloc Hread Hm Hc Hw).
              unfold run.
              now rewrite (run_rejected _ p v c Hloc Hread remains Hm Hc Hw).
        -- assert (Hc' : criticalFailures
                           (snd (apply_patches (insert_marker c))) <> [])
             by (rewrite Hc; discriminate).
           apply (Aborted h t d p v c Hloc Hread Hm Hc').
           unfold run. now rewrite (run_aborted _ p v c Hloc Hread Hm Hc').
    + apply (Unreadable h t d p v Hloc Hread).
      unfold run. now rewrite (run_unreadable _ p v Hloc Hread).
  - destruct (walk_throws h) eqn:Hwalk.
    + apply WalkFailed; [assumption | assumption |].
      unfold run. now rewrite run_walk_failed.
    + apply NotFound; [assumption | assumption |].
      unfold run. now rewrite run_not_found.
Qed.

(** A path reads what was stored under it. *)
Lemma write_read (h : host) (p c : jsstring)
      (d : jsstring -> option jsstring) :
  write h p c d p = Some c.
Proof. unfold write. now rewrite eqb_refl. Qed.

Lemma results_names (c : jsstring) :
  map name (snd (apply_patches c)) = map rule_name RULES.
Proof. rewrite apply_patches_run_rules. apply run_rules_names. Qed.

Lemma rule_names_NoDup : NoDup (map rule_name RULES).
Proof.
  assert (H : forall l : list jsstring,
             (fix nodup l := match l with
                             | [] => true
                             | x :: l' => negb (JS.arr_includes x l') && nodup l'
                             end) l = true -> NoDup l).
  { induction l as [|x l IH]; intros H; constructor.
    - apply andb_true_iff in H as [H _]. apply negb_true_iff in H.
      intros Hin. apply arr_includes_In in Hin. congruence.
    - apply IH. now apply andb_true_iff in H as [_ H]. }
  apply H. vm_compute. reflexivity.
Qed.

(** A result is determined by its name. *)
Lemma result_by_name (c : jsstring) (r1 r2 : PatchResult) :
  In r1 (snd (apply_patches c)) -> In r2 (snd (apply_patches c)) ->
  name r1 = name r2 -> r1 = r2.
Proof.
  pose proof (results_names c) as Hn. pose proof rule_names_NoDup as Hd.
  rewrite <- Hn in Hd. clear Hn.
  induction (snd (apply_patches c)) as [|r rs IH]; [contradiction|].
  inversion Hd as [|? ? Hnotin Hd']; subst.
  intros [-> | H1] [-> | H2] E; try reflexivity.
  - exfalso. apply Hnotin. rewrite E. now apply in_map.
  - exfalso. apply Hnotin. rewrite <- E. now apply in_map.
  - now apply IH.
Qed.

(** ** The matcher *)

Module MatchFacts.
Import RegExp MatchDefs.

Lemma consume_some (x : N) (o : option mres) (r : mres) :
  consume x o = Some r ->
  exists r', o = Some r' /\ mtext r = x :: mtext r' /\
             mcur r = x :: mcur r' /\ mcaps r = mcaps r' /\
             mrest r = mrest r'.
Proof.
  destruct o as [r'|]; [|discriminate]. cbn [consume].
  intros H. injection H as <-. exists r'. cbn. auto.
Qed.

Lemma orelse_some (o alt : option mres) (r : mres) :
  orelse o alt = Some r -> o = Some r \/ (o = None /\ alt = Some r).
Proof. destruct o; cbn [orelse]; auto. Qed.

Lemma one_some (a : atom)
      (k : option N -> jsstring -> option mres) (s : jsstring) (r : mres) :
  one a k s = Some r ->
  exists x s' r', s = x :: s' /\ atom_matches a x = true /\
                  k (Some x) s' = Some r' /\
                  mtext r = x :: mtext r' /\ mcur r = x :: mcur r' /\
                  mcaps r = mcaps r' /\ mrest r = mrest r'.
Proof.
  unfold one. destruct s as [|x s']; [discriminate|].
  destruct (atom_matches a x) eqn:Ha; [|discriminate].
  intros H. apply consume_some in H as (r' & Hk & H).
  exists x, s', r'. tauto.
Qed.

Lemma one_sound (a : atom) {k} :
  sound k -> sound (fun _ => one a k).
Proof.
  intros Hk prev s r H.
  apply one_some in H as (x & s' & r' & -> & _ & H & Ht & _ & _ & Hr).
  apply Hk in H. rewrite Ht, Hr. cbn. now f_equal.
Qed.

Lemma star_greedy_sound (a : atom) {k} :
  sound k -> sound (star_greedy a k).
Proof.
  intros Hk prev s. revert prev.
  induction s as [|x s IH]; intros prev r; cbn [star_greedy].
  - apply Hk.
  - destruct (atom_matches a x); [|apply Hk].
    intros H. apply orelse_some in H as [H | [_ H]]; [|now apply Hk in H].
    apply consume_some in H as (r' & H & Ht & _ & _ & Hr).
    apply IH in H. rewrite Ht, Hr. cbn. now f_equal.
Qed.

Lemma star_lazy_sound (a : atom) {k} :
  sound k -> sound (star_lazy a k).
Proof.
  intros Hk prev s. revert prev.
  induction s as [|x s IH]; intros prev r; cbn [star_lazy].
  - destruct (k prev []) eqn:E; [|discriminate].
    intros H. injection H as <-. now apply Hk in E.
  - destruct (k prev (x :: s)) eqn:E.
    + intros H. injection H as <-. now apply Hk in E.
    + destruct (atom_matches a x); [|discriminate].
      intros H. apply consume_some in H as (r' & H & Ht & _ & _ & Hr).
      apply IH in H. rewrite Ht, Hr. cbn. now f_equal.
Qed.

Lemma group_some (f : option mres -> option mres) (o : option mres)
      (r : mres) :
  f = open_group \/ f = close_group ->
  f o = Some r ->
  exists r', o = Some r' /\ mtext r = mtext r' /\ mrest r = mrest r'.
Proof.
  intros [-> | ->]; destruct o as [r'|]; try discriminate;
    intros H; injection H as <-; exists r'; auto.
Qed.

(** The matched text and the rest make up the input. *)
Lemma m_sound (ml : bool) (its : list item) : sound (m ml its).
Proof.
  induction its as [|it its IH]; intros prev s r; cbn [m].
  - intros H. injection H as <-. reflexivity.
  - destruct it as [a [] | | | |].
    + apply (one_sound a IH prev).
    + apply (star_greedy_sound a IH).
    + apply (one_sound a (star_greedy_sound a IH) prev).
    + intros H. apply orelse_some in H as [H | [_ H]].
      * now apply (one_sound a IH prev) in H.
      * now apply IH in H.
    + apply (star_lazy_sound a IH).
    + destruct (at_bol ml prev); [apply IH | discriminate].
    + destruct (at_eol ml s); [apply IH | discriminate].
    + intros H. apply (group_some open_group) in H as (r' & H & -> & ->);
        [|now left]. now apply IH in H.
    + intros H. apply (group_some close_group) in H as (r' & H & -> & ->);
        [|now right]. now apply IH in H.
Qed.

(** [search] returns the leftmost position at which the items match. *)
Lemma search_some (ml : bool) (its : list item) (s : jsstring) :
  forall bef bef' r,
    search ml its bef s = Some (bef', r) ->
    exists pre suf,
      s = pre ++ suf /\ bef' = rev pre ++ bef /\
      m ml its (hd_error bef') suf = Some r /\
      (forall a b, pre = a ++ b -> b <> [] ->
                   m ml its (hd_error (rev a ++ bef)) (b ++ suf) = None).
Proof.
  induction s as [|x s IH]; intros bef bef' r; cbn [search].
  - destruct (m ml its (hd_error bef) []) eqn:E; [|discriminate].
    intros H. injection H as <- <-. exists [], []. repeat split; auto.
    intros a b Hab Hb. destruct a; destruct b; try discriminate. congruence.
  - destruct (m ml its (hd_error bef) (x :: s)) eqn:E.
    + intros H. injection H as <- <-. exists [], (x :: s).
      repeat split; auto.
      intros a b Hab Hb. destruct a; destruct b; try discriminate. congruence.
    + intros H. apply IH in H as (pre & suf & -> & -> & Hm & Hbefore).
      exists (x :: pre), suf. cbn [rev app]. rewrite <- app_assoc.
      repeat split; auto.
      intros a b Hab Hb. destruct a as [|y a].
      * cbn in Hab. subst b. cbn [rev app]. exact E.
      * cbn in Hab. injection Hab as <- ->.
        cbn [rev]. rewrite <- app_assoc. now apply Hbefore.
Qed.

Lemma search_none (ml : bool) (its : list item) (s : jsstring) :
  forall bef,
    search ml its bef s = None ->
    forall pre suf, s = pre ++ suf ->
                    m ml its (hd_error (rev pre ++ bef)) suf = None.
Proof.
  induction s as [|x s IH]; intros bef; cbn [search].
  - destruct (m ml its (hd_error bef) []) eqn:E; [discriminate|].
    intros _ pre suf H. symmetry in H. apply app_eq_nil in H as [-> ->].
    exact E.
  - destruct (m ml its (hd_error bef) (x :: s)) eqn:E; [discriminate|].
    intros H [|y pre] suf Hs.
    + cbn in Hs. subst suf. exact E.
    + cbn in Hs. injection Hs as <- ->.
      cbn [rev]. rewrite <- app_assoc. now apply (IH _ H).
Qed.

(** A match somewhere makes [search] succeed. *)
Lemma search_finds (ml : bool) (its : list item) (pre suf : jsstring) :
  forall bef,
    m ml its (hd_error (rev pre ++ bef)) suf <> None ->
    search ml its bef (pre ++ suf) <> None.
Proof.
  intros bef Hm Hs. apply Hm. now apply (search_none _ _ _ _ Hs).
Qed.

Lemma test_true (re : RegExp.t) (s : jsstring) :
  test re s = true <-> has_match re s.
Proof.
  unfold test, exec, has_match. split.
  - destruct (search _ _ [] s) as [[bef r]|] eqn:E; [|discriminate].
    intros _. apply search_some in E as (pre & suf & -> & -> & Hm & _).
    exists pre, suf. rewrite app_nil_r in Hm. split; congruence.
  - intros (pre & suf & -> & Hm).
    destruct (search _ _ [] (pre ++ suf)) eqn:E; [reflexivity|].
    exfalso. revert E. apply search_finds. now rewrite app_nil_r.
Qed.

Lemma test_false (re : RegExp.t) (s : jsstring) :
  test re s = false <-> ~ has_match re s.
Proof.
  rewrite <- test_true. destruct (test re s); split; congruence.
Qed.

(** *** The text of a match *)

Lemma one_lang (a : atom) {k L} :
  matches_in k L ->
  matches_in (fun _ => one a k)
    (fun t => exists x t', t = x :: t' /\ atom_matches a x = true /\ L t').
Proof.
  intros Hk prev s r H.
  apply one_some in H as (x & s' & r' & -> & Ha & H & Ht & _).
  apply Hk in H. exists x, (mtext r'). auto.
Qed.

Lemma star_greedy_lang (a : atom) {k L} :
  matches_in k L ->
  matches_in (star_greedy a k)
    (fun t => exists xs t',
         t = xs ++ t' /\ Forall (fun x => atom_matches a x = true) xs /\
         L t').
Proof.
  intros Hk prev s. revert prev.
  assert (Hbase : forall prev s r, k prev s = Some r ->
            exists xs t', mtext r = xs ++ t' /\
              Forall (fun x => atom_matches a x = true) xs /\ L t').
  { intros prev0 s0 r0 H. apply Hk in H. exists [], (mtext r0). auto. }
  induction s as [|x s IH]; intros prev r; cbn [star_greedy].
  - apply Hbase.
  - destruct (atom_matches a x) eqn:Ha; [|apply Hbase].
    intros H. apply orelse_some in H as [H | [_ H]]; [|now apply Hbase in H].
    apply consume_some in H as (r' & H & Ht & _).
    apply IH in H as (xs & t' & Ht' & Hxs & HL).
    exists (x :: xs), t'. rewrite Ht, Ht'. auto.
Qed.

Lemma star_lazy_lang (a : atom) {k L} :
  matches_in k L ->
  matches_in (star_lazy a k)
    (fun t => exists xs t',
         t = xs ++ t' /\ Forall (fun x => atom_matches a x = true) xs /\
         L t').
Proof.
  intros Hk prev s. revert prev.
  assert (Hbase : forall prev s r, k prev s = Some r ->
            exists xs t', mtext r = xs ++ t' /\
              Forall (fun x => atom_matches a x = true) xs /\ L t').
  { intros prev0 s0 r0 H. apply Hk in H. exists [], (mtext r0). auto. }
  induction s as [|x s IH]; intros prev r; cbn [star_lazy].
  - destruct (k prev []) eqn:E; [|discriminate].
    intros H. injection H as <-. now apply Hbase in E.
  - destruct (k prev (x :: s)) eqn:E.
    + intros H. injection H as <-. now apply Hbase in E.
    + destruct (atom_matches a x) eqn:Ha; [|discriminate].
      intros H. apply consume_some in H as (r' & H & Ht & _).
      apply IH in H as (xs & t' & Ht' & Hxs & HL).
      exists (x :: xs), t'. rewrite Ht, Ht'. auto.
Qed.

(** The matched text is in the language of the items. *)
Lemma m_lang (ml : bool) (its : list item) : matches_in (m ml its) (lang its).
Proof.
  induction its as [|it its IH]; intros prev s r; cbn [m lang].
  - intros H. injection H as <-. reflexivity.
  - destruct it as [a [] | | | |].
    + apply (one_lang a IH prev).
    + apply (star_greedy_lang a IH).
    + intros H. apply (one_lang a (star_greedy_lang a IH) prev) in H
        as (x & t' & Ht & Ha & xs & t'' & -> & Hxs & HL).
      exists x, xs, t''. auto.
    + intros H. apply orelse_some in H as [H | [_ H]].
      * right. now apply (one_lang a IH prev) in H.
      * left. now apply IH in H.
    + apply (star_lazy_lang a IH).
    + destruct (at_bol ml prev); [apply IH | discriminate].
    + destruct (at_eol ml s); [apply IH | discriminate].
    + intros H. apply (group_some open_group) in H as (r' & H & -> & _);
        [|now left]. now apply IH in H.
    + intros H. apply (group_some close_group) in H as (r' & H & -> & _);
        [|now right]. now apply IH in H.
Qed.

Lemma lang_lit (P : jsstring) (its : list item) (t : jsstring) :
  lang (lit P ++ its) t <-> exists t', t = P ++ t' /\ lang its t'.
Proof.
  revert t. induction P as [|c P IH]; intros t; cbn [lit map app lang].
  - split; [intros H; now exists t | now intros (t' & -> & H)].
  - split.
    + intros (x & t1 & -> & Hx & H). apply N.eqb_eq in Hx. subst x.
      apply IH in H as (t' & -> & H). now exists t'.
    + intros (t' & -> & H). exists c, (P ++ t').
      repeat split; [apply N.eqb_refl|]. apply IH. now exists t'.
Qed.

(** *** Where no match can start *)

Lemma m_head_fail (ml : bool) (its : list item) :
  forall prev s,
    JS.startsWith (head_of its) s = false -> m ml its prev s = None.
Proof.
  induction its as [|it its IH]; intros prev s; cbn [head_of m].
  - discriminate.
  - destruct it as [a q | | | |]; cbn [JS.startsWith]; try discriminate.
    + destruct a as [[c| | | |]| |]; try discriminate.
      destruct q; try discriminate.
      cbn [JS.startsWith]. unfold one. destruct s as [|x s]; [reflexivity|].
      cbn [atom_matches catom_matches].
      destruct (N.eqb c x); cbn [andb]; [|reflexivity].
      intros H. now rewrite (IH _ _ H).
    + intros H. rewrite (IH _ _ H). now destruct (at_bol ml prev).
    + intros H. now rewrite (IH _ _ H).
    + intros H. now rewrite (IH _ _ H).
Qed.

Lemma startsWith_app (P s X : jsstring) :
  JS.startsWith P s = true -> JS.startsWith P (s ++ X) = true.
Proof.
  revert s. induction P as [|c P IH]; intros [|x s]; cbn; try congruence.
  intros H. apply andb_true_iff in H as [-> H]. cbn. now apply IH.
Qed.

Lemma startsWith_iff (P s : jsstring) :
  JS.startsWith P s = true <-> exists t, s = P ++ t.
Proof.
  revert s. induction P as [|c P IH]; intros s; cbn [JS.startsWith].
  - split; [now exists s | reflexivity].
  - destruct s as [|x s].
    + split; [discriminate | intros (t & H); discriminate].
    + rewrite andb_true_iff, N.eqb_eq, IH. split.
      * intros (-> & t & ->). now exists t.
      * intros (t & H). injection H as -> ->. split; [reflexivity|].
        now exists t.
Qed.

Lemma includes_iff (P s : jsstring) :
  JS.includes P s = true <-> exists a b, s = a ++ P ++ b.
Proof.
  induction s as [|x s IH]; cbn [JS.includes].
  - rewrite orb_false_r, startsWith_iff. split.
    + intros (t & H). exists [], t. exact H.
    + intros (a & b & H). symmetry in H.
      apply app_eq_nil in H as [-> H]. apply app_eq_nil in H as [-> ->].
      now exists [].
  - rewrite orb_true_iff, startsWith_iff, IH. split.
    + intros [(t & ->) | (a & b & ->)].
      * now exists [], t.
      * now exists (x :: a), b.
    + intros ([|y a] & b & H).
      * left. now exists b.
      * right. injection H as -> ->. now exists a, b.
Qed.

Lemma includes_false (P s : jsstring) :
  JS.includes P s = false ->
  forall a b, s = a ++ b -> JS.startsWith P b = false.
Proof.
  intros H a b ->. destruct (JS.startsWith P b) eqn:E; [|reflexivity].
  apply startsWith_iff in E as (t & ->).
  assert (Hi : JS.includes P (a ++ P ++ t) = true)
    by (apply includes_iff; now exists a, t).
  congruence.
Qed.

(** A text without the character [c] that starts in a string ending
    with [c] lies within it. *)
Lemma no_straddle (c : N) (P : jsstring) :
  ~ In c P ->
  forall b X, JS.startsWith P ((b ++ [c]) ++ X) = true ->
              JS.startsWith P (b ++ [c]) = true.
Proof.
  induction P as [|x P IH]; intros Hc b X; [reflexivity|].
  destruct b as [|y b]; cbn [app JS.startsWith].
  - intros H. apply andb_true_iff in H as [H _]. apply N.eqb_eq in H.
    exfalso. apply Hc. now left.
  - intros H. apply andb_true_iff in H as [-> H]. cbn [andb].
    apply (IH (fun Hin => Hc (or_intror Hin)) b X H).
Qed.

(** The search passes over a prefix in which no match starts. *)
Lemma search_skip (ml : bool) (its : list item) (pre X : jsstring) :
  (forall a b, pre = a ++ b -> b <> [] ->
               forall prev, m ml its prev (b ++ X) = None) ->
  forall bef,
    search ml its bef (pre ++ X) = search ml its (rev pre ++ bef) X.
Proof.
  induction pre as [|x pre IH]; intros H bef; [reflexivity|].
  cbn [app search].
  rewrite (H [] (x :: pre) eq_refl) by discriminate.
  cbn [rev]. rewrite <- app_assoc. apply IH.
  intros a b -> Hb prev. now apply (H (x :: a) b).
Qed.

(** In a prefix that ends with [c] and holds no occurrence of [P], a
    text without [c], no text starting with [P] starts. *)
Lemma clear_prefix (c : N) (P pre : jsstring) :
  ~ In c P ->
  (pre = [] \/ exists pre', pre = pre' ++ [c]) ->
  JS.includes P pre = false ->
  forall a b X, pre = a ++ b -> b <> [] ->
                JS.startsWith P (b ++ X) = false.
Proof.
  intros Hc Hpre Hinc a b X Hab Hb.
  destruct (JS.startsWith P (b ++ X)) eqn:E; [|reflexivity].
  destruct Hpre as [-> | (pre' & ->)].
  - symmetry in Hab. apply app_eq_nil in Hab as [_ ->]. contradiction.
  - assert (Hbc : exists b', b = b' ++ [c]).
    { destruct (exists_last Hb) as (b' & y & ->).
      rewrite app_assoc in Hab. apply app_inj_tail in Hab as [_ ->].
      now exists b'. }
    destruct Hbc as (b' & ->).
    apply (no_straddle c P Hc) in E.
    rewrite (includes_false _ _ Hinc a (b' ++ [c]) Hab) in E. discriminate.
Qed.

End MatchFacts.

(** ** The replace loop *)

Module ReplaceFacts.
Import RegExp MatchDefs MatchFacts.

Section Loop.
Variable re : RegExp.t.
Variable rp : replacement.
Variable whole : jsstring.

Local Abbreviation rg := (replace_global re rp whole).
Local Abbreviation at_ bef s :=
  (m (multiline re) (items re) (hd_error bef) s).
Local Abbreviation subst_ bef r := (replacement_text rp whole bef r).

Lemma rg_skip (a : jsstring) :
  forall bef rest, rg (length a) bef (a ++ rest) = rg 0 (rev a ++ bef) rest.
Proof.
  induction a as [|x a IH]; intros bef rest; [reflexivity|].
  cbn [length app replace_global rev]. rewrite IH, <- app_assoc. reflexivity.
Qed.

Lemma rg_none (bef : jsstring) (x : N) (s : jsstring) :
  at_ bef (x :: s) = None -> rg 0 bef (x :: s) = x :: rg 0 (x :: bef) s.
Proof. intros H. cbn [replace_global]. now rewrite H. Qed.

Lemma rg_match (bef s : jsstring) (r : mres) :
  at_ bef s = Some r -> mtext r <> [] ->
  rg 0 bef s = subst_ bef r ++ rg 0 (rev (mtext r) ++ bef) (mrest r).
Proof.
  intros Hm Hne. pose proof (m_sound _ _ _ _ _ Hm) as Hs.
  destruct (mtext r) as [|x mt] eqn:Et; [contradiction|].
  cbn [app] in Hs. subst s. cbn [replace_global]. rewrite Hm, Et.
  rewrite rg_skip. cbn [rev]. now rewrite <- app_assoc.
Qed.

Lemma rg_empty_match (bef : jsstring) (x : N) (s : jsstring) (r : mres) :
  at_ bef (x :: s) = Some r -> mtext r = [] ->
  rg 0 bef (x :: s) = subst_ bef r ++ x :: rg 0 (x :: bef) s.
Proof. intros Hm Et. cbn [replace_global]. now rewrite Hm, Et. Qed.

(** Without a match from here on the loop copies its input. *)
Lemma rg_id (s : jsstring) :
  forall bef,
    search (multiline re) (items re) bef s = None -> rg 0 bef s = s.
Proof.
  induction s as [|x s IH]; intros bef; cbn [search].
  - destruct (at_ bef []) eqn:E; [discriminate|].
    intros _. cbn [replace_global]. now rewrite E.
  - destruct (at_ bef (x :: s)) eqn:E; [discriminate|].
    intros H. rewrite (rg_none _ _ _ E). now rewrite IH.
Qed.

(** The loop copies a prefix in which no match starts. *)
Lemma rg_prefix (pre X : jsstring) :
  (forall a b, pre = a ++ b -> b <> [] ->
               forall prev, m (multiline re) (items re) prev (b ++ X) = None) ->
  forall bef, rg 0 bef (pre ++ X) = pre ++ rg 0 (rev pre ++ bef) X.
Proof.
  induction pre as [|x pre IH]; intros H bef; [reflexivity|].
  cbn [app]. rewrite rg_none by (apply (H [] (x :: pre) eq_refl); discriminate).
  cbn [rev]. rewrite <- app_assoc. f_equal. apply IH.
  intros a b -> Hb prev. now apply (H (x :: a) b).
Qed.

(** With a match somewhere, the output ends with the replacement of
    the last match followed by the text after that match. *)
Lemma rg_last (n : nat) :
  forall s bef,
    length s <= n ->
    search (multiline re) (items re) bef s <> None ->
    exists A A' bef' s' r Z,
      s = A ++ mtext r ++ Z /\
      rg 0 bef s = A' ++ subst_ bef' r ++ Z /\
      at_ bef' s' = Some r.
Proof.
  induction n as [|n IH]; intros s bef Hlen Hs.
  - destruct s; [|cbn in Hlen; lia].
    cbn [search] in Hs. destruct (at_ bef []) as [r|] eqn:E; [|congruence].
    pose proof (m_sound _ _ _ _ _ E) as Hr. symmetry in Hr.
    apply app_eq_nil in Hr as [Ht Hz].
    exists [], [], bef, [], r, []. cbn [replace_global]. rewrite E, Ht.
    cbn [app]. now rewrite app_nil_r.
  - destruct (at_ bef s) as [r|] eqn:E.
    + pose proof (m_sound _ _ _ _ _ E) as Hr.
      destruct (mtext r) as [|x mt] eqn:Et.
      * (* an empty match *)
        destruct s as [|y s].
        -- exists [], [], bef, [], r, []. cbn [replace_global].
           rewrite E, Et. cbn [app]. now rewrite app_nil_r.
        -- rewrite (rg_empty_match _ _ _ _ E Et).
           destruct (search (multiline re) (items re) (y :: bef) s)
             as [[b1 r1]|] eqn:E1.
           ++ destruct (IH s (y :: bef)) as (A & A' & bef' & s' & r' & Z & Hs' & Hg & Hm');
                [cbn in Hlen; lia | congruence |].
              exists (y :: A), (subst_ bef r ++ y :: A'), bef', s', r', Z.
              rewrite Hg, Hs'. rewrite <- app_assoc. auto.
           ++ rewrite (rg_id _ _ E1).
              exists [], [], bef, (y :: s), r, (y :: s). rewrite Et. auto.
      * (* a match with text *)
        assert (Hne : mtext r <> []) by (rewrite Et; discriminate).
        rewrite (rg_match _ _ _ E Hne).
        destruct (search (multiline re) (items re) (rev (mtext r) ++ bef)
                         (mrest r)) as [[b1 r1]|] eqn:E1.
        -- destruct (IH (mrest r) (rev (mtext r) ++ bef))
             as (A & A' & bef' & s' & r' & Z & Hs' & Hg & Hm');
             [|congruence|].
           { rewrite Hr, length_app in Hlen. cbn in Hlen. lia. }
           exists (mtext r ++ A), (subst_ bef r ++ A'), bef', s', r', Z.
           rewrite Hg. rewrite <- !app_assoc. split; [|auto].
           rewrite Et, <- Hs'. exact Hr.
        -- rewrite (rg_id _ _ E1).
           exists [], [], bef, s, r, (mrest r). rewrite Et. cbn [app]. auto.
    + destruct s as [|y s].
      * cbn [search] in Hs. rewrite E in Hs. congruence.
      * cbn [search] in Hs. rewrite E in Hs.
        destruct (IH s (y :: bef)) as (A & A' & bef' & s' & r' & Z & Hs' & Hg & Hm');
          [cbn in Hlen; lia | assumption |].
        exists (y :: A), (y :: A'), bef', s', r', Z.
        rewrite (rg_none _ _ _ E), Hg, Hs'. auto.
Qed.

End Loop.

(** A template without [$] stands for itself. *)
Lemma getSubstitution_plain (matched before after : jsstring)
      (caps : list jsstring) (tpl : jsstring) :
  forallb (fun c => negb (N.eqb c 36)) tpl = true ->
  getSubstitution matched before after caps tpl = tpl.
Proof.
  induction tpl as [|c tpl IH]; [reflexivity|].
  cbn [forallb getSubstitution]. intros H.
  apply andb_true_iff in H as [-> H]. now rewrite IH.
Qed.

Lemma replace_with_g (re : RegExp.t) (rp : replacement) (s : jsstring) :
  global re = true -> replace re rp s = replace_global re rp s 0 [] s.
Proof. intros H. unfold replace. now rewrite H. Qed.


End ReplaceFacts.

(** ** Where the marker goes *)

Module MarkerFacts.
Import MatchFacts.

Lemma indexOf_spec (k s : jsstring) :
  JS.indexOf k s = (-1)%Z \/
  exists a b, s = a ++ k ++ b /\ JS.indexOf k s = Z.of_nat (length a).
Proof.
  induction s as [|x s IH]; cbn [JS.indexOf].
  - destruct (JS.startsWith k []) eqn:E; [|now left].
    right. apply startsWith_iff in E as (b & E). now exists [], b.
  - destruct (JS.startsWith k (x :: s)) eqn:E.
    + right. apply startsWith_iff in E as (b & E). now exists [], b.
    + destruct IH as [E' | (a & b & Es & E')]; rewrite E'.
      * left. reflexivity.
      * right. exists (x :: a), b. split; [now rewrite Es|].
        cbn zeta. destruct (Z.ltb_spec (Z.of_nat (length a)) 0); [lia|].
        cbn [length]. lia.
Qed.


Lemma slice_upto (a b : jsstring) :
  JS.slice (a ++ b) 0 (Z.of_nat (length a)) = a.
Proof.
  unfold JS.slice, JS.clamp. rewrite length_app.
  change (0 <? 0)%Z with false. cbn beta iota.
  destruct (Z.ltb_spec (Z.of_nat (length a)) 0); [lia|].
  rewrite Z.min_l, Z.min_l, Nat2Z.id by lia.
  change (Z.to_nat 0) with 0. cbn [skipn]. rewrite Nat.sub_0_r.
  rewrite firstn_app, Nat.sub_diag, firstn_all. cbn [firstn].
  apply app_nil_r.
Qed.

Lemma slice_from_at (a b : jsstring) :
  JS.slice_from (a ++ b) (Z.of_nat (length a)) = b.
Proof.
  unfold JS.slice_from, JS.slice, JS.clamp. rewrite length_app.
  destruct (Z.ltb_spec (Z.of_nat (length a)) 0); [lia|].
  destruct (Z.ltb_spec (Z.of_nat (length a + length b)) 0); [lia|].
  rewrite Z.min_l, Z.min_l, !Nat2Z.id by lia.
  rewrite skipn_app, Nat.sub_diag, skipn_all. cbn [skipn app].
  apply firstn_all2. lia.
Qed.

(** The buffer is cut in two and the marker line put in between. *)
Lemma insert_marker_cut (c : jsstring) :
  insert_marker c =
  shebang_line c ++ PATCH_MARKER ++ [NL] ++ after_shebang c.
Proof.
  unfold insert_marker, shebang_line, after_shebang.
  now destruct (JS.startsWith (str "#!") c).
Qed.

Lemma shebang_cut (c : jsstring) :
  c = shebang_line c ++ after_shebang c /\
  (shebang_line c = [] \/ exists l, shebang_line c = l ++ [NL]).
Proof.
  unfold shebang_line, after_shebang.
  destruct (JS.startsWith (str "#!") c); [|auto].
  destruct (indexOf_spec [NL] c) as [-> | (a & b & -> & ->)].
  - change (-1 + 1)%Z with 0%Z.
    rewrite (slice_upto [] c : JS.slice c 0 0 = []).
    rewrite (slice_from_at [] c : JS.slice_from c 0 = c). auto.
  - assert (E : (Z.of_nat (length a) + 1)%Z = Z.of_nat (length (a ++ [NL])))
      by (rewrite length_app; cbn [length]; lia).
    rewrite E. cbn [app]. change (a ++ NL :: b) with (a ++ [NL] ++ b).
    rewrite app_assoc, slice_upto, slice_from_at.
    split; [reflexivity|]. right. now exists a.
Qed.

(** Without a line break in a shebang line the cut is at the start. *)
Lemma shebang_line_none (c : jsstring) :
  JS.startsWith (str "#!") c = false -> shebang_line c = [].
Proof. unfold shebang_line. now intros ->. Qed.

Lemma includes_app_l (P a b : jsstring) :
  JS.includes P a = true -> JS.includes P (a ++ b) = true.
Proof.
  rewrite !includes_iff. intros (x & y & ->).
  exists x, (y ++ b). now rewrite <- !app_assoc.
Qed.

Lemma includes_app_r (P a b : jsstring) :
  JS.includes P b = true -> JS.includes P (a ++ b) = true.
Proof.
  rewrite !includes_iff. intros (x & y & ->).
  exists (a ++ x), y. now rewrite <- !app_assoc.
Qed.

(** An occurrence of a text without [c] in two parts, the first of
    which ends with [c], lies in one of them. *)
Lemma includes_split (c : N) (P a b : jsstring) :
  ~ In c P -> P <> [] ->
  (a = [] \/ exists a', a = a' ++ [c]) ->
  JS.includes P (a ++ b) = true ->
  JS.includes P a = true \/ JS.includes P b = true.
Proof.
  intros Hc Hne Ha.
  induction a as [|x a IH]; [now right|].
  destruct Ha as [Ha | (a' & Ha)]; [discriminate|].
  cbn [app JS.includes]. intros H. apply orb_true_iff in H as [H | H].
  - left. change (x :: a ++ b) with ((x :: a) ++ b) in H.
    rewrite Ha in H. apply (no_straddle c P Hc) in H. rewrite <- Ha in H.
    cbn [JS.includes]. now rewrite H.
  - destruct a' as [|y a'].
    + injection Ha as -> ->. now right.
    + injection Ha as -> ->.
      destruct (IH (or_intror (ex_intro _ a' eq_refl)) H) as [H' | H'];
        [left | now right].
      cbn [JS.includes]. rewrite H'. apply orb_true_r.
Qed.

Lemma marker_no_NL : ~ In NL PATCH_MARKER.
Proof. intros H. vm_compute in H. intuition discriminate. Qed.


End MarkerFacts.

(** ** Rules that leave the marker line alone *)

Module PrefixFacts.
Import MatchDefs MatchFacts ReplaceFacts MarkerFacts.

Lemma clash_startsWith (P b : jsstring) :
  clash P b = true -> forall Y, JS.startsWith P (b ++ Y) = false.
Proof.
  revert b. induction P as [|x P IH]; intros [|y b]; cbn [clash];
    try discriminate.
  intros H Y. cbn [app JS.startsWith].
  destruct (N.eqb x y); cbn [negb orb andb] in *; [|reflexivity].
  now apply IH.
Qed.

Lemma In_suffixes (s a b : jsstring) :
  s = a ++ b -> b <> [] -> In b (suffixes s).
Proof.
  revert s. induction a as [|x a IH]; intros s -> Hb.
  - destruct b; [contradiction | now left].
  - cbn [app suffixes]. right. now apply IH.
Qed.



(** A replace keeps a prefix in which no match can start. *)
Lemma replace_keeps_prefix (re : RegExp.t) (rp : replacement)
      (Q X : jsstring) :
  (forall a b, Q = a ++ b -> b <> [] ->
               forall prev Y,
                 m (multiline re) (items re) prev (b ++ Y) = None) ->
  exists X', replace re rp (Q ++ X) = Q ++ X'.
Proof.
  intros Hfail. unfold replace. destruct (global re).
  - rewrite rg_prefix; [now eexists|].
    intros a b Hab Hb prev. exact (Hfail a b Hab Hb prev X).
  - unfold replace_first, exec. rewrite search_skip.
    + destruct (search _ _ (rev Q ++ []) X) as [[bef r]|] eqn:E;
        [|now eexists].
      destruct (search_some _ _ _ _ _ _ E) as (pre & suf & -> & -> & _).
      rewrite app_nil_r, rev_app_distr, !rev_involutive, <- app_assoc.
      now eexists.
    + intros a b Hab Hb prev. exact (Hfail a b Hab Hb prev X).
Qed.

Lemma applyPatch_keeps_prefix (n : jsstring) (pat : searchPattern)
      (rp : replacement) (Q X : jsstring) :
  (forall a b, Q = a ++ b -> b <> [] ->
               forall prev Y,
                 m (multiline (pattern_of pat)) (items (pattern_of pat))
                   prev (b ++ Y) = None) ->
  exists X', fst (applyPatch (Q ++ X) n pat rp) = Q ++ X'.
Proof.
  intros Hfail. unfold applyPatch. fold (pattern_of pat).
  destruct (negb (test _ _)); [now eexists|].
  destruct (JS.eqb _ _); [now eexists|]. cbn [fst].
  now apply replace_keeps_prefix.
Qed.

(** The rules of the table cannot match inside the marker line, nor
    from a shebang line that holds none of their leading texts. *)
Lemma rule_keeps_marker (r : rule) (L X : jsstring) :
  marker_safe r = true ->
  (L = [] \/ exists l, L = l ++ [NL]) ->
  JS.includes (rule_head r) L = false ->
  exists X',
    fst (apply_rule r ((L ++ PATCH_MARKER ++ [NL]) ++ X)) =
    (L ++ PATCH_MARKER ++ [NL]) ++ X'.
Proof.
  intros Hsafe HL Hinc. apply andb_true_iff in Hsafe as [Hnl Hclash].
  apply applyPatch_keeps_prefix.
  intros a b Hab Hb prev Y. apply m_head_fail. fold (rule_head r).
  apply app_eq_app in Hab as (l & [[HLa Hbl] | [HaL Hbl]]).
  - (* the suffix starts in the shebang line or at the marker *)
    destruct l as [|x l].
    + cbn [app] in Hbl. subst b. apply clash_startsWith.
      rewrite forallb_forall in Hclash. apply Hclash.
      exact (In_suffixes _ [] _ eq_refl Hb).
    + subst b. rewrite <- app_assoc.
      apply (fun H => clear_prefix NL (rule_head r) L H HL Hinc a (x :: l)
                        _ HLa ltac:(discriminate)).
      intros Hin. apply negb_true_iff in Hnl.
      assert (existsb (N.eqb NL) (rule_head r) = true); [|congruence].
      apply existsb_exists. exists NL. split; [assumption|apply N.eqb_refl].
  - (* the suffix starts inside the marker line *)
    apply clash_startsWith. rewrite forallb_forall in Hclash.
    apply Hclash. exact (In_suffixes _ l b Hbl Hb).
Qed.

Lemma rules_marker_safe : forallb marker_safe RULES = true.
Proof. vm_compute. reflexivity. Qed.

Lemma run_rules_keep_marker (rules : list rule) (L : jsstring) :
  forallb marker_safe rules = true ->
  (L = [] \/ exists l, L = l ++ [NL]) ->
  forallb (fun r => negb (JS.includes (rule_head r) L)) rules = true ->
  forall X, exists X',
    fst (run_rules rules ((L ++ PATCH_MARKER ++ [NL]) ++ X)) =
    (L ++ PATCH_MARKER ++ [NL]) ++ X'.
Proof.
  intros Hsafe HL. induction rules as [|r rs IH]; intros Hclear X.
  - now exists X.
  - cbn [forallb] in Hsafe, Hclear.
    apply andb_true_iff in Hsafe as [Hr Hrs].
    apply andb_true_iff in Hclear as [Hc Hcs].
    apply negb_true_iff in Hc.
    destruct (rule_keeps_marker r L X Hr HL Hc) as (X1 & E1).
    rewrite run_rules_cons. cbn [fst]. rewrite E1. now apply IH.
Qed.


(** With a clear first line the buffer after the rules still starts
    with the shebang line and the marker line. *)
Lemma marker_kept (c : jsstring) :
  first_line_clear c = true ->
  exists X',
    fst (apply_patches (insert_marker c)) =
    shebang_line c ++ PATCH_MARKER ++ [NL] ++ X'.
Proof.
  intros Hclear. rewrite apply_patches_run_rules, insert_marker_cut.
  destruct (shebang_cut c) as [_ HL].
  destruct (run_rules_keep_marker RULES (shebang_line c) rules_marker_safe
              HL Hclear (after_shebang c)) as (X' & E).
  exists X'. rewrite <- !app_assoc in E. exact E.
Qed.

Lemma marker_kept_includes (c : jsstring) :
  first_line_clear c = true ->
  JS.includes PATCH_MARKER (fst (apply_patches (insert_marker c))) = true.
Proof.
  intros H. destruct (marker_kept c H) as (X' & ->).
  apply includes_iff. now exists (shebang_line c), ([NL] ++ X').
Qed.

End PrefixFacts.

(** ** Counting occurrences *)

Module OccFacts.
Import MatchFacts MarkerFacts PrefixFacts.

Section Occ.
Variable K : jsstring.
Hypothesis K_not_empty : K <> [].

Lemma occ_nil : occurrences K [] = 0.
Proof. destruct K; [contradiction | reflexivity]. Qed.

Lemma occ_app_ge (a b : jsstring) :
  occurrences K a + occurrences K b <= occurrences K (a ++ b).
Proof.
  induction a as [|x a IH]; [rewrite occ_nil; apply Nat.le_refl|].
  cbn [app occurrences].
  destruct (JS.startsWith K (x :: a)) eqn:E.
  - change (x :: a ++ b) with ((x :: a) ++ b).
    rewrite (startsWith_app _ _ b E). lia.
  - destruct (JS.startsWith K (x :: a ++ b)); lia.
Qed.

Lemma startsWith_app_cases (k a b : jsstring) :
  JS.startsWith k (a ++ b) = true ->
  JS.startsWith k a = true \/
  exists k2, k = a ++ k2 /\ k2 <> [] /\ JS.startsWith k2 b = true.
Proof.
  revert a. induction k as [|x k IH]; intros a H; [now left|].
  destruct a as [|y a].
  - right. exists (x :: k). repeat split; [discriminate | exact H].
  - cbn [app JS.startsWith] in H |- *.
    apply andb_true_iff in H as [Hxy H]. rewrite Hxy. cbn [andb].
    apply N.eqb_eq in Hxy. subst y.
    destruct (IH a H) as [Ha | (k2 & -> & Hk & Hb)]; [now left|].
    right. now exists k2.
Qed.

(** Occurrences add up over a cut no occurrence can straddle. *)
Lemma occ_cut (a b : jsstring) :
  (forall a1 a2 k2, a = a1 ++ a2 -> a2 <> [] -> k2 <> [] ->
                    K = a2 ++ k2 -> JS.startsWith k2 b = false) ->
  occurrences K (a ++ b) = occurrences K a + occurrences K b.
Proof.
  induction a as [|x a IH]; intros H; [now rewrite occ_nil|].
  cbn [app occurrences]. rewrite IH.
  - destruct (JS.startsWith K (x :: a)) eqn:E.
    + change (x :: a ++ b) with ((x :: a) ++ b).
      rewrite (startsWith_app _ _ b E). lia.
    + destruct (JS.startsWith K (x :: a ++ b)) eqn:E'; [|lia].
      change (x :: a ++ b) with ((x :: a) ++ b) in E'.
      apply startsWith_app_cases in E' as [E' | (k2 & Hk & Hne & Hb)];
        [congruence|].
      rewrite (H [] (x :: a) k2 eq_refl) in Hb; try assumption; discriminate.
  - intros a1 a2 k2 -> Ha2 Hk2 HK. now apply (H (x :: a1) a2 k2).
Qed.

(** A cut after a character that is not in [K]. *)
Lemma occ_cut_after (c : N) (a b : jsstring) :
  ~ In c K ->
  occurrences K ((a ++ [c]) ++ b) =
  occurrences K (a ++ [c]) + occurrences K b.
Proof.
  intros Hc. apply occ_cut. intros a1 a2 k2 Ha Ha2 _ HK. exfalso.
  destruct (exists_last Ha2) as (a2' & y & ->).
  rewrite app_assoc in Ha. apply app_inj_tail in Ha as [_ <-].
  apply Hc. rewrite HK. apply in_or_app. left. apply in_or_app. right.
  now left.
Qed.

(** A cut before a character that is not in [K]. *)
Lemma occ_cut_before (c : N) (a b : jsstring) :
  ~ In c K ->
  occurrences K (a ++ c :: b) = occurrences K a + occurrences K (c :: b).
Proof.
  intros Hc. apply occ_cut. intros a1 a2 k2 _ _ Hk2 HK.
  destruct k2 as [|z k2]; [contradiction|]. cbn [JS.startsWith].
  destruct (N.eqb_spec z c) as [-> | Hzc]; [|reflexivity].
  exfalso. apply Hc. rewrite HK. apply in_or_app. right. now left.
Qed.

Lemma occ_zero (s : jsstring) :
  JS.includes K s = false -> occurrences K s = 0.
Proof.
  induction s as [|x s IH]; cbn [JS.includes occurrences]; intros H;
    apply orb_false_iff in H as [-> H]; [reflexivity|].
  now rewrite IH.
Qed.

Lemma occ_pos (s : jsstring) :
  JS.includes K s = true -> 1 <= occurrences K s.
Proof.
  induction s as [|x s IH]; cbn [JS.includes occurrences]; intros H;
    apply orb_true_iff in H as [-> | H]; try lia; try discriminate.
  specialize (IH H). lia.
Qed.

(** No occurrence of [K] touches an inserted separator. *)
Lemma separator_occ (F : jsstring) :
  separator K F = true ->
  forall x y,
    occurrences K (x ++ F ++ y) = occurrences K x + occurrences K y.
Proof.
  intros H x y. unfold separator in H.
  apply andb_true_iff in H as [H Hinc].
  apply andb_true_iff in H as [Hright Hleft].
  rewrite forallb_forall in Hright, Hleft.
  rewrite occ_cut.
  - rewrite occ_cut.
    + apply negb_true_iff in Hinc. rewrite (occ_zero _ Hinc). lia.
    + intros a1 a2 k2 HF Ha2 Hk2 HK. exfalso.
      specialize (Hleft a2 (In_suffixes _ a1 a2 HF Ha2)).
      apply negb_true_iff in Hleft.
      assert (Hp : proper_prefix a2 K = true); [|congruence].
      unfold proper_prefix. apply andb_true_iff. split.
      * apply startsWith_iff. now exists k2.
      * apply Nat.ltb_lt. rewrite HK, length_app.
        destruct k2; [contradiction | cbn [length]; lia].
  - intros a1 a2 k2 _ Ha2 Hk2 HK.
    apply clash_startsWith, Hright.
    destruct a2 as [|z a2]; [contradiction|].
    rewrite HK. cbn [app tl]. exact (In_suffixes _ a2 k2 eq_refl Hk2).
Qed.

End Occ.

End OccFacts.

(** ** Captures *)

Module CapsFacts.
Import MatchDefs MatchFacts.

Lemma embeds_prepend (a : jsstring) (caps : list jsstring) (t : jsstring) :
  embeds caps t -> embeds caps (a ++ t).
Proof.
  intros H. destruct H as [t | a0 c caps t H]; [constructor|].
  rewrite app_assoc. now constructor.
Qed.

Lemma caps_consume (n : nat) (x : N) (o : option mres) (r : mres) :
  (forall r', o = Some r' -> caps_ok n r') ->
  consume x o = Some r -> caps_ok n r.
Proof.
  intros Ho H. apply consume_some in H as (r' & E & Ht & Hc & Hcaps & _).
  destruct (Ho r' E) as [(tl & Htl & Hemb) Hlen].
  split; [|congruence]. exists tl. rewrite Ht, Hc, Htl, Hcaps. auto.
Qed.

Lemma one_keeps (n : nat) (a : atom) {k} :
  keeps n k -> keeps n (fun _ => one a k).
Proof.
  intros Hk prev s r. unfold one. destruct s as [|x s]; [discriminate|].
  destruct (atom_matches a x); [|discriminate].
  apply caps_consume. intros r'. apply Hk.
Qed.

Lemma star_greedy_keeps (n : nat) (a : atom) {k} :
  keeps n k -> keeps n (star_greedy a k).
Proof.
  intros Hk prev s. revert prev.
  induction s as [|x s IH]; intros prev r; cbn [star_greedy].
  - apply Hk.
  - destruct (atom_matches a x); [|apply Hk].
    intros H. apply orelse_some in H as [H | [_ H]]; [|now apply Hk in H].
    revert H. apply caps_consume. intros r'. apply IH.
Qed.

Lemma star_lazy_keeps (n : nat) (a : atom) {k} :
  keeps n k -> keeps n (star_lazy a k).
Proof.
  intros Hk prev s. revert prev.
  induction s as [|x s IH]; intros prev r; cbn [star_lazy].
  - destruct (k prev []) eqn:E; [|discriminate].
    intros H. injection H as <-. now apply Hk in E.
  - destruct (k prev (x :: s)) eqn:E.
    + intros H. injection H as <-. now apply Hk in E.
    + destruct (atom_matches a x); [|discriminate].
      apply caps_consume. intros r'. apply IH.
Qed.

Lemma caps_open (n : nat) (o : option mres) (r : mres) :
  (forall r', o = Some r' -> caps_ok n r') ->
  open_group o = Some r -> caps_ok (S n) r.
Proof.
  intros Ho H. destruct o as [r'|]; [|discriminate].
  injection H as <-. destruct (Ho r' eq_refl) as [(tl & Htl & Hemb) Hlen].
  split; cbn [mtext mcur mcaps length]; [|congruence].
  exists (mtext r'). split; [reflexivity|].
  rewrite Htl. apply (embeds_cons [] (mcur r') (mcaps r') tl Hemb).
Qed.

Lemma caps_close (n : nat) (o : option mres) (r : mres) :
  (forall r', o = Some r' -> caps_ok n r') ->
  close_group o = Some r -> caps_ok n r.
Proof.
  intros Ho H. destruct o as [r'|]; [|discriminate].
  injection H as <-. destruct (Ho r' eq_refl) as [(tl & Htl & Hemb) Hlen].
  split; cbn [mtext mcur mcaps length]; [|congruence].
  exists (mtext r'). split; [reflexivity|].
  rewrite Htl. now apply embeds_prepend.
Qed.

(** The results of the matcher are in order. *)
Lemma m_caps (ml : bool) (its : list item) :
  keeps (count_open its) (m ml its).
Proof.
  induction its as [|it its IH]; intros prev s r; cbn [m count_open].
  - intros H. injection H as <-. split; [|reflexivity].
    exists []. split; [reflexivity | constructor].
  - destruct it as [a [] | | | |].
    + apply (one_keeps _ a IH prev).
    + apply (star_greedy_keeps _ a IH).
    + apply (one_keeps _ a (star_greedy_keeps _ a IH) prev).
    + intros H. apply orelse_some in H as [H | [_ H]].
      * now apply (one_keeps _ a IH prev) in H.
      * now apply IH in H.
    + apply (star_lazy_keeps _ a IH).
    + destruct (at_bol ml prev); [apply IH | discriminate].
    + destruct (at_eol ml s); [apply IH | discriminate].
    + apply caps_open. intros r'. apply IH.
    + apply caps_close. intros r'. apply IH.
Qed.

(** With one group, its capture is a part of the matched text. *)
Lemma m_caps_one (ml : bool) (its : list item) prev s r :
  count_open its = 1 ->
  m ml its prev s = Some r ->
  exists m1 w m2, mcaps r = [w] /\ mtext r = m1 ++ w ++ m2.
Proof.
  intros Hn H. apply m_caps in H as [(tl & Htl & Hemb) Hlen].
  rewrite Hn in Hlen.
  destruct (mcaps r) as [|w [|? ?]] eqn:E; try discriminate.
  inversion Hemb as [|a c caps t Hemb' E1 E2]; subst.
  exists (mcur r ++ a), w, t. split; [reflexivity|].
  rewrite Htl, <- app_assoc. reflexivity.
Qed.

(** With one group at the start, its capture starts the matched text. *)
Lemma m_caps_lead (ml : bool) (its : list item) prev s r :
  count_open its = 0 ->
  m ml (IBol :: IOpen :: its) prev s = Some r ->
  exists G tl, mcaps r = [G] /\ mtext r = G ++ tl.
Proof.
  intros Hn. cbn [m]. destruct (at_bol ml prev); [|discriminate].
  destruct (m ml its prev s) as [r'|] eqn:E; [|discriminate].
  cbn [open_group]. intros H. injection H as <-.
  apply m_caps in E as [(tl & Htl & Hemb) Hlen]. rewrite Hn in Hlen.
  destruct (mcaps r'); [|discriminate].
  exists (mcur r'), tl. cbn [mcaps mtext]. auto.
Qed.

End CapsFacts.

(** ** Replacements that add no marker *)

Module ShrinkFacts.
Import MatchDefs MatchFacts ReplaceFacts CapsFacts OccFacts.

Section Shrink.
Variable K : jsstring.
Hypothesis K_not_empty : K <> [].

(** A replacement without [$] that is a separator. *)
Lemma shrinks_plain (re : RegExp.t) (to : jsstring) :
  forallb (fun c => negb (N.eqb c 36)) to = true ->
  separator K to = true ->
  shrinks K re to.
Proof.
  intros Hplain Hsep whole bef prev s r pre _.
  unfold replacement_text. rewrite (getSubstitution_plain _ _ _ _ _ Hplain).
  rewrite (separator_occ K K_not_empty to Hsep).
  pose proof (occ_app_ge K K_not_empty pre (mtext r ++ mrest r)).
  pose proof (occ_app_ge K K_not_empty (mtext r) (mrest r)). lia.
Qed.

(** A replacement that puts the one capture between two separators. *)
Lemma shrinks_mid (re : RegExp.t) (to F1 F2 : jsstring) :
  (forall mt bef aft w, getSubstitution mt bef aft [w] to = F1 ++ w ++ F2) ->
  separator K F1 = true ->
  separator K F2 = true ->
  count_open (items re) = 1 ->
  shrinks K re to.
Proof.
  intros Hto H1 H2 Hn whole bef prev s r pre Hm.
  destruct (m_caps_one _ _ _ _ _ Hn Hm) as (m1 & w & m2 & Hcaps & Ht).
  unfold replacement_text. rewrite Hcaps, Hto, Ht.
  rewrite <- !app_assoc.
  rewrite (separator_occ K K_not_empty F1 H1).
  rewrite (separator_occ K K_not_empty F2 H2).
  pose proof (occ_app_ge K K_not_empty pre (m1 ++ w ++ m2 ++ mrest r)).
  pose proof (occ_app_ge K K_not_empty m1 (w ++ m2 ++ mrest r)).
  pose proof (occ_app_ge K K_not_empty w (m2 ++ mrest r)).
  pose proof (occ_app_ge K K_not_empty m2 (mrest r)). lia.
Qed.

(** A replacement that keeps the leading capture and puts a separator
    after it. *)
Lemma shrinks_lead (re : RegExp.t) (its : list item) (to F : jsstring) :
  (forall mt bef aft G, getSubstitution mt bef aft [G] to = G ++ F) ->
  separator K F = true ->
  items re = IBol :: IOpen :: its ->
  count_open its = 0 ->
  shrinks K re to.
Proof.
  intros Hto HF Hits Hn whole bef prev s r pre Hm. rewrite Hits in Hm.
  destruct (m_caps_lead _ _ _ _ _ Hn Hm) as (G & tl & Hcaps & Ht).
  unfold replacement_text. rewrite Hcaps, Hto, Ht.
  rewrite <- !app_assoc.
  rewrite (app_assoc pre G), (separator_occ K K_not_empty F HF).
  rewrite (app_assoc pre G (tl ++ mrest r)).
  pose proof (occ_app_ge K K_not_empty (pre ++ G) (tl ++ mrest r)).
  pose proof (occ_app_ge K K_not_empty tl (mrest r)). lia.
Qed.

Section Loop.
Variable re : RegExp.t.
Variable to : jsstring.
Variable whole : jsstring.
Hypothesis Hshrinks : shrinks K re to.

Lemma rg_occ (n : nat) :
  forall s bef pre,
    length s <= n ->
    occurrences K (pre ++ replace_global re (ReplString to) whole 0 bef s) <=
    occurrences K (pre ++ s).
Proof.
  induction n as [|n IH]; intros s bef pre Hlen.
  - destruct s; [|cbn in Hlen; lia]. cbn [replace_global].
    destruct (m _ _ _ []) as [r|] eqn:E; [|apply Nat.le_refl].
    pose proof (m_sound _ _ _ _ _ E) as Hs. symmetry in Hs.
    apply app_eq_nil in Hs as [Ht Hr].
    pose proof (Hshrinks whole bef _ _ r pre E) as H.
    rewrite Ht, Hr in H. rewrite !app_nil_r in *. exact H.
  - destruct (m (multiline re) (items re) (hd_error bef) s) as [r|] eqn:E.
    + pose proof (m_sound _ _ _ _ _ E) as Hs.
      pose proof (Hshrinks whole bef _ _ r pre E) as H.
      destruct (mtext r) as [|x mt] eqn:Et.
      * cbn [app] in Hs, H. rewrite <- Hs in H.
        destruct s as [|y s].
        -- cbn [replace_global]. rewrite E. exact H.
        -- rewrite (rg_empty_match _ _ _ _ _ _ _ E Et).
           eapply Nat.le_trans; [|exact H].
           specialize (IH s (y :: bef)
                          (pre ++ replacement_text (ReplString to) whole bef r
                               ++ [y])).
           rewrite <- !app_assoc in IH. cbn [app] in IH.
           apply IH. cbn in Hlen. lia.
      * assert (Hne : mtext r <> []) by (rewrite Et; discriminate).
        rewrite (rg_match _ _ _ _ _ _ E Hne).
        rewrite <- Hs in H.
        eapply Nat.le_trans; [|exact H].
        specialize (IH (mrest r) (rev (mtext r) ++ bef)
                       (pre ++ replacement_text (ReplString to) whole bef r)).
        rewrite <- !app_assoc in IH. apply IH.
        rewrite Hs, length_app in Hlen. cbn in Hlen. lia.
    + destruct s as [|y s].
      * cbn [replace_global]. rewrite E. apply Nat.le_refl.
      * rewrite (rg_none _ _ _ _ _ _ E).
        specialize (IH s (y :: bef) (pre ++ [y])).
        rewrite <- !app_assoc in IH. cbn [app] in IH.
        apply IH. cbn in Hlen. lia.
Qed.

End Loop.

Lemma replace_occ (re : RegExp.t) (to s : jsstring) :
  shrinks K re to ->
  occurrences K (replace re (ReplString to) s) <= occurrences K s.
Proof.
  intros Hs. unfold replace. destruct (global re).
  - apply (rg_occ re to s Hs (length s) s [] []). apply Nat.le_refl.
  - unfold replace_first, exec.
    destruct (search _ _ [] s) as [[bef r]|] eqn:E; [|apply Nat.le_refl].
    destruct (search_some _ _ _ _ _ _ E) as (pre & suf & Hsuf & -> & Hm & _).
    pose proof (m_sound _ _ _ _ _ Hm) as Ht.
    rewrite app_nil_r, rev_involutive in *.
    rewrite Hsuf, Ht. exact (Hs s (rev pre) _ _ r pre Hm).
Qed.

Lemma apply_rule_occ (r : rule) (s : jsstring) :
  rule_shrinks K r ->
  occurrences K (fst (apply_rule r s)) <= occurrences K s.
Proof.
  intros Hs. unfold apply_rule, applyPatch. fold (pattern_of (rule_pattern r)).
  destruct (negb (test _ _)); [apply Nat.le_refl|].
  destruct (JS.eqb _ _); [apply Nat.le_refl|].
  cbn [fst]. now apply replace_occ.
Qed.

Lemma run_rules_occ (rules : list rule) :
  Forall (rule_shrinks K) rules ->
  forall s, occurrences K (fst (run_rules rules s)) <= occurrences K s.
Proof.
  induction 1 as [|r rs Hr Hrs IH]; intros s; [apply Nat.le_refl|].
  rewrite run_rules_cons. cbn [fst].
  eapply Nat.le_trans; [apply IH | now apply apply_rule_occ].
Qed.

End Shrink.

End ShrinkFacts.

(** ** The commit gate *)

Lemma in_report_results (results : list PatchResult) (n : jsstring) (b : bool) :
  In (n, b) (map (fun r => (name r, success r)) results) ->
  exists r, In r results /\ name r = n /\ success r = b.
Proof.
  intros H. apply in_map_iff in H as (r & E & Hin).
  injection E as En Es. now exists r.
Qed.

Lemma printed_error_preamble (v p : jsstring) : printed Error (preamble v p) = [].
Proof. unfold preamble. now destruct (_ && _). Qed.

Lemma no_verdict_preamble (msg : message) (v p : jsstring) :
  msg = MsgPatched \/ msg = MsgSomeFailed ->
  ~ In msg (printed Log (preamble v p)).
Proof.
  intros Hmsg. unfold preamble.
  destruct (_ && _); cbn [printed In]; intros [H | []]; subst msg;
    destruct Hmsg; discriminate.
Qed.

Lemma no_verdict_older (msg : message) (c : jsstring) :
  msg = MsgPatched \/ msg = MsgSomeFailed ->
  ~ In msg (printed Log (older_note c)).
Proof.
  intros Hmsg. unfold older_note.
  destruct (exec _ _) as [[? ?]|]; cbn [printed In]; [|tauto].
  intros [H | []]; subst msg; destruct Hmsg; discriminate.
Qed.

Lemma no_verdict_lines (msg : message) (results : list PatchResult) :
  msg = MsgPatched \/ msg = MsgSomeFailed ->
  ~ In msg (printed Log (map result_line results)).
Proof.
  intros Hmsg. induction results as [|r rs IH]; [intros []|].
  cbn [map]. unfold result_line at 1.
  destruct (success r); cbn [printed In]; intros [H | H];
    try (now apply IH); subst msg; destruct Hmsg; discriminate.
Qed.

Lemma no_verdict_trace (msg : message) (v p c : jsstring)
      (results : list PatchResult) (rest : list event) :
  msg = MsgPatched \/ msg = MsgSomeFailed ->
  ~ In msg (printed Log rest) ->
  ~ In msg (printed Log
              (preamble v p ++ older_note c ++ [Console Log MsgPatchResults] ++
               map result_line results ++ rest)).
Proof.
  intros Hmsg Hrest. rewrite !printed_app, !in_app_iff.
  intros [H | [H | [H | [H | H]]]].
  - revert H. now apply no_verdict_preamble.
  - revert H. now apply no_verdict_older.
  - destruct H as [H | []]. subst msg. destruct Hmsg; discriminate.
  - revert H. now apply no_verdict_lines.
  - now apply Hrest.
Qed.

Section Gate.
Variable h : host.
Variable t : list WalkEntry.
Variable d : jsstring -> option jsstring.
Variables p v c : jsstring.
Hypothesis Hloc : located (mkWorld h t d []) = Some (p, v).
Hypothesis Hread : d p = Some c.
Hypothesis Hm : JS.includes PATCH_MARKER c = false.

Let buffer := fst (apply_patches (insert_marker c)).
Let results := snd (apply_patches (insert_marker c)).

(** With the artifact found and unmarked, the run is decided by the
    critical failures alone. *)
Lemma gate_abort :
  criticalFailures results <> [] ->
  fst (run h t d) = Exit 1 /\
  writes (trace (snd (run h t d))) = [] /\
  disk (snd (run h t d)) = d /\
  report (trace (snd (run h t d))) =
  map (fun r => (name r, success r)) results.
Proof.
  intros Hc. unfold run.
  rewrite (run_aborted _ p v c Hloc Hread Hm Hc).
  cbn [fst snd trace disk]. read_trace. auto.
Qed.

Lemma gate_commit :
  criticalFailures results = [] ->
  on_write h p buffer = Done ->
  fst (run h t d) = Normal tt /\
  writes (trace (snd (run h t d))) = [(p, buffer)] /\
  disk (snd (run h t d)) = write h p buffer d /\
  report (trace (snd (run h t d))) =
  map (fun r => (name r, success r)) results /\
  printed Error (trace (snd (run h t d))) = [] /\
  (In MsgPatched (printed Log (trace (snd (run h t d)))) \/
   In MsgSomeFailed (printed Log (trace (snd (run h t d))))).
Proof.
  intros Hc Hw. unfold run.
  rewrite (run_committed _ p v c Hloc Hread Hm Hc Hw).
  fold results buffer. cbn [fst snd trace disk].
  destruct (existsb failed results); read_trace;
    rewrite printed_error_preamble, printed_older, printed_lines
      by discriminate;
    (repeat split; try reflexivity); [right | left];
    apply in_or_app; right; apply in_or_app; right; right;
    apply in_or_app; right; now left.
Qed.

(** A rejected write ends the run there: the call was made, nothing
    catches the rejection and no verdict line follows. *)
Lemma gate_rejected (remains : option jsstring) :
  criticalFailures results = [] ->
  on_write h p buffer = Rejected remains ->
  fst (run h t d) = Uncaught /\
  writes (trace (snd (run h t d))) = [(p, buffer)] /\
  disk (snd (run h t d)) = cut_short h p remains d /\
  report (trace (snd (run h t d))) =
  map (fun r => (name r, success r)) results /\
  printed Error (trace (snd (run h t d))) = [] /\
  ~ In MsgPatched (printed Log (trace (snd (run h t d)))) /\
  ~ In MsgSomeFailed (printed Log (trace (snd (run h t d)))).
Proof.
  intros Hc Hw. unfold run.
  rewrite (run_rejected _ p v c Hloc Hread remains Hm Hc Hw).
  fold results buffer. cbn [fst snd trace disk].
  split; [reflexivity|]. split; [read_trace; reflexivity|].
  split; [reflexivity|]. split; [read_trace; reflexivity|].
  split.
  { read_trace.
    now rewrite printed_error_preamble, printed_older, printed_lines
      by discriminate. }
  split; apply no_verdict_trace; auto; cbn [printed In]; tauto.
Qed.
End Gate.

(** On an unmarked artifact every rule is reported; the critical
    failures decide whether the run reaches the write, and the host
    decides how the write ends. *)
Lemma gate_outcome (h : host) (t : list WalkEntry)
      (d : jsstring -> option jsstring) (p v c : jsstring) :
  located (mkWorld h t d []) = Some (p, v) ->
  d p = Some c ->
  JS.includes PATCH_MARKER c = false ->
  report (trace (snd (run h t d))) =
    map (fun r => (name r, success r))
        (snd (apply_patches (insert_marker c))) /\
  (fst (run h t d) = Exit 1 <->
   criticalFailures (snd (apply_patches (insert_marker c))) <> []) /\
  (fst (run h t d) = Normal tt <->
   criticalFailures (snd (apply_patches (insert_marker c))) = [] /\
   on_write h p (fst (apply_patches (insert_marker c))) = Done).
Proof.
  intros Hloc Hread Hm.
  destruct (criticalFailures (snd (apply_patches (insert_marker c))))
    as [|f fs] eqn:Hc.
  - destruct (on_write h p (fst (apply_patches (insert_marker c))))
      as [|remains] eqn:Hw.
    + destruct (gate_commit h t d p v c Hloc Hread Hm Hc Hw)
        as (He & _ & _ & Hr & _).
      rewrite He. repeat split; try congruence; easy.
    + destruct (gate_rejected h t d p v c Hloc Hread Hm remains Hc Hw)
        as (He & _ & _ & Hr & _).
      rewrite He. repeat split; try congruence; easy.
  - assert (Hc' : criticalFailures
                    (snd (apply_patches (insert_marker c))) <> [])
      by (rewrite Hc; discriminate).
    destruct (gate_abort h t d p v c Hloc Hread Hm Hc')
      as (He & _ & _ & Hr).
    rewrite He. repeat split; try congruence; easy.
Qed.

(** A run that returns normally on an unmarked artifact had no critical
    failure and its write was carried out. *)
Lemma normal_commits (h : host) (t : list WalkEntry)
      (d : jsstring -> option jsstring) (p v c : jsstring) :
  located (mkWorld h t d []) = Some (p, v) ->
  d p = Some c ->
  JS.includes PATCH_MARKER c = false ->
  fst (run h t d) = Normal tt ->
  criticalFailures (snd (apply_patches (insert_marker c))) = [] /\
  on_write h p (fst (apply_patches (insert_marker c))) = Done.
Proof.
  intros Hloc Hread Hm Hn.
  exact (proj1 (proj2 (proj2 (gate_outcome h t d p v c Hloc Hread Hm))) Hn).
Qed.

(** C1, as amended — commit-gate atomicity.  When the report of a run
    shows a rule of the critical set as not applied, the run ends by
    [Deno.exit(1)], calls for no write and leaves the disk as it was.
    When the report shows every critical rule as applied, the run calls
    [Deno.writeTextFile] once, with the artifact's path and the whole
    buffer, whatever the optional rules did.  If the host carries the
    write out, the files that path names hold the buffer and the run
    returns normally after a success line; if the host rejects it,
    nothing catches the rejection and no success line is printed. *)
Theorem commit_gate_atomic (h : host) (t : list WalkEntry)
        (d : jsstring -> option jsstring) :
  ((exists n, In n criticalPatches /\
              In (n, false) (report (trace (snd (run h t d))))) ->
   fst (run h t d) = Exit 1 /\
   writes (trace (snd (run h t d))) = [] /\
   disk (snd (run h t d)) = d) /\
  ((forall n, In n criticalPatches ->
              In (n, true) (report (trace (snd (run h t d))))) ->
   exists p v c,
     located (mkWorld h t d []) = Some (p, v) /\ d p = Some c /\
     writes (trace (snd (run h t d))) =
       [(p, fst (apply_patches (insert_marker c)))] /\
     (on_write h p (fst (apply_patches (insert_marker c))) = Done ->
      fst (run h t d) = Normal tt /\
      disk (snd (run h t d)) =
        write h p (fst (apply_patches (insert_marker c))) d /\
      printed Error (trace (snd (run h t d))) = [] /\
      (In MsgPatched (printed Log (trace (snd (run h t d)))) \/
       In MsgSomeFailed (printed Log (trace (snd (run h t d)))))) /\
     (forall remains,
        on_write h p (fst (apply_patches (insert_marker c))) =
          Rejected remains ->
        fst (run h t d) = Uncaught /\
        disk (snd (run h t d)) = cut_short h p remains d /\
        ~ In MsgPatched (printed Log (trace (snd (run h t d)))) /\
        ~ In MsgSomeFailed (printed Log (trace (snd (run h t d)))))).
Proof.
  assert (Hcrit : In n_safeRegister criticalPatches) by now left.
  assert (Hsame : forall c,
            criticalFailures (snd (apply_patches (insert_marker c))) = [] ->
            report (trace (snd (run h t d))) =
              map (fun r => (name r, success r))
                  (snd (apply_patches (insert_marker c))) ->
            (exists n, In n criticalPatches /\
                In (n, false) (report (trace (snd (run h t d))))) ->
            fst (run h t d) = Exit 1 /\
            writes (trace (snd (run h t d))) = [] /\
            disk (snd (run h t d)) = d).
  { intros c Hc Hr (n & Hn & Hin). exfalso. rewrite Hr in Hin.
    apply in_report_results in Hin as (r & Hin & En & Hs).
    rewrite criticalFailures_nil in Hc.
    apply (Hc r Hin Hs). rewrite En. exact Hn. }
  assert (Hgo : forall p v c,
            located (mkWorld h t d []) = Some (p, v) -> d p = Some c ->
            JS.includes PATCH_MARKER c = false ->
            criticalFailures (snd (apply_patches (insert_marker c))) = [] ->
            (on_write h p (fst (apply_patches (insert_marker c))) = Done ->
             fst (run h t d) = Normal tt /\
             disk (snd (run h t d)) =
               write h p (fst (apply_patches (insert_marker c))) d /\
             printed Error (trace (snd (run h t d))) = [] /\
             (In MsgPatched (printed Log (trace (snd (run h t d)))) \/
              In MsgSomeFailed (printed Log (trace (snd (run h t d)))))) /\
            (forall remains,
               on_write h p (fst (apply_patches (insert_marker c))) =
                 Rejected remains ->
               fst (run h t d) = Uncaught /\
               disk (snd (run h t d)) = cut_short h p remains d /\
               ~ In MsgPatched (printed Log (trace (snd (run h t d)))) /\
               ~ In MsgSomeFailed (printed Log (trace (snd (run h t d)))))).
  { intros p v c Hloc Hread Hm Hc. split.
    - intros Hw.
      destruct (gate_commit h t d p v c Hloc Hread Hm Hc Hw)
        as (He & _ & Hd & _ & Herr & Hlog). auto.
    - intros remains Hw.
      destruct (gate_rejected h t d p v c Hloc Hread Hm remains Hc Hw)
        as (He & _ & Hd & _ & _ & H1 & H2). auto. }
  destruct (run_shape h t d) as [Hloc Hwalk E | p v Hloc Hread E
    | p v c Hloc Hread Hm E | p v c Hloc Hread Hm Hc E
    | p v c Hloc Hread Hm Hc Hw E | Hloc Hwalk E
    | p v c remains Hloc Hread Hm Hc Hw E].
  - rewrite E. cbn [fst snd trace disk report]. split.
    + intros (n & _ & []).
    + intros H. destruct (H _ Hcrit).
  - rewrite E. cbn [fst snd trace disk]. rewrite report_preamble. split.
    + intros (n & _ & []).
    + intros H. destruct (H _ Hcrit).
  - rewrite E. cbn [fst snd trace disk]. read_trace. split.
    + intros (n & _ & []).
    + intros H. destruct (H _ Hcrit).
  - destruct (gate_abort h t d p v c Hloc Hread Hm Hc) as (He & Hw & Hd & Hr).
    split; [auto|].
    intros H. exfalso.
    apply criticalFailures_cons in Hc as (r & Hin & Hs & Hn).
    specialize (H _ Hn). rewrite Hr in H.
    apply in_report_results in H as (r' & Hin' & En & Hs').
    rewrite (result_by_name _ _ _ Hin' Hin En) in Hs'. congruence.
  - destruct (gate_commit h t d p v c Hloc Hread Hm Hc Hw)
      as (_ & Hwr & _ & Hr & _).
    split; [exact (Hsame c Hc Hr)|]. intros _. exists p, v, c.
    split; [exact Hloc|]. split; [exact Hread|]. split; [exact Hwr|].
    exact (Hgo p v c Hloc Hread Hm Hc).
  - rewrite E. cbn [fst snd trace disk report]. split.
    + intros (n & _ & []).
    + intros H. destruct (H _ Hcrit).
  - destruct (gate_rejected h t d p v c Hloc Hread Hm remains Hc Hw)
      as (_ & Hwr & _ & Hr & _).
    split; [exact (Hsame c Hc Hr)|]. intros _. exists p, v, c.
    split; [exact Hloc|]. split; [exact Hread|]. split; [exact Hwr|].
    exact (Hgo p v c Hloc Hread Hm Hc).
Qed.

Lemma commit_gate_atomic_witness :
  (fst (run Sample.plain (Sample.tree_of Sample.bin)
            (Sample.disk_of Sample.bin Sample.bundle_no_schema)) = Exit 1 /\
   writes (trace (snd (run Sample.plain (Sample.tree_of Sample.bin)
            (Sample.disk_of Sample.bin Sample.bundle_no_schema)))) = [] /\
   disk (snd (run Sample.plain (Sample.tree_of Sample.bin)
            (Sample.disk_of Sample.bin Sample.bundle_no_schema))) =
   Sample.disk_of Sample.bin Sample.bundle_no_schema) /\
  exists p c,
    writes (trace (snd (run Sample.plain (Sample.tree_of Sample.bin)
             (Sample.disk_of Sample.bin Sample.bundle)))) = [(p, c)].
Proof.
  split.
  - apply (commit_gate_atomic Sample.plain (Sample.tree_of Sample.bin)
             (Sample.disk_of Sample.bin Sample.bundle_no_schema)).
    exists n_schema_loading. split.
    + right. right. left. reflexivity.
    + vm_compute. do 13 right. left. reflexivity.
  - destruct (proj2 (commit_gate_atomic Sample.plain
                (Sample.tree_of Sample.bin)
                (Sample.disk_of Sample.bin Sample.bundle)))
      as (p & v & c & _ & _ & H & _).
    + intros n [<- | [<- | [<- | []]]]; vm_compute; tauto.
    + exists p, (fst (apply_patches (insert_marker c))). exact H.
Defined.

(** Every critical rule is reported as applied, and yet the run does
    not report success: the host rejects the write, the run ends with
    the rejection uncaught, and the artifact reads as before. *)
Lemma commit_gate_write_rejected :
  (forall n, In n criticalPatches ->
     In (n, true)
        (report (trace (snd (run Sample.read_only (Sample.tree_of Sample.bin)
                   (Sample.disk_of Sample.bin Sample.bundle)))))) /\
  fst (run Sample.read_only (Sample.tree_of Sample.bin)
           (Sample.disk_of Sample.bin Sample.bundle)) = Uncaught /\
  disk (snd (run Sample.read_only (Sample.tree_of Sample.bin)
           (Sample.disk_of Sample.bin Sample.bundle))) Sample.bin =
    Some Sample.bundle /\
  ~ In MsgPatched
      (printed Log (trace (snd (run Sample.read_only
         (Sample.tree_of Sample.bin)
         (Sample.disk_of Sample.bin Sample.bundle))))) /\
  ~ In MsgSomeFailed
      (printed Log (trace (snd (run Sample.read_only
         (Sample.tree_of Sample.bin)
         (Sample.disk_of Sample.bin Sample.bundle))))).
Proof.
  split.
  { intros n [<- | [<- | [<- | []]]]; vm_compute; tauto. }
  split; [vm_compute; reflexivity|].
  split; [vm_compute; reflexivity|].
  split; vm_compute; intuition discriminate.
Qed.

(** C2 — marker check.  On an artifact whose text contains the current
    marker the run prints the already-patched line, reports no rule,
    writes nothing, leaves the disk as it was and returns normally. *)
Theorem marker_check_noop (h : host) (t : list WalkEntry)
        (d : jsstring -> option jsstring) (p v c : jsstring) :
  located (mkWorld h t d []) = Some (p, v) ->
  d p = Some c ->
  JS.includes PATCH_MARKER c = true ->
  fst (run h t d) = Normal tt /\
  In MsgAlreadyPatched (printed Log (trace (snd (run h t d)))) /\
  report (trace (snd (run h t d))) = [] /\
  writes (trace (snd (run h t d))) = [] /\
  disk (snd (run h t d)) = d /\
  printed Error (trace (snd (run h t d))) = [].
Proof.
  intros Hloc Hread Hm. unfold run.
  rewrite (run_already_patched _ p v c Hloc Hread Hm).
  cbn [fst snd trace disk]. read_trace.
  rewrite printed_error_preamble. repeat split.
  apply in_or_app. right. now left.
Qed.

Lemma marker_check_noop_witness :
  fst (run Sample.plain (Sample.tree_of Sample.bin)
           (Sample.disk_of Sample.bin Sample.bundle_patched)) = Normal tt /\
  report (trace (snd (run Sample.plain (Sample.tree_of Sample.bin)
           (Sample.disk_of Sample.bin Sample.bundle_patched)))) = [] /\
  writes (trace (snd (run Sample.plain (Sample.tree_of Sample.bin)
           (Sample.disk_of Sample.bin Sample.bundle_patched)))) = [].
Proof.
  destruct (marker_check_noop Sample.plain (Sample.tree_of Sample.bin)
              (Sample.disk_of Sample.bin Sample.bundle_patched)
              Sample.bin (str "0.31.8") Sample.bundle_patched)
    as (H1 & _ & H2 & H3 & _); try (vm_compute; reflexivity).
  auto.
Defined.

(** C6 — the pipeline is not fail-fast.  On an unmarked artifact the
    fifteen blocks of the script are the fold of [RULES]: the results
    carry the rule names in declared order, one each; the rule at
    position [i] is applied to the buffer the first [i] rules produced;
    the report prints every result; and the run ends by [Deno.exit(1)]
    exactly when the commit gate, after the last rule, finds a critical
    failure.  Without one the run goes on to the write, and returns
    normally exactly when the host carries the write out. *)
Theorem pipeline_not_fail_fast (h : host) (t : list WalkEntry)
        (d : jsstring -> option jsstring) (p v c : jsstring) :
  located (mkWorld h t d []) = Some (p, v) ->
  d p = Some c ->
  JS.includes PATCH_MARKER c = false ->
  let results := snd (apply_patches (insert_marker c)) in
  apply_patches (insert_marker c) = run_rules RULES (insert_marker c) /\
  map name results = map rule_name RULES /\
  NoDup (map name results) /\
  length results = 15 /\
  (forall i r, nth_error RULES i = Some r ->
     nth_error results i =
     Some (snd (apply_rule r (buffer_at RULES i (insert_marker c))))) /\
  report (trace (snd (run h t d))) =
    map (fun r => (name r, success r)) results /\
  (fst (run h t d) = Exit 1 <-> criticalFailures results <> []) /\
  (fst (run h t d) = Normal tt <->
   criticalFailures results = [] /\
   on_write h p (fst (apply_patches (insert_marker c))) = Done).
Proof.
  intros Hloc Hread Hm results.
  pose proof (results_names (insert_marker c)) as Hn. fold results in Hn.
  split; [apply apply_patches_run_rules|].
  split; [exact Hn|].
  split; [rewrite Hn; apply rule_names_NoDup|].
  split.
  { rewrite <- (length_map name), Hn. reflexivity. }
  split.
  { intros i r Hi. subst results. rewrite apply_patches_run_rules.
    now apply run_rules_chain. }
  exact (gate_outcome h t d p v c Hloc Hread Hm).
Qed.

Lemma pipeline_not_fail_fast_witness :
  length (snd (apply_patches (insert_marker Sample.bundle_no_schema))) = 15 /\
  fst (run Sample.plain (Sample.tree_of Sample.bin)
           (Sample.disk_of Sample.bin Sample.bundle_no_schema)) = Exit 1.
Proof.
  destruct (pipeline_not_fail_fast Sample.plain (Sample.tree_of Sample.bin)
              (Sample.disk_of Sample.bin Sample.bundle_no_schema)
              Sample.bin (str "0.31.8") Sample.bundle_no_schema)
    as (_ & _ & _ & Hl & _ & _ & He & _); try (vm_compute; reflexivity).
  split; [exact Hl|]. apply He. vm_compute. discriminate.
Defined.




(** ** [applyPatch] *)

Import MatchDefs MatchFacts.

(** C3, as amended — the three outcomes of [applyPatch].  Without a
    match of the pattern in the buffer the result is "Pattern not
    found" and the buffer is returned as it is; with a match and a
    replace that yields the same text the result is "Replacement had no
    effect", a different error, and the buffer is returned as it is;
    otherwise the result is a success and the replaced text is
    returned.  The replace rewrites every match when the pattern has
    the [g] flag, as a string pattern always has, and the leftmost
    match only when it has not. *)
Theorem applyPatch_trichotomy (content n : jsstring) (pat : searchPattern)
        (rp : replacement) :
  (~ has_match (pattern_of pat) content ->
   applyPatch content n pat rp =
   (content, mkResult n false (Some (str "Pattern not found")))) /\
  (has_match (pattern_of pat) content ->
   replace (pattern_of pat) rp content = content ->
   applyPatch content n pat rp =
   (content, mkResult n false (Some (str "Replacement had no effect")))) /\
  (has_match (pattern_of pat) content ->
   replace (pattern_of pat) rp content <> content ->
   applyPatch content n pat rp =
   (replace (pattern_of pat) rp content, mkResult n true None)) /\
  (global (pattern_of pat) = true ->
   replace (pattern_of pat) rp content =
   replace_global (pattern_of pat) rp content 0 [] content) /\
  (global (pattern_of pat) = false ->
   replace (pattern_of pat) rp content =
   replace_first (pattern_of pat) rp content content) /\
  (forall s, global (pattern_of (PString s)) = true) /\
  str "Pattern not found" <> str "Replacement had no effect".
Proof.
  unfold applyPatch. fold (pattern_of pat).
  split; [|split; [|split; [|split; [|split; [|split]]]]].
  - intros H. apply test_false in H. now rewrite H.
  - intros H E. apply test_true in H. rewrite H. cbn [negb].
    rewrite E, eqb_refl. reflexivity.
  - intros H E. apply test_true in H. rewrite H. cbn [negb].
    destruct (JS.eqb _ content) eqn:Eq; [|reflexivity].
    apply eqb_eq in Eq. contradiction.
  - intros H. unfold replace. now rewrite H.
  - intros H. unfold replace. now rewrite H.
  - reflexivity.
  - discriminate.
Qed.

Lemma applyPatch_trichotomy_witness :
  applyPatch (str "xabcx") (str "fixture") (PString (str "abc"))
             (ReplString (str "abc")) =
  (str "xabcx",
   mkResult (str "fixture") false (Some (str "Replacement had no effect"))).
Proof.
  apply (applyPatch_trichotomy (str "xabcx") (str "fixture")
           (PString (str "abc")) (ReplString (str "abc"))).
  - exists (str "x"), (str "abcx"). split; [reflexivity|].
    vm_compute. discriminate.
  - vm_compute. reflexivity.
Defined.

(** The CLI exit handler's pattern has no [g] flag: on a buffer with
    two matches the rule is applied, and the text carried forward is
    not the text a global replace yields. *)
Lemma applyPatch_not_global :
  success (snd (applyPatch Sample.two_runs n_cli_exit runPattern
                           (ReplString cli_exit_to))) = true /\
  fst (applyPatch Sample.two_runs n_cli_exit runPattern
                  (ReplString cli_exit_to)) <>
  replace (with_g (pattern_of runPattern)) (ReplString cli_exit_to)
          Sample.two_runs.
Proof. split; [vm_compute; reflexivity | vm_compute; discriminate]. Qed.

(** ** The version gate *)

Lemma printed_warn_preamble (v p : jsstring) :
  printed Warn (preamble v p) =
  if negb (JS.arr_includes v SUPPORTED_VERSIONS) &&
     negb (JS.eqb v (str "unknown"))
  then [MsgMayNotBeCompatible v; MsgAttempting] else [].
Proof. unfold preamble. now destruct (_ && _). Qed.

(** C8, as amended — the version gate.  For a version outside
    [SUPPORTED_VERSIONS] the run prints the two warning lines, except
    for the version "unknown", for which it prints none.  Either way
    the version decides nothing else: a marked artifact ends the run
    normally, an unmarked one has all fifteen rules reported, ends by
    [Deno.exit(1)] exactly when the commit gate finds a critical
    failure and returns normally exactly when it finds none and the
    host carries the write out; and the only error line a run with a
    located, readable artifact prints is the one of the gate. *)
Theorem version_gate_never_fatal (h : host) (t : list WalkEntry)
        (d : jsstring -> option jsstring) (p v c : jsstring) :
  located (mkWorld h t d []) = Some (p, v) ->
  d p = Some c ->
  JS.arr_includes v SUPPORTED_VERSIONS = false ->
  (v <> str "unknown" ->
   printed Warn (trace (snd (run h t d))) =
   [MsgMayNotBeCompatible v; MsgAttempting]) /\
  (v = str "unknown" -> printed Warn (trace (snd (run h t d))) = []) /\
  (JS.includes PATCH_MARKER c = true -> fst (run h t d) = Normal tt) /\
  (JS.includes PATCH_MARKER c = false ->
   length (report (trace (snd (run h t d)))) = 15 /\
   (fst (run h t d) = Exit 1 <->
    criticalFailures (snd (apply_patches (insert_marker c))) <> []) /\
   (fst (run h t d) = Normal tt <->
    criticalFailures (snd (apply_patches (insert_marker c))) = [] /\
    on_write h p (fst (apply_patches (insert_marker c))) = Done)) /\
  (forall msg, In msg (printed Error (trace (snd (run h t d)))) ->
               msg = MsgCriticalFailed).
Proof.
  intros Hloc Hread Hv.
  assert (Hw : printed Warn (trace (snd (run h t d))) =
               printed Warn (preamble v p) /\
               forall msg, In msg (printed Error (trace (snd (run h t d)))) ->
                           msg = MsgCriticalFailed).
  { destruct (run_shape h t d) as [Hloc' _ E | p' v' Hloc' Hread' E
      | p' v' c' Hloc' Hread' Hm E | p' v' c' Hloc' Hread' Hm Hc E
      | p' v' c' Hloc' Hread' Hm Hc _ E | Hloc' _ E
      | p' v' c' remains Hloc' Hread' Hm Hc _ E]; try congruence;
      rewrite Hloc in Hloc'; injection Hloc' as <- <-;
      rewrite E; cbn [snd trace]; read_trace;
      rewrite ?printed_error_preamble, ?printed_older, ?printed_lines
        by discriminate;
      rewrite ?app_nil_r; cbn [app]; (split; [reflexivity|]);
      intros msg Hin; try contradiction.
    destruct Hin as [<- | []]. reflexivity. }
  destruct Hw as [Hw He]. rewrite Hw, printed_warn_preamble, Hv. cbn [negb andb].
  split; [|split; [|split; [|split]]].
  - intros Hu. destruct (JS.eqb v (str "unknown")) eqn:E; [|reflexivity].
    apply eqb_eq in E. contradiction.
  - intros ->. reflexivity.
  - intros Hm. unfold run.
    now rewrite (run_already_patched _ p v c Hloc Hread Hm).
  - intros Hm.
    destruct (gate_outcome h t d p v c Hloc Hread Hm) as (Hr & H1 & H2).
    rewrite Hr, length_map, <- (length_map name), results_names. auto.
  - exact He.
Qed.

Lemma version_gate_never_fatal_witness :
  printed Warn (trace (snd (run Sample.plain (Sample.tree_of Sample.bin_other)
                 (Sample.disk_of Sample.bin_other Sample.bundle)))) =
  [MsgMayNotBeCompatible (str "0.29.1"); MsgAttempting] /\
  fst (run Sample.plain (Sample.tree_of Sample.bin_other)
           (Sample.disk_of Sample.bin_other Sample.bundle)) = Normal tt.
Proof.
  destruct (version_gate_never_fatal Sample.plain
              (Sample.tree_of Sample.bin_other)
              (Sample.disk_of Sample.bin_other Sample.bundle)
              Sample.bin_other (str "0.29.1") Sample.bundle)
    as (Hw & _ & _ & Hg & _); try (vm_compute; reflexivity).
  split.
  - apply Hw. vm_compute. discriminate.
  - apply Hg; [vm_compute; reflexivity|].
    split; vm_compute; reflexivity.
Defined.

(** The extracted version "unknown" is not in [SUPPORTED_VERSIONS], and
    a run on it prints no warning. *)
Lemma version_gate_unknown_silent :
  located (mkWorld Sample.plain (Sample.tree_of Sample.bin_unversioned)
             (Sample.disk_of Sample.bin_unversioned Sample.bundle) []) =
    Some (Sample.bin_unversioned, str "unknown") /\
  JS.arr_includes (str "unknown") SUPPORTED_VERSIONS = false /\
  printed Warn (trace (snd (run Sample.plain (Sample.tree_of Sample.bin_unversioned)
     (Sample.disk_of Sample.bin_unversioned Sample.bundle)))) = [].
Proof. repeat split; vm_compute; reflexivity. Qed.

(** ** Version extraction *)

Lemma located_version (w : world) (p v : jsstring) :
  located w = Some (p, v) -> v = extract_version p.
Proof.
  unfold located.
  induction (filter (fun e => test bin_re (path e)) (tree w)) as [|e l IH];
    cbn [first_file]; [discriminate|].
  destruct (isFile e); [|exact IH].
  intros H. now injection H as <- <-.
Qed.

Lemma version_lang (t : jsstring) :
  lang (items version_re) t ->
  exists x y z,
    t = str "drizzle-kit@" ++ x ++ str "." ++ y ++ str "." ++ z /\
    digits x /\ digits y /\ digits z.
Proof.
  intros H.
  change (items version_re)
    with (lit (str "drizzle-kit@") ++
          [IOpen; IAtom (AChar C_d) Plus; IAtom (AChar (CLit 46)) One;
           IAtom (AChar C_d) Plus; IAtom (AChar (CLit 46)) One;
           IAtom (AChar C_d) Plus; IClose]) in H.
  apply lang_lit in H as (t1 & -> & H). cbn [lang] in H.
  destruct H as (x & xs & t2 & -> & Hx & Hxs & c1 & t3 & -> & Hc1 &
                 y & ys & t4 & -> & Hy & Hys & c2 & t5 & -> & Hc2 &
                 z & zs & t6 & -> & Hz & Hzs & ->).
  cbn [atom_matches catom_matches] in Hc1, Hc2.
  apply N.eqb_eq in Hc1, Hc2. subst c1 c2.
  exists (x :: xs), (y :: ys), (z :: zs).
  split.
  - change (str ".") with [46%N]. cbn [app]. now rewrite app_nil_r.
  - repeat split; try discriminate; constructor; assumption.
Qed.

(** C7, as amended — version extraction.  For a path whose first
    occurrence of [drizzle-kit@] is a segment [drizzle-kit@0.31.8] the
    extracted version is "0.31.8".  For a path without a part [@X.Y.Z]
    it is "unknown"; a run on such a path prints no warning, reports
    all fifteen rules on an unmarked artifact and ends as the commit
    gate says. *)
Theorem version_extraction :
  (forall pre post : jsstring,
     (pre = [] \/ exists pre', pre = pre' ++ [ch "/"]) ->
     (post = [] \/ exists post', post = ch "/" :: post') ->
     JS.includes (str "drizzle-kit@") pre = false ->
     extract_version (pre ++ str "drizzle-kit@0.31.8" ++ post) =
     str "0.31.8") /\
  (forall p : jsstring,
     ~ has_at_version p -> extract_version p = str "unknown") /\
  (forall (h : host) (t : list WalkEntry) (d : jsstring -> option jsstring)
          (p v c : jsstring),
     located (mkWorld h t d []) = Some (p, v) ->
     ~ has_at_version p ->
     d p = Some c ->
     JS.includes PATCH_MARKER c = false ->
     v = str "unknown" /\
     printed Warn (trace (snd (run h t d))) = [] /\
     length (report (trace (snd (run h t d)))) = 15 /\
     (fst (run h t d) = Exit 1 <->
      criticalFailures (snd (apply_patches (insert_marker c))) <> [])).
Proof.
  assert (Hunknown : forall p, ~ has_at_version p ->
                               extract_version p = str "unknown").
  { intros p Hno. unfold extract_version, exec.
    destruct (search _ _ [] p) as [[bef r]|] eqn:E; [|reflexivity].
    exfalso. apply Hno.
    destruct (search_some _ _ _ _ _ _ E) as (pre & suf & -> & _ & Hm & _).
    pose proof (m_sound _ _ _ _ _ Hm) as Hs.
    pose proof (m_lang _ _ _ _ _ Hm) as Hl.
    apply version_lang in Hl as (x & y & z & Ht & Hx & Hy & Hz).
    exists (pre ++ str "drizzle-kit"), x, y, z, (mrest r).
    split; [|auto]. rewrite Hs, Ht. rewrite <- !app_assoc. reflexivity. }
  split; [|split; [exact Hunknown|]].
  - intros pre post Hpre Hpost Hinc. unfold extract_version, exec.
    rewrite search_skip.
    + generalize (rev pre ++ []). intros bef.
      destruct Hpost as [-> | (post' & ->)]; reflexivity.
    + intros a b Hab Hb prev. apply m_head_fail.
      change (head_of (items version_re)) with (str "drizzle-kit@").
      apply (fun H => clear_prefix (ch "/") _ pre H Hpre Hinc a b _ Hab Hb).
      intros Hin. vm_compute in Hin. intuition discriminate.
  - intros h t d p v c Hloc Hno Hread Hm.
    pose proof (located_version _ _ _ Hloc) as Hv.
    rewrite (Hunknown p Hno) in Hv. subst v.
    destruct (gate_outcome h t d p _ c Hloc Hread Hm) as (Hr & H1 & _).
    repeat split; try apply H1.
    + destruct (criticalFailures (snd (apply_patches (insert_marker c))))
        as [|f fs] eqn:Hc; unfold run.
      * destruct (on_write h p (fst (apply_patches (insert_marker c))))
          as [|remains] eqn:Hw.
        -- rewrite (run_committed _ p _ c Hloc Hread Hm Hc Hw).
           cbn [snd trace]. read_trace.
           now rewrite printed_older, printed_lines by discriminate.
        -- rewrite (run_rejected _ p _ c Hloc Hread remains Hm Hc Hw).
           cbn [snd trace]. read_trace.
           now rewrite printed_older, printed_lines by discriminate.
      * assert (Hc' : criticalFailures
                        (snd (apply_patches (insert_marker c))) <> [])
          by (rewrite Hc; discriminate).
        rewrite (run_aborted _ p _ c Hloc Hread Hm Hc').
        cbn [snd trace]. read_trace.
        now rewrite printed_older, printed_lines by discriminate.
    + rewrite Hr, length_map, <- (length_map name), results_names.
      reflexivity.
Qed.

Lemma version_extraction_witness :
  extract_version
    (str "node_modules/.deno/" ++ str "drizzle-kit@0.31.8" ++
     str "/node_modules/drizzle-kit/bin.cjs") = str "0.31.8".
Proof.
  apply (proj1 version_extraction).
  - right. exists (str "node_modules/.deno"). reflexivity.
  - right. exists (str "node_modules/drizzle-kit/bin.cjs"). reflexivity.
  - vm_compute. reflexivity.
Defined.

(** A path that [walk] can yield, with a segment [drizzle-kit@0.31.8]
    after a segment [drizzle-kit@0.30.6]: the version extracted is the
    first one. *)
Lemma version_extraction_first_wins :
  Sample.bin_nested =
    str "node_modules/.deno/drizzle-kit@0.30.6/node_modules/" ++
    str "drizzle-kit@0.31.8" ++ str "/bin.cjs" /\
  test bin_re Sample.bin_nested = true /\
  extract_version Sample.bin_nested = str "0.30.6" /\
  extract_version Sample.bin_nested <> str "0.31.8".
Proof. repeat split; try (vm_compute; reflexivity). vm_compute. discriminate. Qed.

(** ** The first rule *)

Import ReplaceFacts MarkerFacts PrefixFacts.















(** ** Running twice *)

Import PrefixFacts.

(** C4, as amended — idempotence.  Take an unmarked artifact whose
    shebang line, when it has one, holds none of the texts a rule
    pattern starts with.  If the first run commits, the content it
    writes contains the current marker; a second run on the result
    prints the already-patched line, reports no rule, writes nothing
    and leaves the content as the first run left it. *)
Theorem idempotent_with_marker (h : host) (t : list WalkEntry)
        (d : jsstring -> option jsstring) (p v c : jsstring) :
  located (mkWorld h t d []) = Some (p, v) ->
  d p = Some c ->
  JS.includes PATCH_MARKER c = false ->
  first_line_clear c = true ->
  fst (run h t d) = Normal tt ->
  exists out,
    writes (trace (snd (run h t d))) = [(p, out)] /\
    disk (snd (run h t d)) p = Some out /\
    JS.includes PATCH_MARKER out = true /\
    fst (run h t (disk (snd (run h t d)))) = Normal tt /\
    In MsgAlreadyPatched
       (printed Log (trace (snd (run h t (disk (snd (run h t d))))))) /\
    report (trace (snd (run h t (disk (snd (run h t d)))))) = [] /\
    writes (trace (snd (run h t (disk (snd (run h t d)))))) = [] /\
    disk (snd (run h t (disk (snd (run h t d))))) = disk (snd (run h t d)).
Proof.
  intros Hloc Hread Hm Hclear Hok.
  destruct (normal_commits h t d p v c Hloc Hread Hm Hok) as [Hc Hacc].
  destruct (gate_commit h t d p v c Hloc Hread Hm Hc Hacc)
    as (_ & Hw & Hd & _).
  pose proof (marker_kept_includes c Hclear) as Hinc.
  set (out := fst (apply_patches (insert_marker c))) in *.
  exists out. rewrite Hw, Hd, write_read.
  assert (Hloc2 : located (mkWorld h t (write h p out d) []) = Some (p, v))
    by exact Hloc.
  unfold run at 1 2 3 4 5.
  rewrite (run_already_patched _ p v out Hloc2 (write_read h p out d) Hinc).
  cbn [fst snd trace disk]. read_trace.
  repeat split; try reflexivity; try assumption.
  apply in_or_app. right. now left.
Qed.

Lemma idempotent_with_marker_witness :
  exists out,
    writes (trace (snd (run Sample.plain (Sample.tree_of Sample.bin)
              (Sample.disk_of Sample.bin Sample.bundle)))) =
      [(Sample.bin, out)] /\
    JS.includes PATCH_MARKER out = true.
Proof.
  destruct (idempotent_with_marker Sample.plain (Sample.tree_of Sample.bin)
              (Sample.disk_of Sample.bin Sample.bundle)
              Sample.bin (str "0.31.8") Sample.bundle)
    as (out & Hw & _ & Hinc & _); try (vm_compute; reflexivity).
  exists out. split; assumption.
Defined.

(** A first run that commits a content without the marker: the
    [_supportsColor] rule matches from the shebang line across the
    marker line.  The second run is not taken for already patched; it
    goes through the rules again and ends by [Deno.exit(1)]. *)
Lemma second_run_not_noop :
  fst (run Sample.plain (Sample.tree_of Sample.bin)
           (Sample.disk_of Sample.bin Sample.bundle_shebang_spanned)) =
    Normal tt /\
  writes (trace (snd (run Sample.plain (Sample.tree_of Sample.bin)
           (Sample.disk_of Sample.bin Sample.bundle_shebang_spanned)))) =
    [(Sample.bin,
      fst (apply_patches (insert_marker Sample.bundle_shebang_spanned)))] /\
  JS.includes PATCH_MARKER
    (fst (apply_patches (insert_marker Sample.bundle_shebang_spanned))) =
    false /\
  fst (run Sample.plain (Sample.tree_of Sample.bin)
        (disk (snd (run Sample.plain (Sample.tree_of Sample.bin)
           (Sample.disk_of Sample.bin Sample.bundle_shebang_spanned))))) =
    Exit 1 /\
  length (report (trace (snd (run Sample.plain (Sample.tree_of Sample.bin)
        (disk (snd (run Sample.plain (Sample.tree_of Sample.bin)
           (Sample.disk_of Sample.bin Sample.bundle_shebang_spanned)))))))) =
    15.
Proof.
  split; [vm_compute; reflexivity|].
  split; [vm_compute; reflexivity|].
  split; [vm_compute; reflexivity|].
  split; vm_compute; reflexivity.
Qed.

(** ** The marker in the output *)

Import OccFacts ShrinkFacts.

Lemma marker_not_empty : PATCH_MARKER <> [].
Proof. intros H. vm_compute in H. discriminate. Qed.

(** Every replacement of the table is built from separators of the
    marker and from text of the match. *)
Lemma rules_shrink : Forall (rule_shrinks PATCH_MARKER) RULES.
Proof.
  unfold RULES.
  repeat (apply Forall_cons;
          [first
             [ apply (shrinks_plain PATCH_MARKER marker_not_empty);
               vm_compute; reflexivity
             | apply (shrinks_mid PATCH_MARKER marker_not_empty _ _
                        (str "const required = await import(")
                        (str "); // PATCHED: import for Deno TS support"));
               [intros; vm_compute; reflexivity | vm_compute; reflexivity ..]
             | apply (shrinks_mid PATCH_MARKER marker_not_empty _ _
                        (str "const i0 = await import(")
                        (str "); // PATCHED: import for Deno TS support"));
               [intros; vm_compute; reflexivity | vm_compute; reflexivity ..]
             | apply (shrinks_lead PATCH_MARKER marker_not_empty _
                        (tl (tl (items (pattern_of runPattern)))) _
                        (str ".then(() => { setTimeout(() => process.exit(0), 50); }); // PATCHED: force exit for Deno"));
               [intros; vm_compute; reflexivity | vm_compute; reflexivity ..]
             ] |]).
  apply Forall_nil.
Qed.

Lemma includes_parts (k a b : jsstring) :
  JS.includes k (a ++ b) = false ->
  JS.includes k a = false /\ JS.includes k b = false.
Proof.
  intros H. split.
  - destruct (JS.includes k a) eqn:E; [|reflexivity].
    now rewrite (MarkerFacts.includes_app_l _ _ b E) in H.
  - destruct (JS.includes k b) eqn:E; [|reflexivity].
    now rewrite (MarkerFacts.includes_app_r _ a _ E) in H.
Qed.

(** The buffer the rules start from holds the marker once. *)
Lemma insert_marker_once (c : jsstring) :
  JS.includes PATCH_MARKER c = false ->
  occurrences PATCH_MARKER (insert_marker c) = 1.
Proof.
  intros Hm. rewrite MarkerFacts.insert_marker_cut.
  destruct (MarkerFacts.shebang_cut c) as [Hcut HL].
  rewrite Hcut in Hm. apply includes_parts in Hm as [HmL Hmr].
  pose proof marker_not_empty as Hne.
  pose proof MarkerFacts.marker_no_NL as Hnl.
  assert (Hmid : occurrences PATCH_MARKER
                   (PATCH_MARKER ++ [NL] ++ after_shebang c) = 1).
  { cbn [app]. rewrite (occ_cut_before _ Hne NL) by assumption.
    change (NL :: after_shebang c) with (([] ++ [NL]) ++ after_shebang c).
    rewrite (occ_cut_after _ Hne NL) by assumption.
    rewrite (occ_zero _ _ Hmr). reflexivity. }
  destruct HL as [-> | (l & El)].
  - exact Hmid.
  - rewrite El in *. rewrite (occ_cut_after _ Hne NL) by assumption.
    rewrite (occ_zero _ _ HmL), Hmid. reflexivity.
Qed.

Lemma indexOf_char (x : N) (s : jsstring) :
  In x s ->
  exists a b, s = a ++ x :: b /\ ~ In x a /\
              JS.indexOf [x] s = Z.of_nat (length a).
Proof.
  induction s as [|y s IH]; [contradiction|].
  intros Hin. cbn [JS.indexOf JS.startsWith].
  destruct (N.eqb_spec x y) as [<- | Hxy]; cbn [andb].
  - exists [], s. auto.
  - destruct Hin as [Hin | Hin]; [congruence|].
    destruct (IH Hin) as (a & b & -> & Ha & Hi). rewrite Hi.
    exists (y :: a), b. repeat split.
    + intros [H | H]; [congruence | contradiction].
    + cbn zeta. destruct (Z.ltb_spec (Z.of_nat (length a)) 0); [lia|].
      cbn [length]. lia.
Qed.

(** C5, as amended — marker insertion.  The marker line is inserted
    before the first rule runs: at the very start of a buffer that does
    not start with [#!], and right after the first line of a buffer
    that starts with [#!] and has a line break; the buffer the rules
    start from holds the marker exactly once.  A run that commits
    writes an output with at most one occurrence of the marker, and
    with exactly one, after the shebang line, when that line holds
    none of the texts a rule pattern starts with. *)
Theorem marker_inserted_once (h : host) (t : list WalkEntry)
        (d : jsstring -> option jsstring) (p v c : jsstring) :
  located (mkWorld h t d []) = Some (p, v) ->
  d p = Some c ->
  JS.includes PATCH_MARKER c = false ->
  (JS.startsWith (str "#!") c = false ->
   insert_marker c = PATCH_MARKER ++ [NL] ++ c) /\
  (JS.startsWith (str "#!") c = true -> In NL c ->
   exists l rest,
     c = l ++ [NL] ++ rest /\ ~ In NL l /\
     insert_marker c = l ++ [NL] ++ PATCH_MARKER ++ [NL] ++ rest) /\
  buffer_at RULES 0 (insert_marker c) = insert_marker c /\
  occurrences PATCH_MARKER (insert_marker c) = 1 /\
  (fst (run h t d) = Normal tt ->
   exists out,
     writes (trace (snd (run h t d))) = [(p, out)] /\
     occurrences PATCH_MARKER out <= 1 /\
     (first_line_clear c = true ->
      occurrences PATCH_MARKER out = 1 /\
      exists X, out = shebang_line c ++ PATCH_MARKER ++ [NL] ++ X)).
Proof.
  intros Hloc Hread Hm.
  split; [|split; [|split; [|split]]].
  - intros Hs. unfold insert_marker. now rewrite Hs.
  - intros Hs Hin. unfold insert_marker. rewrite Hs.
    destruct (indexOf_char NL c Hin) as (a & b & -> & Ha & ->).
    exists a, b. split; [reflexivity|]. split; [assumption|].
    assert (E : (Z.of_nat (length a) + 1)%Z = Z.of_nat (length (a ++ [NL])))
      by (rewrite length_app; cbn [length]; lia).
    rewrite E. change (a ++ NL :: b) with (a ++ [NL] ++ b).
    rewrite (app_assoc a [NL] b).
    rewrite MarkerFacts.slice_upto, MarkerFacts.slice_from_at.
    now rewrite <- !app_assoc.
  - reflexivity.
  - now apply insert_marker_once.
  - intros Hok.
    destruct (normal_commits h t d p v c Hloc Hread Hm Hok) as [Hc Hacc].
    destruct (gate_commit h t d p v c Hloc Hread Hm Hc Hacc)
      as (_ & Hw & _).
    exists (fst (apply_patches (insert_marker c))).
    split; [exact Hw|].
    assert (Hle : occurrences PATCH_MARKER
                    (fst (apply_patches (insert_marker c))) <= 1).
    { rewrite apply_patches_run_rules, <- (insert_marker_once c Hm).
      apply (run_rules_occ PATCH_MARKER RULES rules_shrink). }
    split; [exact Hle|].
    intros Hclear. split.
    + pose proof (occ_pos _ _
                    (PrefixFacts.marker_kept_includes c Hclear)). lia.
    + exact (PrefixFacts.marker_kept c Hclear).
Qed.

Lemma marker_inserted_once_witness :
  occurrences PATCH_MARKER (insert_marker Sample.bundle) = 1 /\
  exists out,
    writes (trace (snd (run Sample.plain (Sample.tree_of Sample.bin)
              (Sample.disk_of Sample.bin Sample.bundle)))) =
      [(Sample.bin, out)] /\
    occurrences PATCH_MARKER out <= 1.
Proof.
  destruct (marker_inserted_once Sample.plain (Sample.tree_of Sample.bin)
              (Sample.disk_of Sample.bin Sample.bundle)
              Sample.bin (str "0.31.8") Sample.bundle)
    as (_ & _ & _ & H1 & H2); try (vm_compute; reflexivity).
  split; [exact H1|].
  destruct H2 as (out & Hw & Hle & _); [vm_compute; reflexivity|].
  exists out. split; assumption.
Defined.

(** A run that commits an output without any occurrence of the marker:
    the [_supportsColor] rule matches from the shebang line across the
    marker line. *)
Lemma committed_without_marker :
  fst (run Sample.plain (Sample.tree_of Sample.bin)
           (Sample.disk_of Sample.bin Sample.bundle_shebang_spanned)) =
    Normal tt /\
  writes (trace (snd (run Sample.plain (Sample.tree_of Sample.bin)
           (Sample.disk_of Sample.bin Sample.bundle_shebang_spanned)))) =
    [(Sample.bin,
      fst (apply_patches (insert_marker Sample.bundle_shebang_spanned)))] /\
  occurrences PATCH_MARKER
    (fst (apply_patches (insert_marker Sample.bundle_shebang_spanned))) = 0.
Proof.
  split; [vm_compute; reflexivity|].
  split; vm_compute; reflexivity.
Qed.

(** ** What a group captures *)

Module GroupFacts.
Import MatchDefs MatchFacts.

Lemma star_greedy_inv (a : atom) (k : option N -> jsstring -> option mres) :
  forall s prev r,
    star_greedy a k prev s = Some r ->
    exists xs prev' s' r',
      s = xs ++ s' /\ Forall (fun x => atom_matches a x = true) xs /\
      k prev' s' = Some r' /\
      mtext r = xs ++ mtext r' /\ mcur r = xs ++ mcur r' /\
      mcaps r = mcaps r' /\ mrest r = mrest r'.
Proof.
  assert (Hbase : forall prev s r, k prev s = Some r ->
            exists xs prev' s' r',
              s = xs ++ s' /\ Forall (fun x => atom_matches a x = true) xs /\
              k prev' s' = Some r' /\
              mtext r = xs ++ mtext r' /\ mcur r = xs ++ mcur r' /\
              mcaps r = mcaps r' /\ mrest r = mrest r').
  { intros prev s r H. exists [], prev, s, r. auto 10. }
  induction s as [|x s IH]; intros prev r; cbn [star_greedy].
  - apply Hbase.
  - destruct (atom_matches a x) eqn:Ha; [|apply Hbase].
    intros H. apply orelse_some in H as [H | [_ H]]; [|now apply Hbase in H].
    apply consume_some in H as (r1 & H & Ht & Hc & Hcaps & Hr).
    apply IH in H as (xs & prev' & s' & r' & -> & Hxs & Hk & Ht' & Hc' & Hcaps' & Hr').
    exists (x :: xs), prev', s', r'.
    rewrite Ht, Hc, Hcaps, Hr, Ht', Hc'. auto 10.
Qed.

Lemma star_lazy_inv (a : atom) (k : option N -> jsstring -> option mres) :
  forall s prev r,
    star_lazy a k prev s = Some r ->
    exists xs prev' s' r',
      s = xs ++ s' /\ Forall (fun x => atom_matches a x = true) xs /\
      k prev' s' = Some r' /\
      mtext r = xs ++ mtext r' /\ mcur r = xs ++ mcur r' /\
      mcaps r = mcaps r' /\ mrest r = mrest r'.
Proof.
  assert (Hbase : forall prev s r, k prev s = Some r ->
            exists xs prev' s' r',
              s = xs ++ s' /\ Forall (fun x => atom_matches a x = true) xs /\
              k prev' s' = Some r' /\
              mtext r = xs ++ mtext r' /\ mcur r = xs ++ mcur r' /\
              mcaps r = mcaps r' /\ mrest r = mrest r').
  { intros prev s r H. exists [], prev, s, r. auto 10. }
  induction s as [|x s IH]; intros prev r; cbn [star_lazy].
  - destruct (k prev []) eqn:E; [|discriminate].
    intros H. injection H as <-. now apply Hbase in E.
  - destruct (k prev (x :: s)) eqn:E.
    + intros H. injection H as <-. now apply Hbase in E.
    + destruct (atom_matches a x) eqn:Ha; [|discriminate].
      intros H. apply consume_some in H as (r1 & H & Ht & Hc & Hcaps & Hr).
      apply IH in H as (xs & prev' & s' & r' & -> & Hxs & Hk & Ht' & Hc' & Hcaps' & Hr').
      exists (x :: xs), prev', s', r'.
      rewrite Ht, Hc, Hcaps, Hr, Ht', Hc'. auto 10.
Qed.

(** One item of a successful match: the text it consumed, and the
    match of the items after it. *)
Lemma m_cons_inv (ml : bool) (it : item) (its : list item) prev s r :
  m ml (it :: its) prev s = Some r ->
  exists xs prev' s' r',
    s = xs ++ s' /\ m ml its prev' s' = Some r' /\
    mtext r = xs ++ mtext r' /\ mrest r = mrest r' /\
    item_lang it xs /\
    match it with
    | IOpen => mcur r = [] /\ mcaps r = mcur r' :: mcaps r'
    | IClose => mcur r = [] /\ mcaps r = mcaps r'
    | _ => mcur r = xs ++ mcur r' /\ mcaps r = mcaps r'
    end.
Proof.
  cbn [m]. destruct it as [a [] | | | |].
  - intros H. apply one_some in H
      as (x & s' & r' & -> & Ha & H & Ht & Hc & Hcaps & Hr).
    exists [x], (Some x), s', r'. cbn [item_lang app]. eauto 10.
  - intros H. apply star_greedy_inv in H
      as (xs & prev' & s' & r' & -> & Hxs & H & Ht & Hc & Hcaps & Hr).
    exists xs, prev', s', r'. cbn [item_lang]. auto 10.
  - intros H. apply one_some in H
      as (x & s1 & r1 & -> & Ha & H & Ht & Hc & Hcaps & Hr).
    apply star_greedy_inv in H
      as (xs & prev' & s' & r' & -> & Hxs & H & Ht' & Hc' & Hcaps' & Hr').
    exists (x :: xs), prev', s', r'. cbn [item_lang].
    rewrite Ht, Hc, Hcaps, Hr, Ht', Hc'.
    repeat split; auto; discriminate.
  - intros H. apply orelse_some in H as [H | [_ H]].
    + apply one_some in H
        as (x & s' & r' & -> & Ha & H & Ht & Hc & Hcaps & Hr).
      exists [x], (Some x), s', r'. cbn [item_lang app]. eauto 10.
    + exists [], prev, s, r. cbn [item_lang app]. auto 10.
  - intros H. apply star_lazy_inv in H
      as (xs & prev' & s' & r' & -> & Hxs & H & Ht & Hc & Hcaps & Hr).
    exists xs, prev', s', r'. cbn [item_lang]. auto 10.
  - destruct (at_bol ml prev); [|discriminate]. intros H.
    exists [], prev, s, r. cbn [item_lang app]. auto 10.
  - destruct (at_eol ml s); [|discriminate]. intros H.
    exists [], prev, s, r. cbn [item_lang app]. auto 10.
  - destruct (m ml its prev s) as [r'|] eqn:E; [|discriminate].
    cbn [open_group]. intros H. injection H as <-.
    exists [], prev, s, r'. cbn [item_lang app mtext mcur mcaps mrest]. auto 10.
  - destruct (m ml its prev s) as [r'|] eqn:E; [|discriminate].
    cbn [close_group]. intros H. injection H as <-.
    exists [], prev, s, r'. cbn [item_lang app mtext mcur mcaps mrest]. auto 10.
Qed.

Lemma lang_cons (it : item) (its : list item) (xs t : jsstring) :
  item_lang it xs -> lang its t -> lang (it :: its) (xs ++ t).
Proof.
  destruct it as [a [] | | | |]; cbn [item_lang lang].
  - intros (x & -> & Ha) Ht. exists x, t. auto.
  - intros Hxs Ht. exists xs, t. auto.
  - intros [Hne Hxs] Ht. destruct xs as [|x xs]; [contradiction|].
    inversion Hxs; subst. exists x, xs, t. auto.
  - intros [-> | (x & -> & Ha)] Ht; [now left|]. right. exists x, t. auto.
  - intros Hxs Ht. exists xs, t. auto.
  - now intros ->.
  - now intros ->.
  - now intros ->.
  - now intros ->.
Qed.

Lemma lang_app_intro (its1 its2 : list item) :
  forall t1 t2,
    lang its1 t1 -> lang its2 t2 -> lang (its1 ++ its2) (t1 ++ t2).
Proof.
  induction its1 as [|it its1 IH]; intros t1 t2; cbn [app].
  - cbn [lang]. now intros ->.
  - destruct it as [a [] | | | |]; cbn [lang]; try (now apply IH).
    + intros (x & t' & -> & Ha & H) H2. exists x, (t' ++ t2). auto.
    + intros (xs & t' & -> & Hxs & H) H2. exists xs, (t' ++ t2).
      rewrite <- app_assoc. auto.
    + intros (x & xs & t' & -> & Ha & Hxs & H) H2.
      exists x, xs, (t' ++ t2). cbn [app]. rewrite <- app_assoc. auto.
    + intros [H | (x & t' & -> & Ha & H)] H2; [left; now apply IH|].
      right. exists x, (t' ++ t2). auto.
    + intros (xs & t' & -> & Hxs & H) H2. exists xs, (t' ++ t2).
      rewrite <- app_assoc. auto.
Qed.

(** Items without parentheses capture nothing. *)
Lemma m_paren_free (ml : bool) (its : list item) :
  paren_free its = true ->
  forall prev s r,
    m ml its prev s = Some r ->
    mcur r = mtext r /\ mcaps r = [].
Proof.
  induction its as [|it its IH]; intros Hpf prev s r H.
  - cbn [m] in H. injection H as <-. auto.
  - cbn [paren_free forallb] in Hpf. apply andb_true_iff in Hpf as [Hit Hpf].
    apply m_cons_inv in H
      as (xs & prev' & s' & r' & _ & H & Ht & _ & _ & Hc).
    destruct (IH Hpf _ _ _ H) as [Hc' Hcaps'].
    destruct it as [a q | | | |]; try discriminate;
      destruct Hc as [-> ->]; rewrite Ht, Hc'; auto.
Qed.

(** The body of a group up to its closing parenthesis is the text
    since the opening one. *)
Lemma m_group_body (ml : bool) (body post : list item) :
  paren_free body = true -> paren_free post = true ->
  forall prev s r,
    m ml (body ++ IClose :: post) prev s = Some r ->
    exists g t,
      mtext r = g ++ t /\ mcur r = g /\ mcaps r = [] /\
      lang body g /\ lang post t.
Proof.
  intros Hb Hp. induction body as [|it body IH]; intros prev s r H.
  - cbn [app] in H. apply m_cons_inv in H
      as (xs & prev' & s' & r' & _ & H & Ht & _ & Hxs & Hc & Hcaps).
    cbn [item_lang] in Hxs. subst xs.
    destruct (m_paren_free ml post Hp _ _ _ H) as [_ Hcaps'].
    exists [], (mtext r'). cbn [lang app]. rewrite Ht, Hcaps, Hcaps'.
    repeat split; try assumption. exact (m_lang _ _ _ _ _ H).
  - cbn [paren_free forallb] in Hb. apply andb_true_iff in Hb as [Hit Hb].
    cbn [app] in H. apply m_cons_inv in H
      as (xs & prev' & s' & r' & _ & H & Ht & _ & Hxs & Hc).
    destruct (IH Hb _ _ _ H) as (g & t & Ht' & Hg & Hcaps & Hlb & Hlp).
    exists (xs ++ g), t.
    destruct it as [a q | | | |]; try discriminate;
      destruct Hc as [Hc Hcaps1];
      rewrite Ht, Ht', Hc, Hg, Hcaps1, Hcaps, <- app_assoc;
      repeat split; try assumption; now apply lang_cons.
Qed.

(** A pattern with one group: the text before the group, the capture
    and the text after it make up the match, each in the language of
    its items. *)
Lemma m_one_group (ml : bool) (pre body post : list item) :
  paren_free pre = true -> paren_free body = true ->
  paren_free post = true ->
  forall prev s r,
    m ml (pre ++ IOpen :: body ++ IClose :: post) prev s = Some r ->
    exists tp g t,
      mtext r = tp ++ g ++ t /\ mcaps r = [g] /\
      lang pre tp /\ lang body g /\ lang post t.
Proof.
  intros Hpre Hb Hp. induction pre as [|it pre IH]; intros prev s r H.
  - cbn [app] in H. apply m_cons_inv in H
      as (xs & prev' & s' & r' & _ & H & Ht & _ & Hxs & Hc & Hcaps).
    cbn [item_lang] in Hxs. subst xs.
    destruct (m_group_body ml body post Hb Hp _ _ _ H)
      as (g & t & Ht' & Hg & Hcaps' & Hlb & Hlp).
    exists [], g, t. cbn [lang app] in *.
    rewrite Ht, Ht', Hcaps, Hg, Hcaps'. auto.
  - cbn [paren_free forallb] in Hpre.
    apply andb_true_iff in Hpre as [Hit Hpre].
    cbn [app] in H. apply m_cons_inv in H
      as (xs & prev' & s' & r' & _ & H & Ht & _ & Hxs & Hc).
    destruct (IH Hpre _ _ _ H) as (tp & g & t & Ht' & Hcaps & Hlp & Hlb & Hlt).
    exists (xs ++ tp), g, t.
    destruct it as [a q | | | |]; try discriminate;
      destruct Hc as [_ Hcaps1];
      rewrite Ht, Ht', Hcaps1, Hcaps, <- app_assoc;
      repeat split; try assumption; now apply lang_cons.
Qed.

(** With [$] as the last item and no [m] flag a match ends the input. *)
Lemma m_to_end (its : list item) :
  forall prev s r,
    m false (its ++ [IEol]) prev s = Some r -> mrest r = [].
Proof.
  induction its as [|it its IH]; intros prev s r H.
  - cbn [app m] in H. destruct s as [|x s]; cbn [at_eol andb] in H;
      [|discriminate]. now injection H as <-.
  - cbn [app] in H. apply m_cons_inv in H
      as (xs & prev' & s' & r' & _ & H & _ & Hr & _).
    rewrite Hr. now apply IH in H.
Qed.

(** With [$] as the last item a match ends where a line ends. *)
Lemma m_at_eol (ml : bool) (its : list item) :
  forall prev s r,
    m ml (its ++ [IEol]) prev s = Some r -> at_eol ml (mrest r) = true.
Proof.
  induction its as [|it its IH]; intros prev s r H.
  - cbn [app m] in H. destruct (at_eol ml s) eqn:E; [|discriminate].
    now injection H as <-.
  - cbn [app] in H. apply m_cons_inv in H
      as (xs & prev' & s' & r' & _ & H & _ & Hr & _).
    rewrite Hr. now apply IH in H.
Qed.

Lemma paren_free_lit (P : jsstring) : paren_free (lit P) = true.
Proof. induction P as [|c P IH]; [reflexivity|exact IH]. Qed.

End GroupFacts.

(** ** The matcher finds every text of the language *)

Module CompleteFacts.
Import MatchDefs MatchFacts GroupFacts.

Lemma orelse_alt (o alt : option mres) :
  alt <> None -> orelse o alt <> None.
Proof. destruct o; [discriminate|auto]. Qed.

Lemma consume_found (x : N) (o : option mres) :
  o <> None -> consume x o <> None.
Proof. destruct o; [discriminate|auto]. Qed.

Lemma one_complete (a : atom) (k : option N -> jsstring -> option mres)
      (x : N) (s : jsstring) :
  atom_matches a x = true -> k (Some x) s <> None ->
  one a k (x :: s) <> None.
Proof.
  intros Ha Hk. cbn [one]. rewrite Ha. now apply consume_found.
Qed.

Lemma star_greedy_complete (a : atom)
      (k : option N -> jsstring -> option mres) (rest : jsstring) :
  (forall prev, k prev rest <> None) ->
  forall xs, Forall (fun x => atom_matches a x = true) xs ->
  forall prev, star_greedy a k prev (xs ++ rest) <> None.
Proof.
  intros Hk xs Hxs. induction Hxs as [|x xs Hx _ IH]; intros prev.
  - cbn [app]. destruct rest as [|y rest']; cbn [star_greedy]; [apply Hk|].
    destruct (atom_matches a y); [|apply Hk]. apply orelse_alt, Hk.
  - cbn [app star_greedy]. rewrite Hx.
    destruct (consume x (star_greedy a k (Some x) (xs ++ rest))) eqn:E;
      [discriminate|].
    exfalso. revert E. apply consume_found, IH.
Qed.

Lemma star_lazy_complete (a : atom)
      (k : option N -> jsstring -> option mres) (rest : jsstring) :
  (forall prev, k prev rest <> None) ->
  forall xs, Forall (fun x => atom_matches a x = true) xs ->
  forall prev, star_lazy a k prev (xs ++ rest) <> None.
Proof.
  intros Hk xs Hxs. induction Hxs as [|x xs Hx _ IH]; intros prev.
  - cbn [app]. specialize (Hk prev).
    destruct rest as [|y rest']; cbn [star_lazy];
      destruct (k prev _); try discriminate; contradiction.
  - cbn [app star_lazy]. destruct (k prev _); [discriminate|].
    rewrite Hx. apply consume_found, IH.
Qed.

(** Items without assertions match every text of their language,
    whatever follows that the rest of the pattern accepts. *)
Lemma m_complete (ml : bool) (fin : list item) (rest : jsstring) :
  (forall prev, m ml fin prev rest <> None) ->
  forall its, assertion_free its = true ->
  forall t prev, lang its t -> m ml (its ++ fin) prev (t ++ rest) <> None.
Proof.
  intros Hfin its. induction its as [|it its IH]; intros Haf t prev Ht.
  - cbn [lang] in Ht. subst t. apply Hfin.
  - cbn [assertion_free forallb] in Haf.
    apply andb_true_iff in Haf as [Hit Haf]. specialize (IH Haf).
    cbn [app m]. destruct it as [a [] | | | |]; try discriminate;
      cbn [lang] in Ht.
    + destruct Ht as (x & t' & -> & Ha & Ht). cbn [app].
      apply one_complete; auto.
    + destruct Ht as (xs & t' & -> & Hxs & Ht). rewrite <- app_assoc.
      apply star_greedy_complete; auto.
    + destruct Ht as (x & xs & t' & -> & Ha & Hxs & Ht).
      cbn [app]. rewrite <- app_assoc. apply one_complete; [exact Ha|].
      apply star_greedy_complete; auto.
    + destruct Ht as [Ht | (x & t' & -> & Ha & Ht)].
      * apply orelse_alt. auto.
      * cbn [app]. destruct (one a (m ml (its ++ fin)) (x :: t' ++ rest)) eqn:E;
          [discriminate|].
        exfalso. revert E. apply one_complete; auto.
    + destruct Ht as (xs & t' & -> & Hxs & Ht). rewrite <- app_assoc.
      apply star_lazy_complete; auto.
    + specialize (IH t prev Ht). destruct (m ml (its ++ fin) prev (t ++ rest));
        [discriminate|contradiction].
    + specialize (IH t prev Ht). destruct (m ml (its ++ fin) prev (t ++ rest));
        [discriminate|contradiction].
Qed.

Lemma lang_lit_self (P : jsstring) : lang (lit P) P.
Proof.
  induction P as [|c P IH]; cbn [lit map lang]; [reflexivity|].
  exists c, P. repeat split; [|exact IH]. cbn. apply N.eqb_refl.
Qed.

Lemma lang_lit_only (P t : jsstring) : lang (lit P) t <-> t = P.
Proof.
  split; [|intros ->; apply lang_lit_self].
  intros H. rewrite <- (app_nil_r (lit P)) in H.
  apply lang_lit in H as (t' & -> & H). cbn [lang] in H. subst t'.
  apply app_nil_r.
Qed.

Lemma assertion_free_lit (P : jsstring) : assertion_free (lit P) = true.
Proof. induction P as [|c P IH]; [reflexivity|exact IH]. Qed.

Lemma assertion_free_app (a b : list item) :
  assertion_free (a ++ b) = assertion_free a && assertion_free b.
Proof. apply forallb_app. Qed.

(** A match of a pattern without assertions, at any place. *)
Lemma has_match_intro (re : RegExp.t) (pre t rest : jsstring) :
  assertion_free (items re) = true ->
  lang (items re) t ->
  has_match re (pre ++ t ++ rest).
Proof.
  intros Haf Ht. exists pre, (t ++ rest). split; [reflexivity|].
  rewrite <- (app_nil_r (items re)).
  apply m_complete; [discriminate|exact Haf|exact Ht].
Qed.

(** The same for a pattern that ends with [$] and has no [m] flag:
    a match that ends the input. *)
Lemma has_match_at_end (re : RegExp.t) (its : list item)
      (pre t : jsstring) :
  items re = its ++ [IEol] ->
  assertion_free its = true ->
  lang its t ->
  has_match re (pre ++ t).
Proof.
  intros Hits Haf Ht. exists pre, t. split; [reflexivity|].
  rewrite Hits, <- (app_nil_r t) at 1.
  apply m_complete; [|exact Haf|exact Ht].
  intros prev. cbn [m at_eol]. discriminate.
Qed.

(** A plain text as a pattern is found exactly where the text is. *)
Lemma test_lit (ml g : bool) (P s : jsstring) :
  test (RegExp.mk (lit P) g ml) s = JS.includes P s.
Proof.
  destruct (JS.includes P s) eqn:E.
  - apply test_true. apply includes_iff in E as (a & b & ->).
    apply has_match_intro; [apply assertion_free_lit|apply lang_lit_self].
  - apply test_false. intros (pre & suf & -> & Hm). apply Hm.
    change (m ml (lit P) (hd_error (rev pre)) suf = None).
    apply m_head_fail.
    assert (Hh : head_of (lit P) = P).
    { clear. induction P as [|c P IH]; [reflexivity|].
      change (c :: head_of (lit P) = c :: P). now rewrite IH. }
    rewrite Hh. exact (includes_false _ _ E _ _ eq_refl).
Qed.

End CompleteFacts.

(** ** A greedy repetition at the end of a pattern takes all it can *)

Module GreedyFacts.
Import MatchDefs MatchFacts GroupFacts CompleteFacts.

Lemma star_greedy_max (a : atom) (k : option N -> jsstring -> option mres) :
  (forall prev s, exists r, k prev s = Some r /\ mrest r = s) ->
  forall s prev r,
    star_greedy a k prev s = Some r -> stops_before a (mrest r).
Proof.
  intros Hk.
  assert (Htot : forall s prev, star_greedy a k prev s <> None).
  { intros s prev. apply (star_greedy_complete a k s) with (xs := []).
    - intros prev'. destruct (Hk prev' s) as (r & -> & _). discriminate.
    - constructor. }
  induction s as [|x s IH]; intros prev r; cbn [star_greedy].
  - destruct (Hk prev []) as (r0 & -> & Hr). intros H. injection H as <-.
    now rewrite Hr.
  - destruct (atom_matches a x) eqn:Ha.
    + intros H. apply orelse_some in H as [H | [H _]].
      * apply consume_some in H as (r1 & H & _ & _ & _ & ->).
        now apply IH in H.
      * exfalso. revert H. apply consume_found, Htot.
    + destruct (Hk prev (x :: s)) as (r0 & -> & Hr). intros H.
      injection H as <-. rewrite Hr. exact Ha.
Qed.

(** A pattern that ends with [a+] and a closing parenthesis. *)
Lemma m_tail_max (ml : bool) (a : atom) (its : list item) :
  forall prev s r,
    m ml (its ++ [IAtom a Plus; IClose]) prev s = Some r ->
    stops_before a (mrest r).
Proof.
  induction its as [|it its IH]; intros prev s r H.
  - cbn [app m] in H.
    apply one_some in H as (x & s' & r' & _ & _ & H & _ & _ & _ & ->).
    revert H. apply star_greedy_max. intros prev' s0.
    cbn [m close_group]. eexists. split; reflexivity.
  - cbn [app] in H. apply m_cons_inv in H
      as (xs & prev' & s' & r' & _ & H & _ & -> & _).
    now apply IH in H.
Qed.

End GreedyFacts.

(** ** How matches end, and replaces that change the text *)

Module EndFacts.
Import MatchDefs MatchFacts GroupFacts CompleteFacts ReplaceFacts.

Lemma lang_app_elim (a b : list item) :
  forall t, lang (a ++ b) t ->
            exists t1 t2, t = t1 ++ t2 /\ lang a t1 /\ lang b t2.
Proof.
  induction a as [|it a IH]; intros t; cbn [app].
  - intros H. exists [], t. cbn [lang]. auto.
  - destruct it as [c [] | | | |]; cbn [lang]; try apply IH.
    + intros (x & t' & -> & Hx & H).
      apply IH in H as (t1 & t2 & -> & H1 & H2).
      exists (x :: t1), t2. eauto 8.
    + intros (xs & t' & -> & Hxs & H).
      apply IH in H as (t1 & t2 & -> & H1 & H2).
      exists (xs ++ t1), t2. rewrite <- app_assoc. eauto 8.
    + intros (x & xs & t' & -> & Hx & Hxs & H).
      apply IH in H as (t1 & t2 & -> & H1 & H2).
      exists (x :: xs ++ t1), t2. cbn [app]. rewrite <- app_assoc.
      repeat split; auto. exists x, xs, t1. auto.
    + intros [H | (x & t' & -> & Hx & H)];
        apply IH in H as (t1 & t2 & -> & H1 & H2).
      * exists t1, t2. auto.
      * exists (x :: t1), t2. repeat split; auto. right. eauto.
    + intros (xs & t' & -> & Hxs & H).
      apply IH in H as (t1 & t2 & -> & H1 & H2).
      exists (xs ++ t1), t2. rewrite <- app_assoc. eauto 8.
Qed.

Lemma last_matches (a : atom) (y : N) (xs : jsstring) (t1 : jsstring) :
  atom_matches a y = false ->
  Forall (fun x => atom_matches a x = true) xs ->
  xs <> [] ->
  ends_not y (t1 ++ xs).
Proof.
  intros Hy Hxs Hne.
  destruct (exists_last Hne) as (xs' & z & ->).
  apply Forall_app in Hxs as [_ Hz]. inversion Hz; subst.
  exists (t1 ++ xs'), z. rewrite <- app_assoc. split; [reflexivity|].
  intros ->. congruence.
Qed.

(** The last item that must consume a character decides how a match
    can end. *)
Lemma ends_sound (y : N) (its : list item) :
  forall t, may_end_with (rev its) y = false -> lang its t -> ends_not y t.
Proof.
  induction its as [|it its IH] using rev_ind; intros t; [discriminate|].
  rewrite rev_app_distr. cbn [rev app]. intros He Hl.
  apply lang_app_elim in Hl as (t1 & t2 & -> & H1 & H2).
  destruct it as [a [] | | | |]; cbn [may_end_with] in He; cbn [lang] in H2.
  - destruct H2 as (x & t' & -> & Hx & ->).
    apply (last_matches a y [x] t1 He); [now constructor | discriminate].
  - destruct H2 as (xs & t' & -> & Hxs & ->). rewrite app_nil_r.
    apply orb_false_iff in He as [Ha He].
    destruct xs as [|x xs]; [rewrite app_nil_r; now apply IH|].
    apply (last_matches a y _ t1 Ha Hxs). discriminate.
  - destruct H2 as (x & xs & t' & -> & Hx & Hxs & ->). rewrite app_nil_r.
    apply (last_matches a y (x :: xs) t1 He); [now constructor | discriminate].
  - apply orb_false_iff in He as [Ha He].
    destruct H2 as [-> | (x & t' & -> & Hx & ->)];
      [rewrite app_nil_r; now apply IH|].
    apply (last_matches a y [x] t1 Ha); [now constructor | discriminate].
  - destruct H2 as (xs & t' & -> & Hxs & ->). rewrite app_nil_r.
    apply orb_false_iff in He as [Ha He].
    destruct xs as [|x xs]; [rewrite app_nil_r; now apply IH|].
    apply (last_matches a y _ t1 Ha Hxs). discriminate.
  - subst t2. rewrite app_nil_r. now apply IH.
  - subst t2. rewrite app_nil_r. now apply IH.
  - subst t2. rewrite app_nil_r. now apply IH.
  - subst t2. rewrite app_nil_r. now apply IH.
Qed.

Lemma ends_differ (y : N) (A A' u t Z : jsstring) :
  ends_not y t -> A' ++ (u ++ [y]) ++ Z <> A ++ t ++ Z.
Proof.
  intros (t' & x & -> & Hx) E.
  rewrite !app_assoc in E. apply app_inv_tail in E.
  apply app_inj_tail in E as [_ E]. congruence.
Qed.

Section Changes.
Variable re : RegExp.t.
Variable rp : replacement.
Variable c : jsstring.
Variable y : N.
Hypothesis Hends : forall t, lang (items re) t -> ends_not y t.
Hypothesis Hto :
  forall bef prev s r,
    m (multiline re) (items re) prev s = Some r ->
    exists u, replacement_text rp c bef r = u ++ [y].

(** With a match in the text, the replace changes the text. *)
Lemma replace_changes : test re c = true -> replace re rp c <> c.
Proof.
  intros Ht.
  assert (Hs : search (multiline re) (items re) [] c <> None).
  { unfold test, exec in Ht. now destruct (search _ _ [] c). }
  unfold replace. destruct (global re).
  - destruct (rg_last re rp c (length c) c [] (le_n _) Hs)
      as (A & A' & bef' & s' & r & Z & Hin & Hout & Hm).
    rewrite Hout. rewrite Hin at 2.
    destruct (Hto bef' _ _ _ Hm) as (u & ->).
    apply ends_differ, Hends. exact (m_lang _ _ _ _ _ Hm).
  - unfold replace_first, exec.
    destruct (search (multiline re) (items re) [] c) as [[bef r]|] eqn:E;
      [|congruence].
    destruct (search_some _ _ _ _ _ _ E) as (pre & suf & Hc & Hb & Hm & _).
    pose proof (m_sound _ _ _ _ _ Hm) as Hsuf.
    rewrite Hc at 2. rewrite Hsuf, Hb, app_nil_r, rev_involutive.
    destruct (Hto (rev pre) _ _ _ Hm) as (u & Hu).
    rewrite app_nil_r in Hb. subst bef. rewrite Hu.
    apply ends_differ, Hends. exact (m_lang _ _ _ _ _ Hm).
Qed.

End Changes.

(** With a match in the text, the new text holds the replacement of a
    match, and the old text the match, before the same rest. *)
Lemma replace_holds (re : RegExp.t) (rp : replacement) (c : jsstring) :
  test re c = true ->
  exists A A' Z bef prev s r,
    m (multiline re) (items re) prev s = Some r /\
    c = A ++ mtext r ++ Z /\
    replace re rp c = A' ++ replacement_text rp c bef r ++ Z.
Proof.
  intros Ht.
  assert (Hs : search (multiline re) (items re) [] c <> None).
  { unfold test, exec in Ht. now destruct (search _ _ [] c). }
  unfold replace. destruct (global re).
  - destruct (rg_last re rp c (length c) c [] (le_n _) Hs)
      as (A & A' & bef' & s' & r & Z & Hin & Hout & Hm).
    exists A, A', Z, bef', (hd_error bef'), s', r. auto.
  - unfold replace_first, exec.
    destruct (search (multiline re) (items re) [] c) as [[bef r]|] eqn:E;
      [|congruence].
    destruct (search_some _ _ _ _ _ _ E) as (pre & suf & Hc & Hb & Hm & _).
    pose proof (m_sound _ _ _ _ _ Hm) as Hsuf.
    rewrite app_nil_r in Hb.
    exists pre, pre, (mrest r), bef, (hd_error bef), suf, r.
    split; [exact Hm|]. split; [now rewrite Hc, Hsuf|].
    now rewrite Hb, rev_involutive.
Qed.

(** The loop up to the first match. *)
Lemma rg_first (re : RegExp.t) (rp : replacement) (whole : jsstring) :
  forall s bef bef' r,
    search (multiline re) (items re) bef s = Some (bef', r) ->
    exists pre W,
      s = pre ++ mtext r ++ mrest r /\
      replace_global re rp whole 0 bef s =
      pre ++ replacement_text rp whole bef' r ++ W.
Proof.
  induction s as [|x s IH]; intros bef bef' r; cbn [search].
  - destruct (m (multiline re) (items re) (hd_error bef) []) as [r0|] eqn:E;
      [|discriminate].
    intros [= <- <-]. exists [], []. cbn [replace_global app].
    rewrite E. split; [exact (m_sound _ _ _ _ _ E)|reflexivity].
  - destruct (m (multiline re) (items re) (hd_error bef) (x :: s))
      as [r0|] eqn:E.
    + intros [= <- <-]. exists []. cbn [replace_global app]. rewrite E.
      eexists. split; [exact (m_sound _ _ _ _ _ E)|reflexivity].
    + intros H. apply IH in H as (pre & W & -> & Hout).
      exists (x :: pre), W. split; [reflexivity|].
      rewrite (rg_none _ _ _ _ _ _ E), Hout. reflexivity.
Qed.

Lemma lang_head (its : list item) :
  forall t, lang its t -> exists t', t = head_of its ++ t'.
Proof.
  induction its as [|it its IH]; intros t; cbn [head_of].
  - intros _. now exists t.
  - destruct it as [[[c| | | |]| |] []| | | |]; cbn [lang];
      try (intros _; now exists t); try apply IH.
    intros (x & t' & -> & Hx & H). cbn in Hx. apply N.eqb_eq in Hx. subst x.
    apply IH in H as (t'' & ->). now exists t''.
Qed.

Lemma clash_differ (a b : jsstring) :
  clash a b = true -> forall X Y, a ++ X <> b ++ Y.
Proof.
  revert b. induction a as [|x a IH]; intros [|y b]; cbn [clash];
    try discriminate.
  intros H X Y E. cbn [app] in E. injection E as -> E.
  rewrite N.eqb_refl in H. cbn [negb orb] in H. exact (IH b H X Y E).
Qed.

(** A global replace by a plain text that no match can share a start
    with changes the text. *)
Lemma prefix_changes (re : RegExp.t) (to c : jsstring) :
  global re = true ->
  plain_text to = true ->
  (forall t X Y, lang (items re) t -> to ++ X <> t ++ Y) ->
  test re c = true ->
  replace re (ReplString to) c <> c.
Proof.
  intros Hg Hp Hclash Ht. rewrite (replace_with_g _ _ _ Hg).
  unfold test, exec in Ht.
  destruct (search (multiline re) (items re) [] c) as [[bef r]|] eqn:E;
    [clear Ht|discriminate].
  destruct (search_some _ _ _ _ _ _ E) as (pre0 & suf & _ & _ & Hm & _).
  destruct (rg_first re (ReplString to) c _ _ _ _ E) as (pre & W & Hc & ->).
  rewrite Hc at 2. cbn [replacement_text].
  rewrite getSubstitution_plain by exact Hp.
  intros Heq. apply app_inv_head in Heq.
  exact (Hclash _ _ _ (m_lang _ _ _ _ _ Hm) Heq).
Qed.

(** The same when the text differs from the literal head of the
    pattern at some position. *)
Lemma head_changes (re : RegExp.t) (to c : jsstring) :
  global re = true ->
  plain_text to = true ->
  clash to (head_of (items re)) = true ->
  test re c = true ->
  replace re (ReplString to) c <> c.
Proof.
  intros Hg Hp Hclash. apply prefix_changes; [exact Hg|exact Hp|].
  intros t X Y Hl Heq. destruct (lang_head _ _ Hl) as (t' & Ht').
  rewrite Ht', <- app_assoc in Heq.
  exact (clash_differ _ _ Hclash _ _ Heq).
Qed.

(** Two texts that are equal stop at the same place: the first
    character outside a class. *)
Lemma first_stop (P : N -> bool) (a a' : jsstring) (p p' : N)
      (b b' : jsstring) :
  Forall (fun x => P x = true) a -> Forall (fun x => P x = true) a' ->
  P p = false -> P p' = false ->
  a ++ p :: b = a' ++ p' :: b' ->
  a = a' /\ p = p' /\ b = b'.
Proof.
  intros Ha. revert a'. induction Ha as [|x a Hx _ IH]; intros a' Ha' Hp Hp' E.
  - destruct Ha' as [|x' a' Hx' _]; cbn [app] in E.
    + now injection E as -> ->.
    + injection E as -> _. congruence.
  - destruct Ha' as [|x' a' Hx' Ha']; cbn [app] in E.
    + injection E as -> _. congruence.
    + injection E as -> E. destruct (IH a' Ha' Hp Hp' E) as (-> & -> & ->).
      auto.
Qed.

(** Two texts with the same start [H] and the same middle part
    [M1 q M2], after a run of the class [P] that [q] ends: when they
    are equal up to the end of one of them, what follows [M2] after
    white space is the same character in both. *)
Lemma versioned_differ (P : N -> bool) (H V X M1 : jsstring) (q : N)
      (M2 S sp : jsstring) (c1 v1 : N) (N2 V2 W Y : jsstring) :
  Forall (fun x => P x = true) V ->
  Forall (fun x => P x = true) X ->
  Forall (fun x => P x = true) M1 ->
  P q = false ->
  Forall (fun x => is_space x = true) S ->
  Forall (fun x => is_space x = true) sp ->
  is_space c1 = false -> is_space v1 = false -> c1 <> v1 ->
  H ++ V ++ M1 ++ q :: M2 ++ S ++ c1 :: N2 ++ W <>
  H ++ X ++ M1 ++ q :: M2 ++ sp ++ v1 :: V2 ++ Y.
Proof.
  intros HV HX HM Hq HS Hsp Hc Hv Hcv E.
  apply app_inv_head in E. rewrite !(app_assoc _ M1) in E.
  apply (first_stop P) in E as (_ & _ & E);
    [|apply Forall_app; auto|apply Forall_app; auto|assumption..].
  apply app_inv_head in E.
  apply (first_stop is_space) in E as (_ & E & _); auto.
Qed.

(** A plain replacement that names one version where the pattern takes
    any run of the class [[^q]], and that goes on after the common
    middle part and white space with another character than the
    pattern does, shares no start with a match. *)
Lemma versioned_changes (re : RegExp.t) (to : jsstring)
      (H V M1 : jsstring) (q : N) (M2 S : jsstring) (c1 : N)
      (N2 : jsstring) (its : list item) (v1 : N) (V2 : jsstring) :
  items re =
    lit H ++ IAtom (AClass true [CLit q]) Plus ::
    lit (M1 ++ q :: M2) ++ IAtom (AChar C_s) Star :: its ->
  head_of its = v1 :: V2 ->
  to = H ++ V ++ M1 ++ q :: M2 ++ S ++ c1 :: N2 ->
  forallb (fun x => negb (N.eqb q x)) (V ++ M1) = true ->
  forallb is_space S = true ->
  is_space c1 = false -> is_space v1 = false -> c1 <> v1 ->
  forall t X Y, lang (items re) t -> to ++ X <> t ++ Y.
Proof.
  intros Hits Hhead Hto HVM HS Hc1 Hv1 Hcv t X Y Hl.
  rewrite Hits in Hl. apply lang_lit in Hl as (t1 & -> & Hl).
  cbn [lang] in Hl. destruct Hl as (x & xs & t2 & -> & Hx & Hxs & Hl).
  apply lang_lit in Hl as (t3 & -> & Hl). cbn [lang] in Hl.
  destruct Hl as (sp & t4 & -> & Hsp & Hl).
  destruct (lang_head _ _ Hl) as (t5 & ->). rewrite Hhead, Hto.
  assert (Hq : forall a, atom_matches (AClass true [CLit q]) a = true ->
                         negb (N.eqb q a) = true).
  { intros a Ha. cbn in Ha. now rewrite orb_false_r in Ha. }
  assert (HVM' : Forall (fun x => negb (N.eqb q x) = true) (V ++ M1)).
  { apply Forall_forall. now apply forallb_forall. }
  apply Forall_app in HVM' as [HV HM1].
  repeat (rewrite <- app_assoc || rewrite <- app_comm_cons).
  change (H ++ V ++ M1 ++ q :: M2 ++ S ++ c1 :: N2 ++ X <>
          H ++ (x :: xs) ++ M1 ++ q :: M2 ++ sp ++ v1 :: V2 ++ t5 ++ Y).
  apply (versioned_differ (fun x => negb (N.eqb q x))); auto.
  - constructor; [now apply Hq|].
    eapply Forall_impl; [|exact Hxs]. exact Hq.
  - now rewrite N.eqb_refl.
  - apply Forall_forall. now apply forallb_forall.
Qed.

(** A replace that puts every match back leaves the text as it is. *)
Lemma rg_same (re : RegExp.t) (rp : replacement) (whole : jsstring) :
  (forall bef prev s r,
     m (multiline re) (items re) prev s = Some r ->
     replacement_text rp whole bef r = mtext r) ->
  forall n s bef,
    length s <= n -> replace_global re rp whole 0 bef s = s.
Proof.
  intros Hsame. induction n as [|n IH]; intros s bef Hlen.
  - destruct s; [|cbn in Hlen; lia]. cbn [replace_global].
    destruct (m (multiline re) (items re) (hd_error bef) []) as [r|] eqn:E;
      [|reflexivity].
    rewrite (Hsame _ _ _ _ E), app_nil_r.
    pose proof (m_sound _ _ _ _ _ E) as Hs. symmetry in Hs.
    now apply app_eq_nil in Hs as [-> _].
  - destruct (m (multiline re) (items re) (hd_error bef) s) as [r|] eqn:E.
    + pose proof (m_sound _ _ _ _ _ E) as Hs.
      destruct (mtext r) as [|x mt] eqn:Et.
      * destruct s as [|y s].
        -- cbn [replace_global]. rewrite E, (Hsame _ _ _ _ E), Et.
           reflexivity.
        -- rewrite (rg_empty_match _ _ _ _ _ _ _ E Et), (Hsame _ _ _ _ E), Et.
           cbn [app]. f_equal. apply IH. cbn in Hlen. lia.
      * assert (Hne : mtext r <> []) by (rewrite Et; discriminate).
        rewrite (rg_match _ _ _ _ _ _ E Hne), (Hsame _ _ _ _ E).
        rewrite IH; [now rewrite Hs, Et|].
        rewrite Hs, length_app in Hlen. cbn in Hlen. lia.
    + destruct s as [|y s]; [cbn [replace_global]; now rewrite E|].
      rewrite (rg_none _ _ _ _ _ _ E). f_equal. apply IH.
      cbn in Hlen. lia.
Qed.

Lemma replace_same (re : RegExp.t) (rp : replacement) (c : jsstring) :
  (forall bef prev s r,
     m (multiline re) (items re) prev s = Some r ->
     replacement_text rp c bef r = mtext r) ->
  replace re rp c = c.
Proof.
  intros Hsame. unfold replace. destruct (global re).
  - now apply (rg_same re rp c Hsame (length c)).
  - unfold replace_first, exec.
    destruct (search (multiline re) (items re) [] c) as [[bef r]|] eqn:E;
      [|reflexivity].
    destruct (search_some _ _ _ _ _ _ E) as (pre & suf & Hc & Hb & Hm & _).
    rewrite (Hsame _ _ _ _ Hm), Hb, app_nil_r, rev_involutive.
    now rewrite <- (m_sound _ _ _ _ _ Hm).
Qed.

(** A match stays a match inside a longer text, when the pattern has
    no assertion. *)
Lemma has_match_context (re : RegExp.t) (A s Z : jsstring) :
  assertion_free (items re) = true ->
  has_match re s -> has_match re (A ++ s ++ Z).
Proof.
  intros Haf (pre & suf & -> & Hm).
  destruct (m (multiline re) (items re) (hd_error (rev pre)) suf)
    as [r|] eqn:E; [clear Hm|now contradiction Hm].
  pose proof (m_sound _ _ _ _ _ E) as Hs.
  pose proof (m_lang _ _ _ _ _ E) as Hl.
  rewrite Hs.
  replace (A ++ (pre ++ mtext r ++ mrest r) ++ Z)
    with ((A ++ pre) ++ mtext r ++ (mrest r ++ Z))
    by (now rewrite <- !app_assoc).
  now apply has_match_intro.
Qed.

End EndFacts.

(** ** Every rule changes what it matches *)

Module RuleFacts.
Import MatchDefs MatchFacts GroupFacts CompleteFacts ReplaceFacts EndFacts.
Import CapsFacts.

Lemma plain_changes (r : rule) (y : N) (to' : jsstring) :
  plain_text (rule_to r) = true ->
  rule_to r = to' ++ [y] ->
  may_end_with (rev (items (pattern_of (rule_pattern r)))) y = false ->
  rule_changes r.
Proof.
  intros Hp Hto He c. apply (replace_changes _ _ c y).
  - intros t. now apply ends_sound.
  - intros bef prev s r' _. exists to'. cbn [replacement_text].
    rewrite getSubstitution_plain by exact Hp. exact Hto.
Qed.

Lemma caps_changes (r : rule) (y : N) (F1 F F' : jsstring) :
  count_open (items (pattern_of (rule_pattern r))) = 1 ->
  (forall mt bef aft w,
     getSubstitution mt bef aft [w] (rule_to r) = F1 ++ w ++ F) ->
  F = F' ++ [y] ->
  may_end_with (rev (items (pattern_of (rule_pattern r)))) y = false ->
  rule_changes r.
Proof.
  intros Hn Hsub HF He c. apply (replace_changes _ _ c y).
  - intros t. now apply ends_sound.
  - intros bef prev s r' Hm.
    destruct (m_caps_one _ _ _ _ _ Hn Hm) as (m1 & w & m2 & Hcaps & _).
    exists (F1 ++ w ++ F'). cbn [replacement_text].
    rewrite Hcaps, Hsub, HF, <- !app_assoc. reflexivity.
Qed.

Lemma clash_changes (r : rule) :
  global (pattern_of (rule_pattern r)) = true ->
  plain_text (rule_to r) = true ->
  clash (rule_to r) (head_of (items (pattern_of (rule_pattern r)))) = true ->
  rule_changes r.
Proof. intros Hg Hp Hc c. now apply head_changes. Qed.

(** A text of the class, as a list that computes. *)
Lemma Forall_forallb (P : N -> bool) (l : jsstring) :
  forallb P l = true -> Forall (fun x => P x = true) l.
Proof. intros H. apply Forall_forall. now apply forallb_forall. Qed.

(** The two dotenv rules: the replacement names the version 16.4.5
    where the pattern takes any, and goes on with a comment where the
    pattern goes on with code. *)
Lemma dotenv_options_changes :
  rule_changes (mkRule n_dotenv_options dotenv_options_re dotenv_options_to).
Proof.
  intros c. apply prefix_changes; [reflexivity|vm_compute; reflexivity|].
  apply (versioned_changes _ _
           ([DQ] ++ str "../node_modules/.pnpm/dotenv@") (str "16.4.5")
           (str "/node_modules/dotenv/lib/env-options.js") DQ
           (str "(exports2, module2) {") [NL; 32; 32; 32; 32]%N (ch "/")
           (str "/ PATCHED: Skip DOTENV_CONFIG_* env checks for Deno" ++
            [NL] ++ str "    module2.exports = {};" ++ [NL] ++
            str "    return;" ++ [NL] ++ str "    var options = {};")
           (lit (str "var options = {};")) (ch "v")
           (str "ar options = {};"));
    vm_compute; (reflexivity || discriminate).
Qed.

Lemma dotenv_config_changes :
  rule_changes (mkRule n_dotenv_config dotenv_config_re dotenv_config_to).
Proof.
  intros c. apply prefix_changes; [reflexivity|vm_compute; reflexivity|].
  apply (versioned_changes _ _
           (str "// ../node_modules/.pnpm/dotenv@") (str "16.4.5")
           [] (ch "/") (str "node_modules/dotenv/config.js") [NL] (ch "/")
           (str "/ PATCHED: Skip dotenv auto-config for Deno" ++ [NL] ++
            str "(function() { return; require_main().config(")
           (lit (str "(function() {") ++ [ws] ++
            lit (str "require_main().config(")) (ch "(")
           (str "function() {"));
    vm_compute; (reflexivity || discriminate).
Qed.

Lemma rules_change : Forall rule_changes RULES.
Proof.
  unfold RULES.
  repeat (apply Forall_cons;
          [first
             [ match goal with
               | |- rule_changes ?r =>
                   apply (plain_changes r (last (rule_to r) 0%N)
                            (removelast (rule_to r)));
                   vm_compute; reflexivity
               end
             | apply clash_changes; vm_compute; reflexivity
             | exact dotenv_options_changes
             | exact dotenv_config_changes
             | match goal with
               | |- rule_changes ?r =>
                   apply (caps_changes r
                            (last (rule_to r) 0%N)
                            (str "const required = await import(")
                            (str "); // PATCHED: import for Deno TS support")
                            (removelast
                               (str "); // PATCHED: import for Deno TS support")));
                   [vm_compute; reflexivity
                   |intros; vm_compute; reflexivity
                   |vm_compute; reflexivity ..]
               end
             | match goal with
               | |- rule_changes ?r =>
                   apply (caps_changes r
                            (last (rule_to r) 0%N)
                            (str "const i0 = await import(")
                            (str "); // PATCHED: import for Deno TS support")
                            (removelast
                               (str "); // PATCHED: import for Deno TS support")));
                   [vm_compute; reflexivity
                   |intros; vm_compute; reflexivity
                   |vm_compute; reflexivity ..]
               end
             | match goal with
               | |- rule_changes ?r =>
                   apply (caps_changes r
                            (last (rule_to r) 0%N) []
                            (str ".then(() => { setTimeout(() => process.exit(0), 50); }); // PATCHED: force exit for Deno")
                            (removelast
                               (str ".then(() => { setTimeout(() => process.exit(0), 50); }); // PATCHED: force exit for Deno")));
                   [vm_compute; reflexivity
                   |intros; vm_compute; reflexivity
                   |vm_compute; reflexivity ..]
               end
             ] |]).
  apply Forall_nil.
Qed.

Lemma rule_changes_In (r : rule) : In r RULES -> rule_changes r.
Proof. intros H. exact (proj1 (Forall_forall _ _) rules_change r H). Qed.

(** A rule is applied exactly when its pattern has a match. *)
Lemma apply_rule_iff (r : rule) (c : jsstring) :
  rule_changes r ->
  apply_rule r c =
  if test (pattern_of (rule_pattern r)) c
  then (replace (pattern_of (rule_pattern r)) (ReplString (rule_to r)) c,
        mkResult (rule_name r) true None)
  else (c, mkResult (rule_name r) false (Some (str "Pattern not found"))).
Proof.
  intros Hch. unfold apply_rule, applyPatch.
  change (match rule_pattern r with
          | PRegExp r0 => r0
          | PString s => of_escaped s
          end) with (pattern_of (rule_pattern r)).
  destruct (test (pattern_of (rule_pattern r)) c) eqn:Ht; [|reflexivity].
  cbn [negb].
  destruct (JS.eqb _ c) eqn:E; [|reflexivity].
  apply eqb_eq in E. now apply Hch in E.
Qed.

Lemma literal_of_lit (its : list item) (P : jsstring) :
  literal_of its = Some P -> its = lit P.
Proof.
  revert P. induction its as [|it its IH]; intros P; cbn [literal_of].
  - now intros [= <-].
  - destruct it as [[[c| | | |]| |] []| | | |]; try discriminate.
    destruct (literal_of its) as [P'|]; [|discriminate].
    intros [= <-]. cbn [lit map]. now rewrite (IH P' eq_refl).
Qed.

Lemma test_literal (re : RegExp.t) (P c : jsstring) :
  literal_of (items re) = Some P -> test re c = JS.includes P c.
Proof.
  intros H. apply literal_of_lit in H. destruct re as [its g ml].
  cbn [items] in H. subst its. apply test_lit.
Qed.

End RuleFacts.

(** ** The locator *)

Lemma first_file_filter (l : list WalkEntry) :
  (first_file (filter (fun e => test bin_re (path e)) l) = None <->
   forall e, In e l -> candidate e = false) /\
  (forall p v,
     first_file (filter (fun e => test bin_re (path e)) l) = Some (p, v) <->
     exists before e after,
       l = before ++ e :: after /\ candidate e = true /\
       (forall e', In e' before -> candidate e' = false) /\
       p = path e /\ v = extract_version p).
Proof.
  induction l as [|e l [IHn IHs]]; cbn [filter].
  - split; [split; [intros _ e []|reflexivity]|].
    intros p v. split; [discriminate|].
    intros (before & e & after & H & _). now destruct before.
  - assert (Hskip : candidate e = false ->
              first_file (if test bin_re (path e)
                          then e :: filter (fun e => test bin_re (path e)) l
                          else filter (fun e => test bin_re (path e)) l) =
              first_file (filter (fun e => test bin_re (path e)) l)).
    { unfold candidate. destruct (test bin_re (path e)); [|reflexivity].
      cbn [andb first_file]. now intros ->. }
    destruct (candidate e) eqn:Hc.
    + assert (Hhit : first_file
                (if test bin_re (path e)
                 then e :: filter (fun e => test bin_re (path e)) l
                 else filter (fun e => test bin_re (path e)) l) =
                Some (path e, extract_version (path e))).
      { unfold candidate in Hc. apply andb_true_iff in Hc as [-> Hf].
        cbn [first_file]. now rewrite Hf. }
      rewrite Hhit. split.
      * split; [discriminate|]. intros H.
        rewrite (H e (or_introl eq_refl)) in Hc. discriminate.
      * intros p v. split.
        -- intros H. injection H as <- <-.
           exists [], e, l. repeat split; auto. intros e' [].
        -- intros (before & e0 & after & H & Hc0 & Hb & -> & ->).
           destruct before as [|b before]; cbn [app] in H.
           ++ now injection H as <- _.
           ++ injection H as <- _.
              rewrite (Hb e (or_introl eq_refl)) in Hc. discriminate.
    + rewrite (Hskip eq_refl). split.
      * rewrite IHn. split.
        -- intros H e' [<- | Hin]; auto.
        -- intros H e' Hin. apply H. now right.
      * intros p v. rewrite IHs. split.
        -- intros (before & e0 & after & -> & Hc0 & Hb & Hp & Hv).
           exists (e :: before), e0, after. repeat split; auto.
           intros e' [<- | Hin]; auto.
        -- intros (before & e0 & after & H & Hc0 & Hb & Hp & Hv).
           destruct before as [|b before]; cbn [app] in H.
           ++ injection H as <- _. rewrite Hc0 in Hc. discriminate.
           ++ injection H as <- ->. exists before, e0, after.
              repeat split; auto. intros e' Hin. apply Hb. now right.
Qed.

(** X1 — [findDrizzleKitBin].  The function returns the first entry
    that [walk] yields whose path matches the pattern and that is a
    file, together with the version read off that path.  When [walk]
    yields no such entry, the function returns null if [walk] comes to
    its end and ends with the exception uncaught if [walk] throws.  It
    prints and writes nothing. *)
Theorem findDrizzleKitBin_first (w : world) :
  snd (findDrizzleKitBin w) = w /\
  (forall p v,
     fst (findDrizzleKitBin w) = Normal (Some (p, v)) <->
     exists before e after,
       tree w = before ++ e :: after /\ candidate e = true /\
       (forall e', In e' before -> candidate e' = false) /\
       p = path e /\ v = extract_version p) /\
  (fst (findDrizzleKitBin w) = Normal None <->
   (forall e, In e (tree w) -> candidate e = false) /\
   walk_throws (sys w) = false) /\
  (fst (findDrizzleKitBin w) = Uncaught <->
   (forall e, In e (tree w) -> candidate e = false) /\
   walk_throws (sys w) = true).
Proof.
  destruct (first_file_filter (tree w)) as [Hn Hs].
  unfold findDrizzleKitBin.
  destruct (first_file (filter (fun e => test bin_re (path e)) (tree w)))
    as [[p0 v0]|] eqn:E.
  - cbn [fst snd]. split; [reflexivity|]. split; [|split].
    + intros p v. rewrite <- Hs.
      split; [now intros [= -> ->] | now intros [= -> ->]].
    + split; [discriminate|]. intros [H _].
      apply Hn in H. discriminate.
    + split; [discriminate|]. intros [H _].
      apply Hn in H. discriminate.
  - assert (Hnone : forall e, In e (tree w) -> candidate e = false)
      by now apply Hn.
    destruct (walk_throws (sys w)); cbn [fst snd];
      (split; [reflexivity|]); (split; [|split]);
      try (intros p v; rewrite <- Hs); split;
      try discriminate; try (intros [_ H]; discriminate H); auto.
Qed.

Lemma findDrizzleKitBin_first_witness :
  fst (findDrizzleKitBin (mkWorld Sample.plain (Sample.tree_of Sample.bin)
                                  (Sample.disk_of Sample.bin Sample.bundle)
                                  [])) =
  Normal (Some (Sample.bin, str "0.31.8")).
Proof.
  apply (proj1 (proj2 (findDrizzleKitBin_first _))).
  exists [mkEntry (str "node_modules/drizzle-kit") false],
         (mkEntry Sample.bin true), [].
  split; [reflexivity|]. split; [vm_compute; reflexivity|].
  split; [|split; vm_compute; reflexivity].
  intros e' [<- | []]. vm_compute. reflexivity.
Defined.

Lemma bin_re_items :
  items bin_re =
  (lit (str "drizzle-kit") ++ [IAtom ADot Star] ++ lit (str "/bin.cjs")) ++
  [IEol].
Proof. vm_compute. reflexivity. Qed.

Lemma bin_re_lang (t : jsstring) :
  lang (lit (str "drizzle-kit") ++ [IAtom ADot Star] ++
        lit (str "/bin.cjs")) t <->
  exists x, t = str "drizzle-kit" ++ x ++ str "/bin.cjs" /\
            Forall (fun c => is_line_terminator c = false) x.
Proof.
  rewrite MatchFacts.lang_lit. cbn [app MatchDefs.lang]. split.
  - intros (t' & -> & xs & t'' & -> & Hxs & H).
    apply CompleteFacts.lang_lit_only in H. subst t''.
    exists xs. split; [reflexivity|].
    eapply Forall_impl; [|exact Hxs]. intros c Hc. cbn in Hc.
    now apply negb_true_iff in Hc.
  - intros (x & -> & Hx). eexists. split; [reflexivity|].
    exists x, (str "/bin.cjs"). split; [reflexivity|]. split.
    + eapply Forall_impl; [|exact Hx]. intros c Hc. cbn. now rewrite Hc.
    + apply CompleteFacts.lang_lit_self.
Qed.

(** A path the pattern of the locator accepts ends the match with
    the path. *)
Lemma bin_path_sound (p : jsstring) :
  test bin_re p = true ->
  exists a x,
    p = a ++ str "drizzle-kit" ++ x ++ str "/bin.cjs" /\
    Forall (fun c => is_line_terminator c = false) x.
Proof.
  intros Ht. apply MatchFacts.test_true in Ht as (pre & suf & -> & Hm).
  change (multiline bin_re) with false in Hm.
  destruct (m false (items bin_re) (hd_error (rev pre)) suf) as [r|] eqn:E;
    [clear Hm|now contradiction Hm].
  pose proof (MatchFacts.m_sound _ _ _ _ _ E) as Hs.
  pose proof (MatchFacts.m_lang _ _ _ _ _ E) as Hl.
  rewrite bin_re_items in E. apply GroupFacts.m_to_end in E.
  rewrite E, app_nil_r in Hs. subst suf.
  assert (Hl' : MatchDefs.lang
                  (lit (str "drizzle-kit") ++ [IAtom ADot Star] ++
                   lit (str "/bin.cjs")) (mtext r)).
  { clear -Hl. revert Hl. rewrite bin_re_items.
    generalize (lit (str "drizzle-kit") ++ [IAtom ADot Star] ++
                lit (str "/bin.cjs")).
    intros l. generalize (mtext r). induction l as [|it l IH]; intros t.
    - exact (fun H => H).
    - cbn [app MatchDefs.lang]. destruct it as [a [] | | | |]; auto.
      + intros (x & t' & ? & ? & ?). eauto 6.
      + intros (xs & t' & ? & ? & ?). eauto 6.
      + intros (x & xs & t' & ? & ? & ? & ?). eauto 8.
      + intros [? | (x & t' & ? & ? & ?)]; [auto | right; eauto 6].
      + intros (xs & t' & ? & ? & ?). eauto 6. }
  apply bin_re_lang in Hl' as (x & -> & Hx). now exists pre, x.
Qed.

(** Every path of that shape is accepted. *)
Lemma bin_path_complete (a x : jsstring) :
  Forall (fun c => is_line_terminator c = false) x ->
  test bin_re (a ++ str "drizzle-kit" ++ x ++ str "/bin.cjs") = true.
Proof.
  intros Hx. apply MatchFacts.test_true.
  apply (CompleteFacts.has_match_at_end bin_re _ a _ bin_re_items).
  - vm_compute. reflexivity.
  - apply bin_re_lang. now exists x.
Qed.

(** X2 — the paths the locator accepts.  A path matches the pattern of
    [findDrizzleKitBin] exactly when it ends with [/bin.cjs] and has
    [drizzle-kit] somewhere before that, with no line terminator in
    between. *)
Theorem bin_path_shape (p : jsstring) :
  test bin_re p = true <->
  exists a x,
    p = a ++ str "drizzle-kit" ++ x ++ str "/bin.cjs" /\
    Forall (fun c => is_line_terminator c = false) x.
Proof.
  split.
  - apply bin_path_sound.
  - intros (a & x & -> & Hx). now apply bin_path_complete.
Qed.

Lemma bin_path_shape_witness : test bin_re Sample.bin = true.
Proof.
  apply (proj2 (bin_path_shape Sample.bin)).
  exists (str "node_modules/.deno/"),
         (str "@0.31.8/node_modules/drizzle-kit").
  split; [reflexivity|]. vm_compute.
  repeat (constructor; [reflexivity|]). constructor.
Defined.

Lemma version_re_items :
  items version_re =
  lit (str "drizzle-kit@") ++
  IOpen :: [IAtom (AChar C_d) Plus; IAtom (AChar (CLit 46)) One;
            IAtom (AChar C_d) Plus; IAtom (AChar (CLit 46)) One;
            IAtom (AChar C_d) Plus] ++ IClose :: [].
Proof. vm_compute. reflexivity. Qed.

Lemma version_re_tail :
  items version_re =
  (lit (str "drizzle-kit@") ++
   [IOpen; IAtom (AChar C_d) Plus; IAtom (AChar (CLit 46)) One;
    IAtom (AChar C_d) Plus; IAtom (AChar (CLit 46)) One]) ++
  [IAtom (AChar C_d) Plus; IClose].
Proof. vm_compute. reflexivity. Qed.

Lemma digits_cons (x : jsstring) :
  digits x <->
  exists c cs, x = c :: cs /\ is_digit c = true /\
               Forall (fun c => is_digit c = true) cs.
Proof.
  unfold digits. split.
  - intros [Hne H]. destruct x as [|c cs]; [contradiction|].
    inversion H; subst. eauto.
  - intros (c & cs & -> & Hc & Hcs). split; [discriminate|].
    now constructor.
Qed.

(** The texts of the group of the version pattern. *)
Lemma version_body_lang (g : jsstring) :
  MatchDefs.lang [IAtom (AChar C_d) Plus; IAtom (AChar (CLit 46)) One;
                  IAtom (AChar C_d) Plus; IAtom (AChar (CLit 46)) One;
                  IAtom (AChar C_d) Plus] g <->
  exists x y z, g = x ++ str "." ++ y ++ str "." ++ z /\
                digits x /\ digits y /\ digits z.
Proof.
  cbn [MatchDefs.lang]. change (str ".") with [46%N]. split.
  - intros (x & xs & t2 & -> & Hx & Hxs & c1 & t3 & -> & Hc1 &
            y & ys & t4 & -> & Hy & Hys & c2 & t5 & -> & Hc2 &
            z & zs & t6 & -> & Hz & Hzs & ->).
    cbn [atom_matches catom_matches] in Hc1, Hc2.
    apply N.eqb_eq in Hc1, Hc2. subst c1 c2.
    exists (x :: xs), (y :: ys), (z :: zs). rewrite app_nil_r.
    split; [reflexivity|].
    repeat split; try discriminate; constructor; assumption.
  - intros (x & y & z & -> & Hx & Hy & Hz).
    apply digits_cons in Hx as (x0 & xs & -> & Hx0 & Hxs).
    apply digits_cons in Hy as (y0 & ys & -> & Hy0 & Hys).
    apply digits_cons in Hz as (z0 & zs & -> & Hz0 & Hzs).
    exists x0, xs, ([46%N] ++ (y0 :: ys) ++ [46%N] ++ z0 :: zs).
    repeat split; try assumption.
    exists 46%N, ((y0 :: ys) ++ [46%N] ++ z0 :: zs).
    repeat split.
    exists y0, ys, ([46%N] ++ z0 :: zs).
    repeat split; try assumption.
    exists 46%N, (z0 :: zs). repeat split.
    exists z0, zs, []. rewrite app_nil_r. repeat split; assumption.
Qed.

(** Every match of the version pattern. *)
Lemma version_match (prev : option N) (s : jsstring) (r : mres) :
  m false (items version_re) prev s = Some r ->
  exists x y z,
    s = str "drizzle-kit@" ++ x ++ str "." ++ y ++ str "." ++ z ++ mrest r /\
    digits x /\ digits y /\ digits z /\ no_digit_next (mrest r) /\
    mcaps r = [x ++ str "." ++ y ++ str "." ++ z].
Proof.
  intros H.
  pose proof (MatchFacts.m_sound _ _ _ _ _ H) as Hs.
  assert (Hmax : no_digit_next (mrest r)).
  { rewrite version_re_tail in H. exact (GreedyFacts.m_tail_max _ _ _ _ _ _ H). }
  rewrite version_re_items in H.
  apply GroupFacts.m_one_group in H
    as (tp & g & t & Ht & Hcaps & Hp & Hg & Hpost);
    [|apply forallb_forall; intros it Hit; apply in_map_iff in Hit
        as (c & <- & _); reflexivity|reflexivity|reflexivity].
  apply CompleteFacts.lang_lit_only in Hp. cbn [MatchDefs.lang] in Hpost.
  subst tp t. apply version_body_lang in Hg as (x & y & z & -> & Hx & Hy & Hz).
  exists x, y, z. rewrite Hs, Ht, Hcaps, app_nil_r, <- !app_assoc. auto 10.
Qed.

(** The version taken from a match of the version pattern. *)
Lemma version_found (p : jsstring) (bef : jsstring) (r : mres) :
  exec version_re p = Some (bef, r) ->
  exists pre x y z post,
    p = pre ++ str "drizzle-kit@" ++ x ++ str "." ++ y ++
        str "." ++ z ++ post /\
    digits x /\ digits y /\ digits z /\ no_digit_next post /\
    extract_version p = x ++ str "." ++ y ++ str "." ++ z.
Proof.
  intros E. unfold extract_version. rewrite E.
  unfold exec in E. change (multiline version_re) with false in E.
  destruct (MatchFacts.search_some _ _ _ _ _ _ E)
    as (pre & suf & -> & _ & Hm & _).
  apply version_match in Hm as (x & y & z & -> & Hx & Hy & Hz & Hmax & ->).
  exists pre, x, y, z, (mrest r). cbn [nth_error]. auto 10.
Qed.

(** X3 — the version read off a path.  Without a part
    [drizzle-kit@X.Y.Z] in the path the version is "unknown".  With one,
    the version is the text X.Y.Z of such a part, X, Y and Z being runs
    of digits and Z going on as far as the digits go, and it is not
    "unknown". *)
Theorem extract_version_shape (p : jsstring) :
  (~ has_kit_version p -> extract_version p = str "unknown") /\
  (has_kit_version p ->
   exists pre x y z post,
     p = pre ++ str "drizzle-kit@" ++ x ++ str "." ++ y ++ str "." ++ z ++
         post /\
     digits x /\ digits y /\ digits z /\ no_digit_next post /\
     extract_version p = x ++ str "." ++ y ++ str "." ++ z /\
     extract_version p <> str "unknown").
Proof.
  split.
  - intros Hno. destruct (exec version_re p) as [[bef r]|] eqn:E.
    + exfalso. apply Hno.
      destruct (version_found p _ _ E) as (pre & x & y & z & post & H).
      exists pre, x, y, z, post. tauto.
    + unfold extract_version. now rewrite E.
  - intros (pre & x & y & z & post & -> & Hx & Hy & Hz).
    assert (Ht : test version_re
                   (pre ++ str "drizzle-kit@" ++ x ++ str "." ++ y ++
                    str "." ++ z ++ post) = true).
    { apply MatchFacts.test_true.
      replace (str "drizzle-kit@" ++ x ++ str "." ++ y ++ str "." ++ z ++
               post)
        with ((str "drizzle-kit@" ++ x ++ str "." ++ y ++ str "." ++ z) ++
              post) by (now rewrite <- !app_assoc).
      apply CompleteFacts.has_match_intro; [vm_compute; reflexivity|].
      rewrite version_re_items. apply GroupFacts.lang_app_intro.
      - apply CompleteFacts.lang_lit_self.
      - change (MatchDefs.lang
                  [IAtom (AChar C_d) Plus; IAtom (AChar (CLit 46)) One;
                   IAtom (AChar C_d) Plus; IAtom (AChar (CLit 46)) One;
                   IAtom (AChar C_d) Plus]
                  (x ++ str "." ++ y ++ str "." ++ z)).
        apply version_body_lang. now exists x, y, z. }
    unfold test in Ht.
    destruct (exec version_re _) as [[bef r]|] eqn:E; [|discriminate].
    destruct (version_found _ _ _ E)
      as (pre' & x' & y' & z' & post' & Hp & Hx' & Hy' & Hz' & Hmax & Hv).
    exists pre', x', y', z', post'. repeat split; try assumption;
      try apply Hx'; try apply Hy'; try apply Hz'.
    rewrite Hv. apply digits_cons in Hx' as (c & cs & -> & Hc & _).
    intros Heq. injection Heq as -> _. discriminate.
Qed.

Lemma extract_version_shape_witness :
  extract_version Sample.bin_unversioned = str "unknown".
Proof.
  apply (proj1 (extract_version_shape Sample.bin_unversioned)).
  intros (pre & x & y & z & post & H & _).
  assert (Hinc : JS.includes (str "drizzle-kit@") Sample.bin_unversioned = true).
  { apply MatchFacts.includes_iff. exists pre, (x ++ str "." ++ y ++ str "." ++ z ++ post).
    exact H. }
  vm_compute in Hinc. discriminate.
Defined.

(** ** What a run prints and touches *)

Lemma printed_In (l : level) (msg : message) (tr : list event) :
  In msg (printed l tr) <-> In (Console l msg) tr.
Proof.
  induction tr as [|e tr IH]; cbn [printed In]; [tauto|].
  destruct e as [l' msg'|q c'].
  - destruct l, l'; cbn [In]; rewrite IH; intuition congruence.
  - rewrite IH. intuition congruence.
Qed.

Lemma In_preamble (e : event) (v p : jsstring) :
  In e (preamble v p) ->
  e = Console Log (MsgFound v p) \/
  e = Console Warn (MsgMayNotBeCompatible v) \/
  e = Console Warn MsgAttempting.
Proof.
  unfold preamble. destruct (_ && _); cbn [In]; intuition auto.
Qed.

Lemma In_older (e : event) (c : jsstring) :
  In e (older_note c) ->
  exists bef r, exec old_patch_re c = Some (bef, r) /\
                e = Console Log (MsgOlderPatch (nth 0 (mcaps r) [])).
Proof.
  unfold older_note. destruct (exec old_patch_re c) as [[bef r]|];
    cbn [In]; [|tauto].
  intros [<- | []]. eauto.
Qed.

Lemma In_lines (e : event) (rs : list PatchResult) :
  In e (map result_line rs) ->
  exists r, In r rs /\
            e = Console Log (if success r then MsgApplied (name r)
                             else MsgFailed (name r) (error r)).
Proof.
  intros H. apply in_map_iff in H as (r & <- & Hin). now exists r.
Qed.

Lemma located_candidates (h : host) (t : list WalkEntry)
      (d : jsstring -> option jsstring) (tr : list event) :
  located (mkWorld h t d tr) = None <->
  forall e, In e t -> candidate e = false.
Proof. exact (proj1 (first_file_filter t)). Qed.

(** The lines of a run on a located artifact are not the not-found
    line. *)
Lemma found_lines (v p c : jsstring) (results : list PatchResult)
      (rest : list event) :
  ~ In (Console Error MsgNotFound) rest ->
  ~ In (Console Error MsgNotFound)
       (preamble v p ++ older_note c ++ [Console Log MsgPatchResults] ++
        map result_line results ++ rest).
Proof.
  intros Hrest Hin.
  apply in_app_or in Hin as [Hin | Hin];
    [apply In_preamble in Hin; intuition discriminate|].
  apply in_app_or in Hin as [Hin | Hin];
    [apply In_older in Hin as (? & ? & _ & ?); discriminate|].
  apply in_app_or in Hin as [[Hin | []] | Hin]; [discriminate|].
  apply in_app_or in Hin as [Hin | Hin];
    [apply In_lines in Hin as (? & _ & ?); discriminate|].
  now apply Hrest.
Qed.

(** X4 — no artifact.  When [walk] yields no file whose path matches
    the pattern and comes to its end, the run prints the two error
    lines, reads and writes nothing and ends by [Deno.exit(1)].  When
    [walk] throws before it yields one, as it does without a
    [node_modules] directory, the run ends with that exception
    uncaught and prints nothing.  The not-found line is printed in no
    other run than the first kind. *)
Theorem not_found_outcome (h : host) (t : list WalkEntry)
        (d : jsstring -> option jsstring) :
  ((forall e, In e t -> candidate e = false) ->
   (walk_throws h = false ->
    run h t d =
    (Exit 1,
     mkWorld h t d
       [Console Error MsgNotFound; Console Error MsgRunInstall])) /\
   (walk_throws h = true -> run h t d = (Uncaught, mkWorld h t d []))) /\
  (In MsgNotFound (printed Error (trace (snd (run h t d)))) ->
   (forall e, In e t -> candidate e = false) /\ walk_throws h = false).
Proof.
  split.
  - intros H. apply (located_candidates h t d []) in H. unfold run. split.
    + intros Hw. now rewrite (run_not_found _ H Hw).
    + intros Hw. now rewrite (run_walk_failed _ H Hw).
  - rewrite printed_In. intros Hin.
    destruct (run_shape h t d) as [Hl Hw _ | p v _ _ E | p v c _ _ _ E
      | p v c _ _ _ _ E | p v c _ _ _ _ _ E | _ _ E
      | p v c remains _ _ _ _ _ E].
    + split; [now apply (located_candidates h t d [])|exact Hw].
    + exfalso. rewrite E in Hin. cbn [snd trace] in Hin.
      apply In_preamble in Hin. intuition discriminate.
    + exfalso. rewrite E in Hin. cbn [snd trace] in Hin.
      apply in_app_or in Hin as [Hin | [Hin | []]]; [|discriminate].
      apply In_preamble in Hin. intuition discriminate.
    + exfalso. rewrite E in Hin. cbn [snd trace] in Hin.
      revert Hin. apply found_lines. intros [H | []]. discriminate.
    + exfalso. rewrite E in Hin. cbn [snd trace] in Hin.
      revert Hin. apply found_lines. intros [H | [H | []]]; discriminate.
    + exfalso. rewrite E in Hin. exact Hin.
    + exfalso. rewrite E in Hin. cbn [snd trace] in Hin.
      revert Hin. apply found_lines. intros [H | []]. discriminate.
Qed.

Lemma not_found_outcome_witness :
  run Sample.plain
      [mkEntry (str "node_modules/drizzle-kit") false;
       mkEntry (str "node_modules/drizzle-kit/bin.mjs") true]
      (fun _ => None) =
  (Exit 1,
   mkWorld Sample.plain
           [mkEntry (str "node_modules/drizzle-kit") false;
            mkEntry (str "node_modules/drizzle-kit/bin.mjs") true]
           (fun _ => None)
           [Console Error MsgNotFound; Console Error MsgRunInstall]) /\
  run Sample.no_modules [] (fun _ => None) =
  (Uncaught, mkWorld Sample.no_modules [] (fun _ => None) []).
Proof.
  split.
  - apply (proj1 (not_found_outcome _ _ _)); [|reflexivity].
    intros e [<- | [<- | []]]; vm_compute; reflexivity.
  - apply (proj1 (not_found_outcome _ _ _)); [|reflexivity].
    intros e [].
Defined.

Lemma write_other (h : host) (p q content : jsstring)
      (d : jsstring -> option jsstring) :
  realpath h q <> realpath h p -> write h p content d q = d q.
Proof.
  intros Hq. unfold write.
  destruct (JS.eqb (realpath h q) (realpath h p)) eqn:E; [|reflexivity].
  apply eqb_eq in E. contradiction.
Qed.

Lemma write_same (h : host) (p q content : jsstring)
      (d : jsstring -> option jsstring) :
  realpath h q = realpath h p -> write h p content d q = Some content.
Proof. intros Hq. unfold write. now rewrite Hq, eqb_refl. Qed.

(** X5 — what a run touches.  A run calls [Deno.writeTextFile] at most
    once, and then with the path of the located artifact and the buffer
    the rules made of its text.  Every path that names another file
    than that path does reads after the run as before; when the run
    returns normally, every path that names the same file, a link to it
    as well, reads the text written.  A run without such a call leaves
    every file as it was. *)
Theorem run_touches_one_file (h : host) (t : list WalkEntry)
        (d : jsstring -> option jsstring) :
  length (writes (trace (snd (run h t d)))) <= 1 /\
  (forall p c',
     In (p, c') (writes (trace (snd (run h t d)))) ->
     (exists v c,
        located (mkWorld h t d []) = Some (p, v) /\ d p = Some c /\
        c' = fst (apply_patches (insert_marker c))) /\
     (forall q, realpath h q <> realpath h p ->
                disk (snd (run h t d)) q = d q) /\
     (fst (run h t d) = Normal tt ->
      forall q, realpath h q = realpath h p ->
                disk (snd (run h t d)) q = Some c')) /\
  (writes (trace (snd (run h t d))) = [] -> disk (snd (run h t d)) = d).
Proof.
  destruct (run_shape h t d) as [_ _ E | p v _ _ E | p v c _ _ _ E
    | p v c _ _ _ _ E | p v c Hl Hr _ _ _ E | _ _ E
    | p v c remains Hl Hr _ _ _ E];
    rewrite E; cbn [fst snd disk trace]; read_trace;
    (split; [cbn [length]; lia|]);
    (split; [|try (intros _; reflexivity)]);
    try (intros q c' H; exact (False_ind _ H)).
  - intros q c' [[= <- <-] | []]. split; [eauto|]. split.
    + intros q' Hq'. now apply write_other.
    + intros _ q' Hq'. now apply write_same.
  - discriminate.
  - intros q c' [[= <- <-] | []]. split; [eauto|]. split.
    + intros q' Hq'. destruct remains as [cut|]; [|reflexivity].
      now apply write_other.
    + discriminate.
  - discriminate.
Qed.

Lemma run_touches_one_file_witness :
  disk (snd (run Sample.linked (Sample.tree_of Sample.bin)
                 (Sample.disk_linked Sample.bundle)))
       Sample.bin_unversioned =
  Some (fst (apply_patches (insert_marker Sample.bundle))).
Proof.
  refine (proj2 (proj2 (proj1 (proj2
            (run_touches_one_file Sample.linked (Sample.tree_of Sample.bin)
               (Sample.disk_linked Sample.bundle)))
            Sample.bin (fst (apply_patches (insert_marker Sample.bundle)))
            _)) _ Sample.bin_unversioned _).
  - vm_compute. left. reflexivity.
  - vm_compute. reflexivity.
  - vm_compute. reflexivity.
Defined.

Lemma warnings_of_run (h : host) (t : list WalkEntry)
      (d : jsstring -> option jsstring) (p v : jsstring) :
  located (mkWorld h t d []) = Some (p, v) ->
  printed Warn (trace (snd (run h t d))) = printed Warn (preamble v p).
Proof.
  intros Hloc.
  destruct (run_shape h t d) as [Hl _ _ | p' v' Hl _ E | p' v' c Hl _ _ E
    | p' v' c Hl _ _ _ E | p' v' c Hl _ _ _ _ E | Hl _ _
    | p' v' c remains Hl _ _ _ _ E];
    rewrite Hloc in Hl; [discriminate| | | | |discriminate|];
    injection Hl as <- <-; rewrite E; cbn [snd trace];
    rewrite ?printed_app, ?printed_older, ?printed_lines by discriminate;
    cbn [printed app]; now rewrite ?app_nil_r.
Qed.

(** X6 — the version warning.  Once an artifact is located, readable
    or not, the run prints either no warning or the two warning lines
    for its version; it prints none exactly when the version is one of
    [SUPPORTED_VERSIONS] or is "unknown". *)
Theorem version_warning_iff (h : host) (t : list WalkEntry)
        (d : jsstring -> option jsstring) (p v : jsstring) :
  located (mkWorld h t d []) = Some (p, v) ->
  (printed Warn (trace (snd (run h t d))) = [] <->
   In v SUPPORTED_VERSIONS \/ v = str "unknown") /\
  (printed Warn (trace (snd (run h t d))) <> [] ->
   printed Warn (trace (snd (run h t d))) =
   [MsgMayNotBeCompatible v; MsgAttempting]).
Proof.
  intros Hloc. rewrite (warnings_of_run h t d p v Hloc), printed_warn_preamble.
  rewrite <- arr_includes_In, <- eqb_eq.
  destruct (JS.arr_includes v SUPPORTED_VERSIONS), (JS.eqb v (str "unknown"));
    cbn [negb andb]; split; try tauto; try (split; auto; fail).
  split; [discriminate|]. intros [H | H]; discriminate.
Qed.

Lemma version_warning_iff_witness :
  printed Warn
    (trace (snd (run Sample.plain (Sample.tree_of Sample.bin)
                     (Sample.disk_of Sample.bin Sample.bundle)))) = [].
Proof.
  apply (proj1 (version_warning_iff
                  Sample.plain (Sample.tree_of Sample.bin)
                  (Sample.disk_of Sample.bin Sample.bundle)
                  Sample.bin (str "0.31.8") eq_refl)).
  left. right. left. reflexivity.
Defined.

Lemma old_patch_re_items :
  items old_patch_re =
  lit MARKER_STEM ++ IOpen :: [IAtom (AChar C_d) Plus] ++ IClose :: [].
Proof. vm_compute. reflexivity. Qed.

Lemma old_patch_re_tail :
  items old_patch_re =
  (lit MARKER_STEM ++ [IOpen]) ++ [IAtom (AChar C_d) Plus; IClose].
Proof. vm_compute. reflexivity. Qed.

Lemma digits_lang (n : jsstring) :
  MatchDefs.lang [IAtom (AChar C_d) Plus] n <-> digits n.
Proof.
  rewrite digits_cons. cbn [MatchDefs.lang]. split.
  - intros (x & xs & t' & -> & Hx & Hxs & ->). rewrite app_nil_r. eauto.
  - intros (x & xs & -> & Hx & Hxs). exists x, xs, [].
    rewrite app_nil_r. auto.
Qed.

(** Every match of the pattern of older markers. *)
Lemma old_patch_match (prev : option N) (s : jsstring) (r : mres) :
  m false (items old_patch_re) prev s = Some r ->
  exists n, s = MARKER_STEM ++ n ++ mrest r /\ digits n /\
            no_digit_next (mrest r) /\ mcaps r = [n].
Proof.
  intros H.
  pose proof (MatchFacts.m_sound _ _ _ _ _ H) as Hs.
  assert (Hmax : no_digit_next (mrest r)).
  { rewrite old_patch_re_tail in H.
    exact (GreedyFacts.m_tail_max _ _ _ _ _ _ H). }
  rewrite old_patch_re_items in H.
  apply GroupFacts.m_one_group in H
    as (tp & g & t' & Ht & Hcaps & Hp & Hg & Hpost);
    [|apply forallb_forall; intros it Hit; apply in_map_iff in Hit
        as (c & <- & _); reflexivity|reflexivity|reflexivity].
  apply CompleteFacts.lang_lit_only in Hp. cbn [MatchDefs.lang] in Hpost.
  subst tp t'. apply digits_lang in Hg.
  exists g. rewrite Hs, Ht, app_nil_r, <- !app_assoc. auto.
Qed.

Lemma older_note_spec (c : jsstring) :
  (forall n, In (Console Log (MsgOlderPatch n)) (older_note c) ->
             has_marker_of n c) /\
  ((exists a n b, c = a ++ MARKER_STEM ++ n ++ b /\ digits n) ->
   exists n, older_note c = [Console Log (MsgOlderPatch n)]).
Proof.
  split.
  - intros n Hin. apply In_older in Hin as (bef & r & E & Hn).
    unfold exec in E. change (multiline old_patch_re) with false in E.
    destruct (MatchFacts.search_some _ _ _ _ _ _ E)
      as (pre & suf & -> & _ & Hm & _).
    apply old_patch_match in Hm as (n' & -> & Hd & Hmax & Hcaps).
    rewrite Hcaps in Hn. cbn [nth] in Hn. injection Hn as ->.
    now exists pre, (mrest r).
  - intros (a & n & b & -> & Hn).
    assert (Ht : test old_patch_re (a ++ MARKER_STEM ++ n ++ b) = true).
    { apply MatchFacts.test_true.
      rewrite (app_assoc MARKER_STEM n b).
      apply CompleteFacts.has_match_intro; [vm_compute; reflexivity|].
      rewrite old_patch_re_items. apply GroupFacts.lang_app_intro.
      - apply CompleteFacts.lang_lit_self.
      - change (MatchDefs.lang [IAtom (AChar C_d) Plus] n).
        now apply digits_lang. }
    unfold test in Ht. unfold older_note.
    destruct (exec old_patch_re _) as [[bef r]|]; [eauto|discriminate].
Qed.

(** X7 — the note about an older marker.  On an unmarked artifact
    the run prints the note exactly when the content holds the marker
    text followed by a digit; the number it shows is the whole run of
    digits at such a place and never starts with 10; and the rules are
    applied and reported all the same. *)
Theorem older_patch_note (h : host) (t : list WalkEntry)
        (d : jsstring -> option jsstring) (p v c : jsstring) :
  located (mkWorld h t d []) = Some (p, v) ->
  d p = Some c ->
  JS.includes PATCH_MARKER c = false ->
  (forall n, In (MsgOlderPatch n) (printed Log (trace (snd (run h t d)))) ->
             has_marker_of n c /\ JS.startsWith (str "10") n = false) /\
  ((exists a n b, c = a ++ MARKER_STEM ++ n ++ b /\ digits n) ->
   exists n, In (MsgOlderPatch n) (printed Log (trace (snd (run h t d))))) /\
  length (report (trace (snd (run h t d)))) = 15.
Proof.
  intros Hloc Hread Hm.
  assert (Htr : exists a b,
            trace (snd (run h t d)) =
            preamble v p ++ older_note c ++ Console Log MsgPatchResults ::
            map result_line (snd (apply_patches (insert_marker c))) ++
            a :: b /\
            forall n, ~ In (Console Log (MsgOlderPatch n)) (a :: b)).
  { destruct (criticalFailures (snd (apply_patches (insert_marker c))))
      as [|f fs] eqn:Hc; unfold run.
    - destruct (on_write h p (fst (apply_patches (insert_marker c))))
        as [|remains] eqn:Hw.
      + rewrite (run_committed _ p v c Hloc Hread Hm Hc Hw).
        cbn [snd trace app].
        eexists _, _. split; [reflexivity|].
        intros n [H | [H | []]]; [discriminate|].
        destruct (existsb failed _); discriminate.
      + rewrite (run_rejected _ p v c Hloc Hread remains Hm Hc Hw).
        cbn [snd trace app].
        eexists _, _. split; [reflexivity|].
        intros n [H | []]. discriminate.
    - assert (Hc' : criticalFailures
                      (snd (apply_patches (insert_marker c))) <> [])
        by (rewrite Hc; discriminate).
      rewrite (run_aborted _ p v c Hloc Hread Hm Hc'). cbn [snd trace app].
      eexists _, _. split; [reflexivity|].
      intros n [H | []]; discriminate. }
  destruct Htr as (a & b & Htr & Hab).
  destruct (older_note_spec c) as [Hnote Hfound].
  split; [|split].
  - intros n Hin. apply printed_In in Hin. rewrite Htr in Hin.
    apply in_app_or in Hin as [Hin | Hin];
      [apply In_preamble in Hin; intuition discriminate|].
    apply in_app_or in Hin as [Hin | [Hin | Hin]]; [|discriminate|].
    + split; [now apply Hnote|].
      destruct (JS.startsWith (str "10") n) eqn:Hs; [|reflexivity].
      exfalso. apply Hnote in Hin as (a' & b' & -> & _).
      apply MatchFacts.startsWith_iff in Hs as (n' & ->).
      assert (Hin : JS.includes PATCH_MARKER
                      (a' ++ MARKER_STEM ++ (str "10" ++ n') ++ b') = true).
      { apply MatchFacts.includes_iff. exists a', (n' ++ b').
        change PATCH_MARKER with (MARKER_STEM ++ str "10").
        now rewrite <- !app_assoc. }
      rewrite Hin in Hm. discriminate.
    + exfalso. apply in_app_or in Hin as [Hin | Hin].
      * apply In_lines in Hin as (r & _ & Hr).
        destruct (success r); discriminate.
      * exact (Hab n Hin).
  - intros H. destruct (Hfound H) as (n & Hn). exists n.
    apply printed_In. rewrite Htr, Hn.
    apply in_or_app. right. now left.
  - rewrite (proj1 (gate_outcome h t d p v c Hloc Hread Hm)).
    rewrite length_map, <- (length_map name), results_names. reflexivity.
Qed.

Lemma older_patch_note_witness :
  exists n,
    In (MsgOlderPatch n)
       (printed Log
          (trace (snd (run Sample.plain (Sample.tree_of Sample.bin)
                           (Sample.disk_of Sample.bin
                              (str "// DRIZZLE-KIT-DENO-PATCHED-V9" ++ [NL] ++
                               Sample.critical_lines)))))).
Proof.
  apply (proj1 (proj2 (older_patch_note
                         Sample.plain (Sample.tree_of Sample.bin)
                         (Sample.disk_of Sample.bin
                            (str "// DRIZZLE-KIT-DENO-PATCHED-V9" ++ [NL] ++
                             Sample.critical_lines))
                         Sample.bin (str "0.31.8")
                         (str "// DRIZZLE-KIT-DENO-PATCHED-V9" ++ [NL] ++
                          Sample.critical_lines)
                         eq_refl eq_refl eq_refl))).
  exists [], (str "9"), ([NL] ++ Sample.critical_lines).
  split; [reflexivity|]. split; [discriminate|].
  constructor; [reflexivity|constructor].
Defined.

Lemma verdict_of (v p c buffer : jsstring) (results : list PatchResult)
      (msg : message) :
  msg = MsgPatched \/ msg = MsgSomeFailed ->
  (In (Console Log msg)
      (preamble v p ++ older_note c ++ [Console Log MsgPatchResults] ++
       map result_line results ++
       [WriteTextFile p buffer;
        Console Log (if existsb failed results then MsgSomeFailed
                     else MsgPatched)]) <->
   msg = if existsb failed results then MsgSomeFailed else MsgPatched).
Proof.
  intros Hmsg. split.
  - intros Hin.
    apply in_app_or in Hin as [Hin | Hin];
      [apply In_preamble in Hin; destruct Hmsg; subst msg;
       intuition discriminate|].
    apply in_app_or in Hin as [Hin | Hin];
      [apply In_older in Hin as (? & ? & _ & ?);
       destruct Hmsg; subst msg; discriminate|].
    apply in_app_or in Hin as [[Hin | []] | Hin];
      [destruct Hmsg; subst msg; discriminate|].
    apply in_app_or in Hin as [Hin | [Hin | [Hin | []]]].
    + apply In_lines in Hin as (r & _ & Hr).
      destruct (success r), Hmsg; subst msg; discriminate.
    + discriminate.
    + injection Hin as <-. reflexivity.
  - intros ->. apply in_or_app. right. apply in_or_app. right.
    apply in_or_app. right. apply in_or_app. right. right. left.
    reflexivity.
Qed.

Lemma failed_cases (results : list PatchResult) :
  (MsgPatched =
   (if existsb failed results then MsgSomeFailed else MsgPatched) <->
   forall r, In r results -> success r = true) /\
  (MsgSomeFailed =
   (if existsb failed results then MsgSomeFailed else MsgPatched) <->
   exists r, In r results /\ success r = false).
Proof.
  destruct (existsb failed results) eqn:E.
  - apply existsb_exists in E as (r & Hin & Hf). unfold failed in Hf.
    apply negb_true_iff in Hf. split; split.
    + discriminate.
    + intros H. rewrite (H r Hin) in Hf. discriminate.
    + intros _. exists r. auto.
    + reflexivity.
  - assert (Hall : forall r, In r results -> success r = true).
    { intros r Hin. destruct (success r) eqn:Es; [reflexivity|].
      assert (Hex : existsb failed results = true).
      { apply existsb_exists. exists r. unfold failed. now rewrite Es. }
      rewrite Hex in E. discriminate. }
    split; split.
    + intros _. exact Hall.
    + reflexivity.
    + discriminate.
    + intros (r & Hin & Hf). rewrite (Hall r Hin) in Hf. discriminate.
Qed.

(** X8 — the last line of a committing run.  When a run on an
    unmarked artifact returns normally, every rule that failed is
    outside the critical set; the run prints the success line exactly
    when all fifteen rules were applied, and the some-patches-failed
    line exactly when one of them was not. *)
Theorem verdict_line (h : host) (t : list WalkEntry)
        (d : jsstring -> option jsstring) (p v c : jsstring) :
  located (mkWorld h t d []) = Some (p, v) ->
  d p = Some c ->
  JS.includes PATCH_MARKER c = false ->
  fst (run h t d) = Normal tt ->
  (forall r, In r (snd (apply_patches (insert_marker c))) ->
             success r = false -> ~ In (name r) criticalPatches) /\
  (In MsgPatched (printed Log (trace (snd (run h t d)))) <->
   forall r, In r (snd (apply_patches (insert_marker c))) ->
             success r = true) /\
  (In MsgSomeFailed (printed Log (trace (snd (run h t d)))) <->
   exists r, In r (snd (apply_patches (insert_marker c))) /\
             success r = false).
Proof.
  intros Hloc Hread Hm Hok.
  destruct (normal_commits h t d p v c Hloc Hread Hm Hok) as [Hn Hw].
  split; [exact (proj1 (criticalFailures_nil _) Hn)|].
  assert (Htr : trace (snd (run h t d)) =
                preamble v p ++ older_note c ++
                [Console Log MsgPatchResults] ++
                map result_line (snd (apply_patches (insert_marker c))) ++
                [WriteTextFile p (fst (apply_patches (insert_marker c)));
                 Console Log
                   (if existsb failed (snd (apply_patches (insert_marker c)))
                    then MsgSomeFailed else MsgPatched)]).
  { unfold run. rewrite (run_committed _ p v c Hloc Hread Hm Hn Hw).
    reflexivity. }
  rewrite !printed_In, Htr.
  rewrite (verdict_of v p c _ _ MsgPatched (or_introl eq_refl)).
  rewrite (verdict_of v p c _ _ MsgSomeFailed (or_intror eq_refl)).
  exact (failed_cases (snd (apply_patches (insert_marker c)))).
Qed.

Lemma verdict_line_witness :
  In MsgSomeFailed
     (printed Log
        (trace (snd (run Sample.plain (Sample.tree_of Sample.bin)
                         (Sample.disk_of Sample.bin Sample.bundle))))).
Proof.
  apply (proj2 (proj2 (verdict_line
                         Sample.plain (Sample.tree_of Sample.bin)
                         (Sample.disk_of Sample.bin Sample.bundle)
                         Sample.bin (str "0.31.8") Sample.bundle
                         eq_refl eq_refl eq_refl eq_refl))).
  exists (mkResult Rules.n_recusivelyResolveSync false
                   (Some (str "Pattern not found"))).
  split; [|reflexivity]. vm_compute. right. left. reflexivity.
Defined.

(** X9 — where the marker line goes.  The insertion puts the marker
    line, 32 characters with its line break, between two parts of the
    content and changes nothing else.  For a content that starts with
    [#!] and has no line break, the marker line goes before the [#!]. *)
Theorem insert_marker_keeps_content (c : jsstring) :
  (exists a b, c = a ++ b /\
               insert_marker c = a ++ PATCH_MARKER ++ [NL] ++ b) /\
  length (insert_marker c) = length c + 32 /\
  (JS.startsWith (str "#!") c = true -> ~ In NL c ->
   insert_marker c = PATCH_MARKER ++ [NL] ++ c).
Proof.
  pose proof (MarkerFacts.insert_marker_cut c) as Hcut.
  destruct (MarkerFacts.shebang_cut c) as [Hc _].
  split; [now exists (shebang_line c), (after_shebang c)|]. split.
  - assert (Hlen : length c =
                    length (shebang_line c) + length (after_shebang c))
      by (rewrite Hc at 1; apply length_app).
    rewrite Hcut, !length_app, Hlen. cbn [length].
    change (length PATCH_MARKER) with 31. lia.
  - intros Hs Hnl. unfold insert_marker. rewrite Hs.
    destruct (MarkerFacts.indexOf_spec [NL] c) as [-> | (a & b & -> & _)].
    + pose proof (MarkerFacts.slice_upto [] c) as H1.
      pose proof (MarkerFacts.slice_from_at [] c) as H2.
      cbn [app length Z.of_nat] in H1, H2.
      change (-1 + 1)%Z with 0%Z. rewrite H1, H2. reflexivity.
    + exfalso. apply Hnl. apply in_or_app. right. now left.
Qed.

Lemma insert_marker_keeps_content_witness :
  insert_marker (str "#!/usr/bin/env node") =
  PATCH_MARKER ++ [NL] ++ str "#!/usr/bin/env node".
Proof.
  apply (proj2 (proj2 (insert_marker_keeps_content _))).
  - reflexivity.
  - intros Hin. vm_compute in Hin. intuition discriminate.
Defined.

(** ** [escapeRegex] and [applyPatch] beyond the fifteen rules *)

Lemma escape_class (x : N) :
  atom_matches (AClass false (map CLit syntax_chars)) x = is_syntax x.
Proof.
  unfold is_syntax. cbn [atom_matches xorb].
  induction syntax_chars as [|c l IH]; [reflexivity|].
  cbn [map existsb catom_matches]. now rewrite IH, N.eqb_sym.
Qed.

Lemma escape_loop (whole s : jsstring) :
  forall bef,
    replace_global escape_re (ReplString (BACKSLASH :: str "$&")) whole
                   0 bef s =
    flat_map (fun c => if is_syntax c then [BACKSLASH; c] else [c]) s.
Proof.
  induction s as [|x s IH]; intros bef; [reflexivity|].
  cbn [replace_global flat_map].
  change (m (multiline escape_re) (items escape_re) (hd_error bef) (x :: s))
    with (one (AClass false (map CLit syntax_chars))
              (m false []) (x :: s)).
  cbn [one]. rewrite escape_class. destruct (is_syntax x).
  - cbn [m consume mtext mcur mcaps mrest length].
    rewrite IH. reflexivity.
  - rewrite IH. reflexivity.
Qed.

(** X10 — [escapeRegex].  The function puts a backslash before each of
    the fourteen syntax characters and copies every other character;
    read back as a pattern source, its result is the pattern in which
    every character of the input stands for itself, the one
    [applyPatch] builds for a string pattern. *)
Theorem escapeRegex_spec (s : jsstring) :
  escapeRegex s =
    flat_map (fun c => if is_syntax c then [BACKSLASH; c] else [c]) s /\
  read_source (escapeRegex s) = Some (items (of_escaped s)) /\
  length syntax_chars = 14.
Proof.
  assert (H : escapeRegex s =
              flat_map (fun c => if is_syntax c then [BACKSLASH; c] else [c]) s)
    by exact (escape_loop s s []).
  split; [exact H|]. split; [|reflexivity].
  rewrite H. change (items (of_escaped s)) with (lit s). clear H.
  induction s as [|x s IH]; [reflexivity|].
  cbn [flat_map]. destruct (is_syntax x) eqn:Hx.
  - cbn [app read_source]. rewrite N.eqb_refl, Hx, IH. reflexivity.
  - cbn [app read_source]. rewrite Hx.
    destruct (N.eqb x BACKSLASH) eqn:Hb.
    + apply N.eqb_eq in Hb. subst x. discriminate.
    + rewrite IH. reflexivity.
Qed.

(** X11 — string patterns.  For a string pattern [applyPatch] reports
    "Pattern not found" exactly when the content does not include the
    string, whatever characters the string is made of, and then hands
    the content back as it is; the pattern it builds has the [g]
    flag. *)
Theorem string_pattern_found_iff_included (c n s : jsstring)
        (rp : replacement) :
  (error (snd (applyPatch c n (PString s) rp)) =
     Some (str "Pattern not found") <->
   JS.includes s c = false) /\
  (JS.includes s c = false ->
   applyPatch c n (PString s) rp =
   (c, mkResult n false (Some (str "Pattern not found")))) /\
  global (pattern_of (PString s)) = true.
Proof.
  unfold applyPatch, of_escaped. rewrite (CompleteFacts.test_lit false true).
  destruct (JS.includes s c); cbn [negb].
  - split; [|split; [discriminate|reflexivity]].
    destruct (JS.eqb _ c); cbn [snd error]; split; discriminate.
  - cbn [snd error]. repeat split; reflexivity.
Qed.

Lemma string_pattern_found_iff_included_witness :
  applyPatch (str "a.c") (str "n") (PString (str "abc"))
             (ReplString (str "x")) =
  (str "a.c", mkResult (str "n") false (Some (str "Pattern not found"))).
Proof.
  apply (proj1 (proj2 (string_pattern_found_iff_included
                         (str "a.c") (str "n") (str "abc")
                         (ReplString (str "x"))))).
  reflexivity.
Defined.

(** X12 — replacements that give the match back.  With the template
    [$&], with a function that returns its first argument, or with a
    string pattern replaced by that same string when the string has no
    [$] in it, [applyPatch] never succeeds and hands the content back
    as it is: it reports "Replacement had no effect" when the pattern
    has a match and "Pattern not found" when it has none.  The
    condition on [$] is needed: the pattern [$$] replaced by [$$] is
    applied, a [$$] in a template standing for one [$]. *)
Theorem replacement_giving_back (c n : jsstring) (pat : searchPattern)
        (rp : replacement) :
  (rp = ReplString (str "$&") \/
   (exists f, rp = ReplFunction f /\
              forall mt caps off whole, f mt caps off whole = mt) \/
   (exists s, pat = PString s /\ rp = ReplString s /\
              forallb (fun x => negb (N.eqb x 36)) s = true) ->
   fst (applyPatch c n pat rp) = c /\
   success (snd (applyPatch c n pat rp)) = false /\
   (test (pattern_of pat) c = true ->
    error (snd (applyPatch c n pat rp)) =
    Some (str "Replacement had no effect")) /\
   (test (pattern_of pat) c = false ->
    error (snd (applyPatch c n pat rp)) = Some (str "Pattern not found"))) /\
  applyPatch (str "a$$b") n (PString (str "$$")) (ReplString (str "$$")) =
  (str "a$b", mkResult n true None).
Proof.
  split; [|reflexivity].
  intros Hgb.
  assert (Hsame : replace (pattern_of pat) rp c = c).
  { apply EndFacts.replace_same. intros bef prev s r Hm.
    destruct Hgb as [-> | [(f & -> & Hf) | (s0 & -> & -> & Hp)]].
    - cbn. apply app_nil_r.
    - cbn [replacement_text]. apply Hf.
    - cbn [replacement_text].
      rewrite ReplaceFacts.getSubstitution_plain by exact Hp.
      apply MatchFacts.m_lang in Hm. cbn [pattern_of of_escaped items] in Hm.
      apply CompleteFacts.lang_lit_only in Hm. now rewrite Hm. }
  unfold applyPatch.
  change (match pat with
          | PRegExp r0 => r0
          | PString s => of_escaped s
          end) with (pattern_of pat).
  rewrite Hsame, eqb_refl.
  destruct (test (pattern_of pat) c); cbn [negb fst snd success error];
    repeat split; auto; discriminate.
Qed.

Lemma replacement_giving_back_witness :
  error (snd (applyPatch Sample.critical_lines (str "n")
                         safeRegister_re (ReplString (str "$&")))) =
  Some (str "Replacement had no effect").
Proof.
  apply (proj1 (proj2 (proj2
           (proj1 (replacement_giving_back Sample.critical_lines (str "n")
                     safeRegister_re (ReplString (str "$&")))
              (or_introl eq_refl))))).
  vm_compute. reflexivity.
Defined.

(** ** The fifteen rules *)

(** X13 — when a rule is applied.  Each of the fifteen rules is
    applied exactly when its pattern has a match in the buffer it
    receives, and then hands on a different buffer; otherwise it
    reports "Pattern not found" and hands the buffer on as it is.  No
    rule ever reports "Replacement had no effect". *)
Theorem rules_applied_iff_matched (r : rule) (c : jsstring) :
  In r RULES ->
  (success (snd (apply_rule r c)) = true <->
   test (pattern_of (rule_pattern r)) c = true) /\
  (success (snd (apply_rule r c)) = true -> fst (apply_rule r c) <> c) /\
  (success (snd (apply_rule r c)) = false ->
   apply_rule r c =
   (c, mkResult (rule_name r) false (Some (str "Pattern not found")))) /\
  error (snd (apply_rule r c)) <> Some (str "Replacement had no effect").
Proof.
  intros Hin. pose proof (RuleFacts.rule_changes_In r Hin) as Hch.
  rewrite (RuleFacts.apply_rule_iff r c Hch).
  destruct (test (pattern_of (rule_pattern r)) c) eqn:Ht; cbn [fst snd success error].
  - split; [tauto|]. split; [intros _; now apply Hch|].
    split; discriminate.
  - split; [split; discriminate|]. split; [discriminate|].
    split; [reflexivity|discriminate].
Qed.

Lemma rules_applied_iff_matched_witness :
  success (snd (apply_rule (mkRule n_safeRegister safeRegister_re
                                   safeRegister_to)
                           Sample.critical_lines)) = true.
Proof.
  apply (proj1 (rules_applied_iff_matched
                  (mkRule n_safeRegister safeRegister_re safeRegister_to)
                  Sample.critical_lines
                  ltac:(vm_compute; tauto))).
  vm_compute. reflexivity.
Defined.

(** A result of the pipeline is the result of the rule at its place,
    applied to the buffer the rules before it produced. *)
Lemma run_rules_results (rules : list rule) (c : jsstring)
      (res : PatchResult) :
  In res (snd (run_rules rules c)) ->
  exists i r, nth_error rules i = Some r /\
              res = snd (apply_rule r (buffer_at rules i c)).
Proof.
  intros Hin. apply In_nth_error in Hin as (i & Hi).
  assert (Hlen : i < length rules).
  { rewrite <- (length_map rule_name), <- (run_rules_names rules c),
      length_map.
    apply nth_error_Some. rewrite Hi. discriminate. }
  destruct (nth_error rules i) as [r|] eqn:Hr;
    [|apply nth_error_None in Hr; lia].
  exists i, r. split; [exact Hr|].
  rewrite (run_rules_chain rules c i r Hr) in Hi. now injection Hi as <-.
Qed.

(** The failure lines of the runs: only a run on a located, readable,
    unmarked artifact prints any, and they are lines of its results. *)
Lemma failure_line_of_results (h : host) (t : list WalkEntry)
      (d : jsstring -> option jsstring) (n : jsstring)
      (e : option jsstring) :
  In (Console Log (MsgFailed n e)) (trace (snd (run h t d))) ->
  exists p v c,
    located (mkWorld h t d []) = Some (p, v) /\ d p = Some c /\
    JS.includes PATCH_MARKER c = false /\
    In (Console Log (MsgFailed n e))
       (map result_line (snd (apply_patches (insert_marker c)))).
Proof.
  intros Hin.
  assert (Hlines : forall v p c rest,
            ~ In (Console Log (MsgFailed n e)) rest ->
            In (Console Log (MsgFailed n e))
               (preamble v p ++ older_note c ++
                [Console Log MsgPatchResults] ++
                map result_line (snd (apply_patches (insert_marker c))) ++
                rest) ->
            In (Console Log (MsgFailed n e))
               (map result_line (snd (apply_patches (insert_marker c))))).
  { intros v p c rest Hrest H.
    apply in_app_or in H as [H | H];
      [apply In_preamble in H; intuition discriminate|].
    apply in_app_or in H as [H | H];
      [apply In_older in H as (? & ? & _ & ?); discriminate|].
    apply in_app_or in H as [[H | []] | H]; [discriminate|].
    apply in_app_or in H as [H | H]; [exact H | contradiction]. }
  destruct (run_shape h t d) as [_ _ E | p v _ _ E | p v c _ _ _ E
    | p v c Hl Hr Hm _ E | p v c Hl Hr Hm _ _ E | _ _ E
    | p v c remains Hl Hr Hm _ _ E];
    rewrite E in Hin; cbn [snd trace] in Hin.
  - destruct Hin as [H | [H | []]]; discriminate.
  - apply In_preamble in Hin. intuition discriminate.
  - apply in_app_or in Hin as [Hin | [Hin | []]]; [|discriminate].
    apply In_preamble in Hin. intuition discriminate.
  - exists p, v, c. repeat split; try assumption.
    refine (Hlines _ _ _ _ _ Hin). intros [H | []]. discriminate.
  - exists p, v, c. repeat split; try assumption.
    refine (Hlines _ _ _ _ _ Hin).
    generalize (existsb failed (snd (apply_patches (insert_marker c)))).
    intros [] [H | [H | []]]; discriminate.
  - destruct Hin.
  - exists p, v, c. repeat split; try assumption.
    refine (Hlines _ _ _ _ _ Hin). intros [H | []]. discriminate.
Qed.

(** X14 — the failure lines.  Every failure line a run prints gives
    the reason "Pattern not found", and it stands for a rule of the
    table, named in the line, whose pattern has no match in the buffer
    the rules before it made of the located artifact's text with the
    marker line put in. *)
Theorem failure_lines_not_found (h : host) (t : list WalkEntry)
        (d : jsstring -> option jsstring) (n : jsstring)
        (e : option jsstring) :
  In (MsgFailed n e) (printed Log (trace (snd (run h t d)))) ->
  e = Some (str "Pattern not found") /\
  exists p v c i r,
    located (mkWorld h t d []) = Some (p, v) /\ d p = Some c /\
    nth_error RULES i = Some r /\ rule_name r = n /\
    test (pattern_of (rule_pattern r))
         (buffer_at RULES i (insert_marker c)) = false.
Proof.
  rewrite printed_In. intros Hin.
  apply failure_line_of_results in Hin as (p & v & c & Hl & Hr & _ & Hc).
  apply In_lines in Hc as (res & Hres & Hmsg).
  rewrite apply_patches_run_rules in Hres.
  apply run_rules_results in Hres as (i & r & Hi & ->).
  rewrite (RuleFacts.apply_rule_iff r _
             (RuleFacts.rule_changes_In r (nth_error_In _ _ Hi))) in Hmsg.
  destruct (test (pattern_of (rule_pattern r))
                 (buffer_at RULES i (insert_marker c))) eqn:Ht;
    cbn [snd success name error] in Hmsg; [discriminate|].
  injection Hmsg as -> ->. split; [reflexivity|].
  exists p, v, c, i, r. auto.
Qed.

Lemma failure_lines_not_found_witness :
  Some (str "Pattern not found") = Some (str "Pattern not found") /\
  exists p v c i r,
    located (mkWorld Sample.plain (Sample.tree_of Sample.bin)
               (Sample.disk_of Sample.bin Sample.bundle) []) = Some (p, v) /\
    Sample.disk_of Sample.bin Sample.bundle p = Some c /\
    nth_error RULES i = Some r /\
    rule_name r = n_recusivelyResolveSync /\
    test (pattern_of (rule_pattern r))
         (buffer_at RULES i (insert_marker c)) = false.
Proof.
  apply (failure_lines_not_found
           Sample.plain (Sample.tree_of Sample.bin)
           (Sample.disk_of Sample.bin Sample.bundle)).
  vm_compute. right. right. right. left. reflexivity.
Defined.

(** X15 — the five rules with a plain pattern.  The patterns of the
    rules for bufferutil, homedir, tmpdir and the two lazy usages are
    plain texts; each of these rules is applied exactly when the buffer
    it receives contains that text. *)
Theorem literal_rules_applied_iff_included :
  map rule_name (filter is_literal RULES) =
    [n_bufferutil; n_homedir; n_tmpdir; n_lazy_homedir; n_lazy_tmpdir] /\
  forall r P c,
    In r RULES ->
    literal_of (items (pattern_of (rule_pattern r))) = Some P ->
    (success (snd (apply_rule r c)) = true <-> JS.includes P c = true).
Proof.
  split; [vm_compute; reflexivity|].
  intros r P c Hin HP.
  rewrite (RuleFacts.apply_rule_iff r c (RuleFacts.rule_changes_In r Hin)).
  rewrite <- (RuleFacts.test_literal _ P c HP).
  destruct (test (pattern_of (rule_pattern r)) c); cbn [snd success];
    split; auto.
Qed.

Lemma literal_rules_applied_iff_included_witness :
  success (snd (apply_rule (mkRule n_lazy_homedir lazy_homedir_re
                                   lazy_homedir_to)
                           (str "x = import_node_path.default.join(homedir, y);")))
  = true.
Proof.
  apply (proj2 literal_rules_applied_iff_included
               (mkRule n_lazy_homedir lazy_homedir_re lazy_homedir_to)
               (str "import_node_path.default.join(homedir,")
               (str "x = import_node_path.default.join(homedir, y);")
               ltac:(vm_compute; tauto) eq_refl).
  vm_compute. reflexivity.
Defined.

Lemma applied_holds_replacement (r : rule) (c : jsstring) :
  rule_changes r ->
  plain_text (rule_to r) = true ->
  success (snd (apply_rule r c)) = true ->
  exists A Z, fst (apply_rule r c) = A ++ rule_to r ++ Z.
Proof.
  intros Hch Hp. rewrite (RuleFacts.apply_rule_iff r c Hch).
  destruct (test (pattern_of (rule_pattern r)) c) eqn:Ht;
    cbn [fst snd success]; [intros _|discriminate].
  destruct (EndFacts.replace_holds _ (ReplString (rule_to r)) c Ht)
    as (A & A' & Z & bef & prev & s & r' & _ & _ & ->).
  exists A', Z. cbn [replacement_text].
  now rewrite ReplaceFacts.getSubstitution_plain by exact Hp.
Qed.

(** X16 — what an applied rule leaves behind.  Twelve rules have a
    replacement without [$]; when such a rule is applied, the buffer
    it hands to the next rule contains its replacement text. *)
Theorem applied_rule_leaves_text :
  length (filter (fun r => plain_text (rule_to r)) RULES) = 12 /\
  forall r c,
    In r RULES ->
    plain_text (rule_to r) = true ->
    success (snd (apply_rule r c)) = true ->
    JS.includes (rule_to r) (fst (apply_rule r c)) = true.
Proof.
  split; [vm_compute; reflexivity|].
  intros r c Hin Hp Hs.
  destruct (applied_holds_replacement r c (RuleFacts.rule_changes_In r Hin)
              Hp Hs) as (A & Z & ->).
  apply MatchFacts.includes_iff. now exists A, Z.
Qed.

Lemma applied_rule_leaves_text_witness :
  JS.includes safeRegister_to
    (fst (apply_rule (mkRule n_safeRegister safeRegister_re safeRegister_to)
                     Sample.critical_lines)) = true.
Proof.
  apply (proj2 applied_rule_leaves_text
               (mkRule n_safeRegister safeRegister_re safeRegister_to)
               Sample.critical_lines).
  - vm_compute. tauto.
  - vm_compute. reflexivity.
  - vm_compute. reflexivity.
Defined.

(** X17 — rules that match their own output.  The replacement texts
    of five rules, the critical safeRegister rule among them, contain
    a match of the rule's own pattern: once such a rule has been
    applied, it is applied again to the buffer it produced. *)
Theorem rules_match_their_output :
  map rule_name (filter self_matching RULES) =
    [n_walkForTsConfig; n_recusivelyResolveSync; n_supportsColor;
     n_supportsColor2; n_safeRegister] /\
  forall r c,
    In r RULES ->
    self_matching r = true ->
    success (snd (apply_rule r c)) = true ->
    success (snd (apply_rule r (fst (apply_rule r c)))) = true /\
    fst (apply_rule r (fst (apply_rule r c))) <> fst (apply_rule r c).
Proof.
  split; [vm_compute; reflexivity|].
  intros r c Hin Hself Hs.
  pose proof (RuleFacts.rule_changes_In r Hin) as Hch.
  assert (Hside : plain_text (rule_to r) &&
                  assertion_free (items (pattern_of (rule_pattern r))) = true).
  { assert (Hall : forallb (fun r => implb (self_matching r)
                      (plain_text (rule_to r) &&
                       assertion_free (items (pattern_of (rule_pattern r)))))
                     RULES = true) by (vm_compute; reflexivity).
    pose proof (proj1 (forallb_forall _ _) Hall r Hin) as H.
    cbv beta in H. now rewrite Hself in H. }
  apply andb_true_iff in Hside as [Hp Haf].
  destruct (applied_holds_replacement r c Hch Hp Hs) as (A & Z & Hout).
  assert (Ht : test (pattern_of (rule_pattern r))
                    (fst (apply_rule r c)) = true).
  { rewrite Hout. apply MatchFacts.test_true.
    apply EndFacts.has_match_context; [exact Haf|].
    apply MatchFacts.test_true. exact Hself. }
  rewrite (RuleFacts.apply_rule_iff r (fst (apply_rule r c)) Hch), Ht.
  cbn [fst snd success]. split; [reflexivity|]. now apply Hch.
Qed.

Lemma rules_match_their_output_witness :
  success
    (snd (apply_rule
            (mkRule n_safeRegister safeRegister_re safeRegister_to)
            (fst (apply_rule
                    (mkRule n_safeRegister safeRegister_re safeRegister_to)
                    Sample.critical_lines)))) = true.
Proof.
  apply (proj2 rules_match_their_output
               (mkRule n_safeRegister safeRegister_re safeRegister_to)
               Sample.critical_lines).
  - vm_compute. tauto.
  - vm_compute. reflexivity.
  - vm_compute. reflexivity.
Defined.

Lemma word_lang (w : jsstring) :
  MatchDefs.lang [IAtom (AChar C_w) Plus] w <-> word w.
Proof.
  unfold word. cbn [MatchDefs.lang]. split.
  - intros (x & xs & t' & -> & Hx & Hxs & ->). rewrite app_nil_r.
    split; [discriminate|now constructor].
  - intros [Hne H]. destruct w as [|x xs]; [contradiction|].
    inversion H; subst. exists x, xs, []. rewrite app_nil_r. auto.
Qed.

Section Loading.
Variable r : rule.
Variable v : jsstring.
Hypothesis Hch : rule_changes r.
Hypothesis Hits :
  items (pattern_of (rule_pattern r)) =
  lit (str "const " ++ v ++ str " = require(`${") ++
  IOpen :: [IAtom (AChar C_w) Plus] ++ IClose :: lit (str "}`);").
Hypothesis Hto :
  forall mt bef aft w,
    getSubstitution mt bef aft [w] (rule_to r) =
    (str "const " ++ v ++ str " = await import(") ++ w ++
    str "); // PATCHED: import for Deno TS support".

Lemma loading_match (prev : option N) (s : jsstring) (r' : mres) :
  m (multiline (pattern_of (rule_pattern r)))
    (items (pattern_of (rule_pattern r))) prev s = Some r' ->
  exists w, word w /\ mtext r' = require_call v w /\ mcaps r' = [w].
Proof.
  rewrite Hits. intros H.
  apply GroupFacts.m_one_group in H
    as (tp & g & t' & Ht & Hcaps & Hp & Hg & Hpost);
    [|apply GroupFacts.paren_free_lit|reflexivity
     |apply GroupFacts.paren_free_lit].
  apply CompleteFacts.lang_lit_only in Hp, Hpost. subst tp t'.
  apply word_lang in Hg. exists g. unfold require_call.
  rewrite Ht, <- !app_assoc. auto.
Qed.

Lemma loading_found (A w Z : jsstring) :
  word w ->
  test (pattern_of (rule_pattern r)) (A ++ require_call v w ++ Z) = true.
Proof.
  intros Hw. apply MatchFacts.test_true.
  apply CompleteFacts.has_match_intro.
  - rewrite Hits, CompleteFacts.assertion_free_app,
      CompleteFacts.assertion_free_lit.
    exact (CompleteFacts.assertion_free_lit (str "}`);")).
  - rewrite Hits. unfold require_call.
    rewrite !(app_assoc (str "const ")), (app_assoc _ (str " = require(`${")).
    apply GroupFacts.lang_app_intro;
      [rewrite <- !app_assoc; apply CompleteFacts.lang_lit_self|].
    change (MatchDefs.lang ([IAtom (AChar C_w) Plus] ++
                            IClose :: lit (str "}`);"))
                           (w ++ str "}`);")).
    apply GroupFacts.lang_app_intro; [now apply word_lang|].
    exact (CompleteFacts.lang_lit_self (str "}`);")).
Qed.

Lemma loading_rewrite (c : jsstring) :
  (success (snd (apply_rule r c)) = true <->
   exists A w Z, c = A ++ require_call v w ++ Z /\ word w) /\
  (success (snd (apply_rule r c)) = true ->
   exists A A' w Z,
     word w /\ c = A ++ require_call v w ++ Z /\
     fst (apply_rule r c) = A' ++ import_call v w ++ Z).
Proof.
  rewrite (RuleFacts.apply_rule_iff r c Hch).
  destruct (test (pattern_of (rule_pattern r)) c) eqn:Ht;
    cbn [fst snd success].
  - destruct (EndFacts.replace_holds _ (ReplString (rule_to r)) c Ht)
      as (A & A' & Z & bef & prev & s & r' & Hm & Hc & Hout).
    destruct (loading_match _ _ _ Hm) as (w & Hw & Hmt & Hcaps).
    rewrite Hmt in Hc. cbn [replacement_text] in Hout.
    rewrite Hcaps, Hto in Hout.
    split; [split; [intros _; now exists A, w, Z|reflexivity]|].
    intros _. exists A, A', w, Z. unfold import_call.
    rewrite Hout, <- !app_assoc. auto.
  - split; [|discriminate]. split; [discriminate|].
    intros (A & w & Z & -> & Hw). rewrite (loading_found A w Z Hw) in Ht.
    discriminate.
Qed.
End Loading.

(** X18 — the two loading rules.  The config-loading rule is applied
    exactly when the buffer holds a text
    [const required = require(`${w}`);] for a run [w] of word
    characters, and the schema-loading rule the same for [const i0];
    the buffer handed on then holds
    [const required = await import(w); // PATCHED: import for Deno TS support]
    (or the same for [i0]) for such a [w] of the buffer, the text after
    it unchanged. *)
Theorem loading_rules_rewrite (r : rule) (v c : jsstring) :
  In (r, v) loading_rules ->
  (success (snd (apply_rule r c)) = true <->
   exists A w Z, c = A ++ require_call v w ++ Z /\ word w) /\
  (success (snd (apply_rule r c)) = true ->
   exists A A' w Z,
     word w /\ c = A ++ require_call v w ++ Z /\
     fst (apply_rule r c) = A' ++ import_call v w ++ Z).
Proof.
  intros [[= <- <-] | [[= <- <-] | []]]; apply loading_rewrite.
  - apply RuleFacts.rule_changes_In. vm_compute. tauto.
  - vm_compute. reflexivity.
  - intros. vm_compute. reflexivity.
  - apply RuleFacts.rule_changes_In. vm_compute. tauto.
  - vm_compute. reflexivity.
  - intros. vm_compute. reflexivity.
Qed.

Lemma loading_rules_rewrite_witness :
  success (snd (apply_rule
                  (mkRule n_config_loading config_loading_re
                          config_loading_to)
                  Sample.critical_lines)) = true.
Proof.
  apply (proj1 (loading_rules_rewrite
                  (mkRule n_config_loading config_loading_re
                          config_loading_to)
                  (str "required") Sample.critical_lines
                  (or_introl eq_refl))).
  exists (str "safeRegister = async () => {" ++ [NL]), (str "path"),
         ([NL] ++ str "const i0 = require(`${it}`);" ++ [NL]).
  split; [reflexivity|]. split; [discriminate|].
  repeat (constructor; [reflexivity|]). constructor.
Defined.

Section Lead.
Variable re : RegExp.t.
Variable body : list item.
Variables to F : jsstring.
Hypothesis Hg : global re = false.
Hypothesis Hml : multiline re = true.
Hypothesis Hits :
  items re =
  [IBol] ++ IOpen :: body ++
  IClose :: [IAtom (AChar (CLit (ch ";"))) Opt; IAtom (AChar C_s) Star; IEol].
Hypothesis Hits' :
  items re =
  (IBol :: IOpen :: body ++
   [IClose; IAtom (AChar (CLit (ch ";"))) Opt; IAtom (AChar C_s) Star]) ++
  [IEol].
Hypothesis Hpf : paren_free body = true.
Hypothesis Hto :
  forall mt bef aft G, getSubstitution mt bef aft [G] to = G ++ F.

(** The first match of a pattern [^(body);?\s*$] under the [m] flag,
    and what a replace without the [g] flag makes of it. *)
Lemma lead_rewrite (c : jsstring) :
  test re c = true ->
  exists pre G tl rest r,
    exec re c = Some (rev pre, r) /\
    mtext r = G ++ tl /\ mcaps r = [G] /\ mrest r = rest /\
    (forall a b, pre = a ++ b -> b <> [] ->
                 m true (items re) (hd_error (rev a))
                   (b ++ G ++ tl ++ rest) = None) /\
    c = pre ++ G ++ tl ++ rest /\ MatchDefs.lang body G /\ call_tail tl /\
    (pre = [] \/
     exists pre' x, pre = pre' ++ [x] /\ is_line_terminator x = true) /\
    (rest = [] \/
     exists x rest', rest = x :: rest' /\ is_line_terminator x = true) /\
    replace re (ReplString to) c = pre ++ G ++ F ++ rest.
Proof.
  intros Ht. unfold replace, replace_first. rewrite Hg.
  unfold test in Ht. unfold exec in *.
  destruct (search (multiline re) (items re) [] c) as [[bef r]|] eqn:E;
    [clear Ht|discriminate].
  destruct (MatchFacts.search_some _ _ _ _ _ _ E)
    as (pre & suf & Hc & Hb & Hm & Hfirst).
  rewrite app_nil_r in Hb.
  pose proof (MatchFacts.m_sound _ _ _ _ _ Hm) as Hsuf.
  assert (Heol : at_eol true (mrest r) = true).
  { rewrite Hits', Hml in Hm. exact (GroupFacts.m_at_eol _ _ _ _ _ Hm). }
  assert (Hbol : at_bol true (hd_error bef) = true).
  { rewrite Hits, Hml in Hm. cbn [app m] in Hm.
    now destruct (at_bol true (hd_error bef)). }
  pose proof Hm as Hm0.
  rewrite Hits in Hm.
  apply GroupFacts.m_one_group in Hm
    as (tp & G & tl & Ht & Hcaps & Hp & HG & Hpost);
    [|reflexivity|exact Hpf|reflexivity].
  cbn [MatchDefs.lang] in Hp, Hpost. subst tp. cbn [app] in Ht.
  exists pre, G, tl, (mrest r), r.
  split; [now rewrite Hb|].
  split; [exact Ht|]. split; [exact Hcaps|]. split; [reflexivity|].
  split.
  { intros a b Hab Hb' . specialize (Hfirst a b Hab Hb').
    rewrite app_nil_r, Hml, Hsuf, Ht, <- app_assoc in Hfirst.
    exact Hfirst. }
  split; [now rewrite Hc, Hsuf, Ht, <- app_assoc|].
  split; [exact HG|]. split.
  { destruct Hpost as [(sp & t' & -> & Hsp & ->) |
                       (x & t' & -> & Hx & sp & t'' & -> & Hsp & ->)].
    - exists [], sp. rewrite app_nil_r. auto.
    - cbn [atom_matches catom_matches] in Hx. apply N.eqb_eq in Hx.
      subst x.
      exists (str ";"), sp. rewrite app_nil_r. auto. }
  split.
  { subst bef. destruct pre as [|p0 pre0] using rev_ind; [now left|].
    right. exists pre0, p0. split; [reflexivity|].
    rewrite rev_app_distr in Hbol. exact Hbol. }
  split.
  { destruct (mrest r) as [|x rest']; [now left|].
    right. exists x, rest'. auto. }
  cbn [replacement_text]. rewrite Hcaps, Hto, Hb, rev_involutive.
  now rewrite <- app_assoc.
Qed.
End Lead.

Lemma run_call_lang (A B C : jsstring) (cls : atom) (G : jsstring) :
  MatchDefs.lang (lit A ++ [IAtom ADot Star] ++ lit B ++
                  [IAtom cls LazyStar] ++ lit C) G ->
  exists xs ys,
    G = A ++ xs ++ B ++ ys ++ C /\
    Forall (fun c => is_line_terminator c = false) xs.
Proof.
  intros H. apply MatchFacts.lang_lit in H as (t1 & -> & H).
  cbn [app MatchDefs.lang] in H. destruct H as (xs & t2 & -> & Hxs & H).
  apply MatchFacts.lang_lit in H as (t3 & -> & H).
  cbn [app MatchDefs.lang] in H. destruct H as (ys & t4 & -> & _ & H).
  apply CompleteFacts.lang_lit_only in H. subst t4.
  exists xs, ys. split; [reflexivity|].
  eapply Forall_impl; [|exact Hxs]. intros a Ha. cbn in Ha.
  now apply negb_true_iff in Ha.
Qed.

(** X19 — the CLI exit rule.  When the last rule is applied, the
    first match of its pattern in the buffer, none starting before it,
    is a line-anchored call
    [run([generate, migrate, pull, push, studio ... ], { ... })], which
    the group captures, followed by at most one semicolon and white
    space up to the end of a line; the rule keeps the call, puts the
    [.then(...)] text in place of that semicolon and white space, and
    leaves the text before and after as it is, later calls as well. *)
Theorem cli_exit_rewrite (c : jsstring) :
  success (snd (apply_rule cli_exit_rule c)) = true ->
  exists pre G tl rest r,
    exec (pattern_of runPattern) c = Some (rev pre, r) /\
    mtext r = G ++ tl /\ mcaps r = [G] /\ mrest r = rest /\
    (forall a b, pre = a ++ b -> b <> [] ->
                 m true (items (pattern_of runPattern)) (hd_error (rev a))
                   (b ++ G ++ tl ++ rest) = None) /\
    c = pre ++ G ++ tl ++ rest /\ run_call G /\ call_tail tl /\
    (pre = [] \/
     exists pre' x, pre = pre' ++ [x] /\ is_line_terminator x = true) /\
    (rest = [] \/
     exists x rest', rest = x :: rest' /\ is_line_terminator x = true) /\
    fst (apply_rule cli_exit_rule c) = pre ++ G ++ cli_exit_tail ++ rest.
Proof.
  assert (Hch : rule_changes cli_exit_rule)
    by (apply RuleFacts.rule_changes_In; vm_compute; tauto).
  rewrite (RuleFacts.apply_rule_iff _ c Hch).
  destruct (test (pattern_of (rule_pattern cli_exit_rule)) c) eqn:Ht;
    cbn [fst snd success]; [intros _|discriminate].
  destruct (lead_rewrite
              (pattern_of (rule_pattern cli_exit_rule))
              (lit (str "run([generate, migrate, pull, push, studio") ++
               [IAtom ADot Star] ++ lit (str "], {") ++
               [IAtom (AClass false [C_s; C_S]) LazyStar] ++
               lit (str "})"))
              (rule_to cli_exit_rule) cli_exit_tail
              eq_refl eq_refl eq_refl eq_refl eq_refl
              (fun mt bef aft G => eq_refl) c Ht)
    as (pre & G & tl & rest & r & He & Hmt & Hcaps & Hrest' & Hfirst & Hc &
        HG & Htl & Hpre & Hrest & Hout).
  exists pre, G, tl, rest, r.
  split; [exact He|]. split; [exact Hmt|]. split; [exact Hcaps|].
  split; [exact Hrest'|]. split; [exact Hfirst|]. split; [exact Hc|].
  split.
  { apply run_call_lang in HG as (xs & ys & -> & Hxs). now exists xs, ys. }
  split; [exact Htl|]. split; [exact Hpre|]. split; [exact Hrest|].
  exact Hout.
Qed.

Lemma cli_exit_rewrite_witness :
  exists pre G tl rest r,
    exec (pattern_of runPattern) Sample.two_runs = Some (rev pre, r) /\
    mtext r = G ++ tl /\ mcaps r = [G] /\ mrest r = rest /\
    (forall a b, pre = a ++ b -> b <> [] ->
                 m true (items (pattern_of runPattern)) (hd_error (rev a))
                   (b ++ G ++ tl ++ rest) = None) /\
    Sample.two_runs = pre ++ G ++ tl ++ rest /\ run_call G /\
    call_tail tl /\
    (pre = [] \/
     exists pre' x, pre = pre' ++ [x] /\ is_line_terminator x = true) /\
    (rest = [] \/
     exists x rest', rest = x :: rest' /\ is_line_terminator x = true) /\
    fst (apply_rule cli_exit_rule Sample.two_runs) =
    pre ++ G ++ cli_exit_tail ++ rest.
Proof.
  apply (cli_exit_rewrite Sample.two_runs). vm_compute. reflexivity.
Defined.

(** ** The checks of the test suite *)

Lemma no_line_break (l : jsstring) :
  forallb (fun c => negb (is_line_terminator c)) l = true ->
  Forall (fun c => is_line_terminator c = false) l.
Proof.
  intros H. apply Forall_forall. intros c Hc.
  apply negb_true_iff. revert c Hc. now apply forallb_forall.
Qed.

Lemma no_kit_no_match (p : jsstring) :
  JS.includes (str "drizzle-kit") p = false -> test bin_re p = false.
Proof.
  intros H. destruct (test bin_re p) eqn:E; [|reflexivity].
  apply bin_path_sound in E as (a & x & -> & _).
  assert (Hin : JS.includes (str "drizzle-kit")
                  (a ++ str "drizzle-kit" ++ x ++ str "/bin.cjs") = true)
    by (apply MatchFacts.includes_iff; now exists a, (x ++ str "/bin.cjs")).
  rewrite Hin in H. discriminate.
Qed.

(** X20 — which files the checks look at.  The script's own walk
    takes no path without [drizzle-kit] in it.  Under a test directory
    [.test-patch/drizzle-kit-VERSION] the same pattern takes every
    file [bin.cjs] below [node_modules], whichever package it belongs
    to: the name of the directory provides the [drizzle-kit]. *)
Theorem test_dir_accepts_any_bin :
  (forall p, JS.includes (str "drizzle-kit") p = false ->
             test bin_re p = false) /\
  (forall version x,
     Forall (fun c => is_line_terminator c = false) version ->
     Forall (fun c => is_line_terminator c = false) x ->
     test bin_re (walk_root (versionDir version) ++ x ++ str "/bin.cjs") =
     true).
Proof.
  split; [exact no_kit_no_match|].
  intros version x Hv Hx.
  assert (E : walk_root (versionDir version) ++ x ++ str "/bin.cjs" =
              str ".test-patch/" ++ str "drizzle-kit" ++
              (str "-" ++ version ++ str "/node_modules" ++ x) ++
              str "/bin.cjs").
  { unfold walk_root, versionDir, TEST_DIR. rewrite <- !app_assoc.
    reflexivity. }
  rewrite E. apply bin_path_complete.
  - apply Forall_app. split; [repeat constructor|].
    apply Forall_app. split; [exact Hv|].
    apply Forall_app. split; [|exact Hx].
    apply no_line_break. reflexivity.
Qed.

Lemma test_dir_accepts_any_bin_witness :
  test bin_re (walk_root (versionDir (str "0.30.6")) ++
               str "/.deno/esbuild@0.19.12/node_modules/esbuild" ++
               str "/bin.cjs") = true /\
  test bin_re (str "node_modules" ++
               str "/.deno/esbuild@0.19.12/node_modules/esbuild" ++
               str "/bin.cjs") = false.
Proof.
  split.
  - apply (proj2 test_dir_accepts_any_bin).
    + apply no_line_break. reflexivity.
    + apply no_line_break. reflexivity.
  - apply (proj1 test_dir_accepts_any_bin). reflexivity.
Defined.

Lemma checked_path_located (w : world) (p v : jsstring) :
  located w = Some (p, v) -> checked_path w = Some p.
Proof.
  unfold located, checked_path.
  induction (filter (fun e => test bin_re (path e)) (tree w)) as [|e l IH];
    cbn [first_file first_path]; [discriminate|].
  destruct (isFile e); [|exact IH]. now intros [= <- _].
Qed.

Lemma checked_path_tree (w w' : world) :
  tree w' = tree w -> checked_path w' = checked_path w.
Proof. unfold checked_path. now intros ->. Qed.

Lemma run_tree (h : host) (t : list WalkEntry)
      (d : jsstring -> option jsstring) :
  tree (snd (run h t d)) = t.
Proof.
  destruct (run_shape h t d) as [_ _ E | p v _ _ E | p v c _ _ _ E
    | p v c _ _ _ _ E | p v c _ _ _ _ _ E | _ _ E
    | p v c remains _ _ _ _ _ E];
    now rewrite E.
Qed.

Lemma checked_after_run (h : host) (t : list WalkEntry)
      (d : jsstring -> option jsstring) (p v : jsstring) :
  located (mkWorld h t d []) = Some (p, v) ->
  checked_path (snd (run h t d)) = Some p.
Proof.
  intros Hloc.
  rewrite (checked_path_tree (mkWorld h t d []) (snd (run h t d))
             (run_tree h t d)).
  exact (checked_path_located _ _ _ Hloc).
Qed.

Lemma checked_marker_included (content : jsstring) :
  JS.includes PATCH_MARKER content = true ->
  JS.includes CHECKED_MARKER content = true.
Proof.
  intros H. apply MatchFacts.includes_iff in H as (a & b & ->).
  apply MatchFacts.includes_iff. exists (a ++ str "// "), b.
  rewrite <- !app_assoc. reflexivity.
Qed.

(** X21 — the marker check after a run.  Let the check see the entries
    and files the script saw.  After a run on an artifact that has the
    current marker, and after a run that commits on an unmarked
    artifact whose first line is clear of the rule texts,
    [verifyPatchMarker] succeeds.  After a run that ends by
    [Deno.exit(1)] on an artifact without the text
    DRIZZLE-KIT-DENO-PATCHED-V10 it fails with "Patch marker not found
    in bin.cjs". *)
Theorem marker_check_after_run (h : host) (t : list WalkEntry)
        (d : jsstring -> option jsstring) (p v c : jsstring) :
  located (mkWorld h t d []) = Some (p, v) ->
  d p = Some c ->
  (JS.includes PATCH_MARKER c = true ->
   step_success (verifyPatchMarker (snd (run h t d))) = true) /\
  (JS.includes PATCH_MARKER c = false ->
   first_line_clear c = true ->
   fst (run h t d) = Normal tt ->
   step_success (verifyPatchMarker (snd (run h t d))) = true) /\
  (JS.includes CHECKED_MARKER c = false ->
   fst (run h t d) = Exit 1 ->
   verifyPatchMarker (snd (run h t d)) =
   mkStep (str "Verify patch marker") false
          (Some (ErrText (str "Patch marker not found in bin.cjs"))) None).
Proof.
  intros Hloc Hread. unfold verifyPatchMarker.
  rewrite (checked_after_run h t d p v Hloc).
  split; [|split].
  - intros Hm. unfold run.
    rewrite (run_already_patched _ p v c Hloc Hread Hm). cbn [snd disk].
    now rewrite Hread, (checked_marker_included c Hm).
  - intros Hm Hclear Hok.
    destruct (normal_commits h t d p v c Hloc Hread Hm Hok) as [Hn Hw].
    unfold run. rewrite (run_committed _ p v c Hloc Hread Hm Hn Hw).
    cbn [snd disk]. rewrite write_read.
    now rewrite (checked_marker_included _
                   (PrefixFacts.marker_kept_includes c Hclear)).
  - intros Hno Hexit.
    assert (Hm : JS.includes PATCH_MARKER c = false).
    { destruct (JS.includes PATCH_MARKER c) eqn:E; [|reflexivity].
      now rewrite (checked_marker_included c E) in Hno. }
    apply (proj1 (proj2 (gate_outcome h t d p v c Hloc Hread Hm))) in Hexit.
    unfold run. rewrite (run_aborted _ p v c Hloc Hread Hm Hexit).
    cbn [snd disk]. now rewrite Hread, Hno.
Qed.

Lemma marker_check_after_run_witness :
  step_success
    (verifyPatchMarker
       (snd (run Sample.plain (Sample.tree_of Sample.bin)
                 (Sample.disk_of Sample.bin Sample.bundle)))) = true.
Proof.
  apply (proj1 (proj2 (marker_check_after_run
                         Sample.plain (Sample.tree_of Sample.bin)
                         (Sample.disk_of Sample.bin Sample.bundle)
                         Sample.bin (str "0.31.8") Sample.bundle
                         eq_refl eq_refl)));
    vm_compute; reflexivity.
Defined.

Lemma missing_none (content : jsstring)
      (markers : list (jsstring * jsstring)) :
  missing_in content markers = [] <->
  forall mk, In mk markers -> JS.includes (snd mk) content = true.
Proof.
  unfold missing_in. induction markers as [|mk l IH]; cbn [filter map].
  - split; [intros _ mk []|reflexivity].
  - destruct (JS.includes (snd mk) content) eqn:E; cbn [negb map].
    + rewrite IH. split.
      * intros H mk' [<- | Hin]; auto.
      * intros H mk' Hin. apply H. now right.
    + split; [discriminate|]. intros H.
      rewrite (H mk (or_introl eq_refl)) in E. discriminate.
Qed.

Lemma found_missing_length (content : jsstring)
      (markers : list (jsstring * jsstring)) :
  length (found_in content markers) + length (missing_in content markers) =
  length markers.
Proof.
  unfold found_in, missing_in.
  induction markers as [|mk l IH]; [reflexivity|].
  cbn [filter]. destruct (JS.includes (snd mk) content);
    cbn [negb map length]; lia.
Qed.

(** X22 — [verifyAllPatches].  On a readable artifact the check
    succeeds exactly when the content includes the four critical
    texts; when it fails, its error is "Missing critical patches: "
    followed by the names of the missing ones; every one of the twelve
    names is counted once, as found or as missing. *)
Theorem verifyAllPatches_criterion (w : world) (p content : jsstring) :
  checked_path w = Some p ->
  disk w p = Some content ->
  (step_success (verifyAllPatches w) = true <->
   forall mk, In mk CRITICAL_PATCH_MARKERS ->
              JS.includes (snd mk) content = true) /\
  (step_success (verifyAllPatches w) = false ->
   step_err (verifyAllPatches w) =
   Some (ErrText (str "Missing critical patches: " ++
                  join (str ", ")
                       (missing_in content CRITICAL_PATCH_MARKERS)))) /\
  length (found_in content CRITICAL_PATCH_MARKERS ++
          found_in content OPTIONAL_PATCH_MARKERS) +
  length (missing_in content CRITICAL_PATCH_MARKERS) +
  length (missing_in content OPTIONAL_PATCH_MARKERS) = 12.
Proof.
  intros Hp Hd. unfold verifyAllPatches. rewrite Hp, Hd. cbv zeta.
  rewrite <- missing_none. split; [|split].
  - destruct (missing_in content CRITICAL_PATCH_MARKERS) as [|x l];
      cbn [length Nat.ltb Nat.leb step_success]; split;
      try reflexivity; discriminate.
  - destruct (missing_in content CRITICAL_PATCH_MARKERS) as [|x l];
      cbn [length Nat.ltb Nat.leb step_success step_err];
      [discriminate|reflexivity].
  - rewrite length_app.
    pose proof (found_missing_length content CRITICAL_PATCH_MARKERS) as H1.
    pose proof (found_missing_length content OPTIONAL_PATCH_MARKERS) as H2.
    change (length CRITICAL_PATCH_MARKERS) with 4 in H1.
    change (length OPTIONAL_PATCH_MARKERS) with 8 in H2. lia.
Qed.

Lemma verifyAllPatches_criterion_witness :
  step_err
    (verifyAllPatches
       (mkWorld Sample.plain (Sample.tree_of Sample.bin)
                (Sample.disk_of Sample.bin Sample.bundle) [])) =
  Some (ErrText (str "Missing critical patches: " ++
                 join (str ", ")
                      (missing_in Sample.bundle CRITICAL_PATCH_MARKERS))).
Proof.
  apply (proj1 (proj2 (verifyAllPatches_criterion
                         (mkWorld Sample.plain (Sample.tree_of Sample.bin)
                                  (Sample.disk_of Sample.bin Sample.bundle) [])
                         Sample.bin Sample.bundle eq_refl eq_refl))).
  vm_compute. reflexivity.
Defined.

Lemma walk_checked_not_empty : WALK_CHECKED <> [].
Proof. intros H. vm_compute in H. discriminate. Qed.

(** No rule after the first writes the text the check looks for
    under the name walkForTsConfig. *)
Lemma later_rules_shrink : Forall (rule_shrinks WALK_CHECKED) (tl RULES).
Proof.
  unfold RULES. cbn [tl].
  repeat (apply Forall_cons;
          [first
             [ apply (shrinks_plain WALK_CHECKED walk_checked_not_empty);
               vm_compute; reflexivity
             | apply (shrinks_mid WALK_CHECKED walk_checked_not_empty _ _
                        (str "const required = await import(")
                        (str "); // PATCHED: import for Deno TS support"));
               [intros; vm_compute; reflexivity | vm_compute; reflexivity ..]
             | apply (shrinks_mid WALK_CHECKED walk_checked_not_empty _ _
                        (str "const i0 = await import(")
                        (str "); // PATCHED: import for Deno TS support"));
               [intros; vm_compute; reflexivity | vm_compute; reflexivity ..]
             | apply (shrinks_lead WALK_CHECKED walk_checked_not_empty _
                        (tl (tl (items (pattern_of runPattern)))) _
                        (str ".then(() => { setTimeout(() => process.exit(0), 50); }); // PATCHED: force exit for Deno"));
               [intros; vm_compute; reflexivity | vm_compute; reflexivity ..]
             ] |]).
  apply Forall_nil.
Qed.

(** The marker line brings no occurrence of a text without a line
    break that the marker does not contain. *)
Lemma insert_marker_occ (K c : jsstring) :
  K <> [] -> ~ In NL K ->
  JS.includes K PATCH_MARKER = false ->
  JS.includes K c = false ->
  occurrences K (insert_marker c) = 0.
Proof.
  intros Hne Hnl HK Hc. rewrite MarkerFacts.insert_marker_cut.
  destruct (MarkerFacts.shebang_cut c) as [Hcut HL].
  rewrite Hcut in Hc. apply includes_parts in Hc as [HcL Hcr].
  assert (Hmid : occurrences K (PATCH_MARKER ++ [NL] ++ after_shebang c) = 0).
  { cbn [app]. rewrite (occ_cut_before _ Hne NL) by assumption.
    change (NL :: after_shebang c) with (([] ++ [NL]) ++ after_shebang c).
    rewrite (occ_cut_after _ Hne NL) by assumption.
    rewrite (occ_zero _ _ HK), (occ_zero _ _ Hcr).
    rewrite occ_zero; [reflexivity|].
    cbn [app JS.includes]. destruct K as [|k K']; [contradiction|].
    cbn [JS.startsWith]. destruct (N.eqb k NL) eqn:E.
    - apply N.eqb_eq in E. subst k. exfalso. apply Hnl. now left.
    - cbn. now destruct K'. }
  destruct HL as [-> | (l & El)].
  - exact Hmid.
  - rewrite El in *. rewrite (occ_cut_after _ Hne NL) by assumption.
    rewrite (occ_zero _ _ HcL), Hmid. reflexivity.
Qed.

(** X23 — the check is stricter than the commit gate.  Take an
    unmarked artifact without the text
    [return void 0; // PATCHED: disabled for Deno].  When a run
    reports the walkForTsConfig rule as failed and commits, as it
    does when the three rules of its own critical set are applied, the
    artifact it wrote fails [verifyAllPatches], which counts
    walkForTsConfig among the critical patches. *)
Theorem check_stricter_than_gate (h : host) (t : list WalkEntry)
        (d : jsstring -> option jsstring) (p v c : jsstring) :
  located (mkWorld h t d []) = Some (p, v) ->
  d p = Some c ->
  JS.includes PATCH_MARKER c = false ->
  JS.includes WALK_CHECKED c = false ->
  In (n_walkForTsConfig, false) (report (trace (snd (run h t d)))) ->
  fst (run h t d) = Normal tt ->
  step_success (verifyAllPatches (snd (run h t d))) = false /\
  In (str "walkForTsConfig")
     (missing_in (fst (apply_patches (insert_marker c)))
                 CRITICAL_PATCH_MARKERS) /\
  ~ In n_walkForTsConfig criticalPatches.
Proof.
  intros Hloc Hread Hm Hk Hrep Hok.
  destruct (gate_outcome h t d p v c Hloc Hread Hm) as (Hr & _).
  destruct (normal_commits h t d p v c Hloc Hread Hm Hok) as [Hn Hw].
  rewrite Hr in Hrep.
  assert (Hfirst : success (snd (apply_rule
                     (mkRule n_walkForTsConfig walkForTsConfig_re
                             walkForTsConfig_to) (insert_marker c))) = false).
  { rewrite apply_patches_run_rules in Hrep.
    change RULES
      with (mkRule n_walkForTsConfig walkForTsConfig_re walkForTsConfig_to ::
            tl RULES) in Hrep.
    rewrite run_rules_cons in Hrep. cbn [snd map] in Hrep.
    destruct Hrep as [H | H]; [now injection H as _ ->|].
    exfalso. apply in_map_iff in H as (res & Hres & Hin).
    injection Hres as Hname _.
    assert (Hnames : In (name res) (map rule_name (tl RULES))).
    { rewrite <- (run_rules_names (tl RULES)
                    (fst (apply_rule (mkRule n_walkForTsConfig
                            walkForTsConfig_re walkForTsConfig_to)
                            (insert_marker c)))).
      now apply in_map. }
    rewrite Hname in Hnames. vm_compute in Hnames.
    intuition discriminate. }
  assert (Hsame : fst (apply_rule (mkRule n_walkForTsConfig
                         walkForTsConfig_re walkForTsConfig_to)
                         (insert_marker c)) = insert_marker c).
  { rewrite (RuleFacts.apply_rule_iff _ _
               (RuleFacts.rule_changes_In _ (or_introl eq_refl))) in Hfirst |- *.
    destruct (test _ (insert_marker c)); [discriminate|reflexivity]. }
  assert (Hfinal : fst (apply_patches (insert_marker c)) =
                   fst (run_rules (tl RULES) (insert_marker c))).
  { rewrite apply_patches_run_rules.
    change RULES
      with (mkRule n_walkForTsConfig walkForTsConfig_re walkForTsConfig_to ::
            tl RULES) at 1.
    rewrite run_rules_cons. cbn [fst].
    exact (f_equal (fun b => fst (run_rules (tl RULES) b)) Hsame). }
  assert (Hout : JS.includes WALK_CHECKED
                   (fst (apply_patches (insert_marker c))) = false).
  { rewrite Hfinal.
    destruct (JS.includes WALK_CHECKED
                (fst (run_rules (tl RULES) (insert_marker c)))) eqn:E;
      [|reflexivity].
    exfalso. apply (occ_pos WALK_CHECKED) in E.
    pose proof (run_rules_occ WALK_CHECKED (tl RULES) later_rules_shrink
                  (insert_marker c)) as Hle.
    assert (Hz : occurrences WALK_CHECKED (insert_marker c) = 0).
    { apply (insert_marker_occ WALK_CHECKED c walk_checked_not_empty);
        [|reflexivity|exact Hk].
      intros Hin. vm_compute in Hin. intuition discriminate. }
    rewrite Hz in Hle.
    exact (Nat.nle_succ_0 _ (Nat.le_trans _ _ _ E Hle)). }
  assert (Hmiss : In (str "walkForTsConfig")
                     (missing_in (fst (apply_patches (insert_marker c)))
                                 CRITICAL_PATCH_MARKERS)).
  { unfold missing_in, CRITICAL_PATCH_MARKERS. cbn [filter snd].
    change (str "return void 0; // PATCHED: disabled for Deno")
      with WALK_CHECKED.
    rewrite Hout. cbn [negb map fst]. left. reflexivity. }
  split; [|split; [exact Hmiss|]].
  - unfold verifyAllPatches.
    rewrite (checked_after_run h t d p v Hloc). unfold run.
    rewrite (run_committed _ p v c Hloc Hread Hm Hn Hw). cbn [snd disk].
    rewrite write_read. cbv zeta.
    destruct (missing_in (fst (apply_patches (insert_marker c)))
                         CRITICAL_PATCH_MARKERS); [contradiction|reflexivity].
  - intros Hin. vm_compute in Hin. intuition discriminate.
Qed.

Lemma check_stricter_than_gate_witness :
  step_success
    (verifyAllPatches
       (snd (run Sample.plain (Sample.tree_of Sample.bin)
                 (Sample.disk_of Sample.bin Sample.critical_lines)))) = false.
Proof.
  refine (proj1 (check_stricter_than_gate
                   Sample.plain (Sample.tree_of Sample.bin)
                   (Sample.disk_of Sample.bin Sample.critical_lines)
                   Sample.bin (str "0.31.8") Sample.critical_lines
                   _ _ _ _ _ _)).
  - vm_compute. reflexivity.
  - vm_compute. reflexivity.
  - vm_compute. reflexivity.
  - vm_compute. reflexivity.
  - vm_compute. left. reflexivity.
  - vm_compute. reflexivity.
Defined.

(** ** The step that runs the script *)

Lemma last_or_nil {A : Type} (l : list A) :
  l = [] \/ exists l' x, l = l' ++ [x].
Proof.
  induction l as [|x l _] using rev_ind; [now left|]. right. now exists l, x.
Qed.

Lemma includes_drop_last (K a : jsstring) (c : N) :
  ~ In c K -> K <> [] ->
  JS.includes K (a ++ [c]) = true -> JS.includes K a = true.
Proof.
  intros Hc Hne H. apply MatchFacts.includes_iff in H as (l & r & E).
  destruct (last_or_nil r) as [-> | (r' & x & ->)].
  - rewrite app_nil_r in E.
    destruct (last_or_nil K) as [-> | (K' & y & ->)]; [contradiction|].
    rewrite app_assoc in E. apply app_inj_tail in E as [_ ->].
    exfalso. apply Hc, in_or_app. right. now left.
  - rewrite !app_assoc in E. apply app_inj_tail in E as [E _].
    apply MatchFacts.includes_iff. exists l, r'.
    now rewrite E, <- app_assoc.
Qed.

Lemma includes_drop_run (K v : jsstring) :
  K <> [] -> Forall (fun x => ~ In x K) v ->
  forall a, JS.includes K (a ++ v) = true -> JS.includes K a = true.
Proof.
  intros Hne Hv. induction Hv as [|x v Hx _ IH]; intros a H.
  - now rewrite app_nil_r in H.
  - change (a ++ x :: v) with (a ++ [x] ++ v) in H. rewrite app_assoc in H.
    apply IH in H. now apply includes_drop_last in H.
Qed.

(** A text cannot lie across a run of characters it does not have. *)
Lemma includes_around (K A v B : jsstring) :
  K <> [] -> v <> [] -> Forall (fun x => ~ In x K) v ->
  JS.includes K (A ++ v ++ B) = true ->
  JS.includes K A = true \/ JS.includes K B = true.
Proof.
  intros Hne Hv Hall H.
  destruct (last_or_nil v) as [-> | (v' & x & ->)]; [contradiction|].
  apply Forall_app in Hall as [Hv' Hx]. inversion Hx as [|? ? Hx' _]; subst.
  assert (E : A ++ (v' ++ [x]) ++ B = ((A ++ v') ++ [x]) ++ B)
    by (now rewrite <- !app_assoc).
  rewrite E in H.
  destruct (MarkerFacts.includes_split x K ((A ++ v') ++ [x]) B Hx' Hne
              (or_intror (ex_intro _ (A ++ v') eq_refl)) H) as [H1 | H1].
  - left. apply includes_drop_last in H1; auto.
    now apply includes_drop_run in H1.
  - now right.
Qed.

Lemma line_split (K : jsstring) (msg : message) (rest : jsstring) :
  ~ In NL K -> K <> [] ->
  JS.includes K (line msg ++ rest) = true ->
  JS.includes K (line msg) = true \/ JS.includes K rest = true.
Proof.
  intros Hnl Hne. apply (MarkerFacts.includes_split NL); auto.
  right. now exists (render msg).
Qed.

Lemma stdout_includes (K : jsstring) (tr : list event) (rest : jsstring) :
  ~ In NL K -> K <> [] ->
  JS.includes K (stdout_of tr ++ rest) = true ->
  (exists msg, In (Console Log msg) tr /\ JS.includes K (line msg) = true) \/
  JS.includes K rest = true.
Proof.
  intros Hnl Hne. induction tr as [|e tr IH]; cbn [stdout_of app];
    [now right|].
  assert (Hskip : JS.includes K (stdout_of tr ++ rest) = true ->
            (exists msg, In (Console Log msg) (e :: tr) /\
                         JS.includes K (line msg) = true) \/
            JS.includes K rest = true).
  { intros H. apply IH in H as [(msg & Hin & Hm) | H]; [left|now right].
    exists msg. split; [now right|exact Hm]. }
  destruct e as [[| |] msg | q c']; try exact Hskip.
  rewrite <- app_assoc. intros H.
  apply line_split in H as [H | H]; auto.
  left. exists msg. split; [now left|exact H].
Qed.

Lemma stderr_includes (K : jsstring) (tr : list event) (rest : jsstring) :
  ~ In NL K -> K <> [] ->
  JS.includes K (stderr_of tr ++ rest) = true ->
  (exists l msg, l <> Log /\ In (Console l msg) tr /\
                 JS.includes K (line msg) = true) \/
  JS.includes K rest = true.
Proof.
  intros Hnl Hne. induction tr as [|e tr IH]; cbn [stderr_of app];
    [now right|].
  assert (Hskip : JS.includes K (stderr_of tr ++ rest) = true ->
            (exists l msg, l <> Log /\ In (Console l msg) (e :: tr) /\
                           JS.includes K (line msg) = true) \/
            JS.includes K rest = true).
  { intros H. apply IH in H as [(l & msg & Hl & Hin & Hm) | H];
      [left|now right].
    exists l, msg. split; [exact Hl|]. split; [now right|exact Hm]. }
  destruct e as [[| |] msg | q c']; try exact Hskip.
  - rewrite <- app_assoc. intros H.
    apply line_split in H as [H | H]; auto.
    left. exists Warn, msg. split; [discriminate|]. split; [now left|exact H].
  - rewrite <- app_assoc. intros H.
    apply line_split in H as [H | H]; auto.
    left. exists Error, msg. split; [discriminate|]. split; [now left|exact H].
Qed.

Lemma stdout_has (K : jsstring) (tr : list event) (msg : message)
      (rest : jsstring) :
  In (Console Log msg) tr -> JS.includes K (line msg) = true ->
  JS.includes K (stdout_of tr ++ rest) = true.
Proof.
  intros Hin Hm. apply MarkerFacts.includes_app_l.
  induction tr as [|e tr IH]; [contradiction|].
  destruct Hin as [-> | Hin].
  - cbn [stdout_of]. now apply MarkerFacts.includes_app_l.
  - specialize (IH Hin).
    destruct e as [[| |] msg' | q c']; cbn [stdout_of]; try exact IH.
    now apply MarkerFacts.includes_app_r.
Qed.

(** The output of a process whose lines are all quiet holds neither
    text. *)
Lemma quiet_output (tr : list event) :
  (forall l msg, In (Console l msg) tr -> quietb msg = true) ->
  JS.includes PATCHED_TEXT (stdout_of tr ++ stderr_of tr) = false /\
  JS.includes ALREADY_TEXT (stdout_of tr ++ stderr_of tr) = false.
Proof.
  intros Hq.
  assert (Hone : forall K,
            ~ In NL K -> K <> [] ->
            (forall l msg, In (Console l msg) tr ->
                           JS.includes K (line msg) = false) ->
            JS.includes K (stdout_of tr ++ stderr_of tr) = false).
  { intros K Hnl Hne HK.
    destruct (JS.includes K (stdout_of tr ++ stderr_of tr)) eqn:E;
      [|reflexivity].
    exfalso. apply stdout_includes in E as [(msg & Hin & Hm) | E]; auto.
    - rewrite (HK _ _ Hin) in Hm. discriminate.
    - rewrite <- (app_nil_r (stderr_of tr)) in E.
      apply stderr_includes in E as [(l & msg & _ & Hin & Hm) | E]; auto.
      + rewrite (HK _ _ Hin) in Hm. discriminate.
      + destruct K; [contradiction|discriminate]. }
  split; apply Hone.
  - intros H. vm_compute in H. intuition discriminate.
  - discriminate.
  - intros l msg Hin. specialize (Hq l msg Hin). unfold quietb in Hq.
    apply andb_true_iff in Hq as [Hq _]. now apply negb_true_iff in Hq.
  - intros H. vm_compute in H. intuition discriminate.
  - discriminate.
  - intros l msg Hin. specialize (Hq l msg Hin). unfold quietb in Hq.
    apply andb_true_iff in Hq as [_ Hq]. now apply negb_true_iff in Hq.
Qed.

(** Digits and dots are in neither text. *)
Lemma version_chars_out (K v : jsstring) :
  forallb (fun k => negb (is_digit k) && negb (N.eqb k 46)) K = true ->
  Forall (fun x => is_digit x = true \/ x = 46%N) v ->
  Forall (fun x => ~ In x K) v.
Proof.
  intros HK Hv. eapply Forall_impl; [|exact Hv]. intros x Hx Hin.
  pose proof (proj1 (forallb_forall _ _) HK x Hin) as H.
  apply andb_true_iff in H as [Hd He].
  destruct Hx as [Hx | ->]; [now rewrite Hx in Hd|discriminate].
Qed.

Lemma quiet_around (A v B : jsstring) (msg : message) :
  line msg = A ++ v ++ B ->
  v <> [] ->
  Forall (fun x => is_digit x = true \/ x = 46%N) v ->
  JS.includes PATCHED_TEXT A = false -> JS.includes PATCHED_TEXT B = false ->
  JS.includes ALREADY_TEXT A = false -> JS.includes ALREADY_TEXT B = false ->
  quietb msg = true.
Proof.
  intros Hl Hne Hv HA1 HB1 HA2 HB2. unfold quietb. rewrite Hl.
  apply andb_true_iff. split; apply negb_true_iff.
  - destruct (JS.includes PATCHED_TEXT (A ++ v ++ B)) eqn:E; [|reflexivity].
    apply includes_around in E as [E | E]; try congruence; try assumption.
    + discriminate.
    + apply version_chars_out; [reflexivity|exact Hv].
  - destruct (JS.includes ALREADY_TEXT (A ++ v ++ B)) eqn:E; [|reflexivity].
    apply includes_around in E as [E | E]; try congruence; try assumption.
    + discriminate.
    + apply version_chars_out; [reflexivity|exact Hv].
Qed.

Lemma digits_chars (n : jsstring) :
  digits n -> n <> [] /\ Forall (fun x => is_digit x = true \/ x = 46%N) n.
Proof.
  intros [Hne H]. split; [exact Hne|].
  eapply Forall_impl; [|exact H]. intros x Hx. now left.
Qed.

Lemma quiet_older (n : jsstring) : digits n -> quietb (MsgOlderPatch n) = true.
Proof.
  intros Hn. destruct (digits_chars n Hn) as [Hne Hall].
  apply (quiet_around (RECYCLE ++ str "  Found older patch (v") n
                      (str "), will re-patch to v10" ++ [NL]));
    try assumption; try reflexivity.
  unfold line, render. now rewrite <- !app_assoc.
Qed.

Lemma quiet_warning (p : jsstring) :
  JS.eqb (extract_version p) (str "unknown") = false ->
  quietb (MsgMayNotBeCompatible (extract_version p)) = true.
Proof.
  intros Hu. unfold extract_version in *.
  destruct (exec version_re p) as [[bef r]|] eqn:E; [|discriminate].
  destruct (version_found p _ _ E)
    as (pre & x & y & z & post & _ & Hx & Hy & Hz & _ & Hv).
  unfold extract_version in Hv. rewrite E in Hv.
  destruct (nth_error (mcaps r) 0) as [ver|]; [|discriminate]. subst ver.
  apply digits_chars in Hx as [Hx Hxs], Hy as [_ Hys], Hz as [_ Hzs].
  apply (quiet_around (WARNING ++ str "  drizzle-kit@")
                      (x ++ str "." ++ y ++ str "." ++ z)
                      (str " may not be compatible (tested: " ++
                       join (str ", ") SUPPORTED_VERSIONS ++ str ")" ++
                       [NL]));
    try reflexivity.
  - unfold line, render. now rewrite <- !app_assoc.
  - destruct x; [contradiction|discriminate].
  - repeat (apply Forall_app; split); try assumption;
      repeat constructor; now right.
Qed.

Lemma quiet_results (c : jsstring) (res : PatchResult) :
  In res (snd (apply_patches c)) ->
  quietb (if success res then MsgApplied (name res)
          else MsgFailed (name res) (error res)) = true.
Proof.
  rewrite apply_patches_run_rules. intros Hin.
  apply run_rules_results in Hin as (i & r & Hi & ->).
  pose proof (nth_error_In _ _ Hi) as Hr.
  generalize (buffer_at RULES i c). intros c'.
  rewrite (RuleFacts.apply_rule_iff r c' (RuleFacts.rule_changes_In r Hr)).
  assert (Hall : forallb (fun r =>
                    quietb (MsgApplied (rule_name r)) &&
                    quietb (MsgFailed (rule_name r)
                                      (Some (str "Pattern not found"))))
                   RULES = true) by (vm_compute; reflexivity).
  pose proof (proj1 (forallb_forall _ _) Hall r Hr) as H.
  apply andb_true_iff in H as [H1 H2].
  destruct (test (pattern_of (rule_pattern r)) c');
    cbn [snd success name error]; assumption.
Qed.

Lemma quiet_found (v p : jsstring) :
  JS.includes PATCHED_TEXT (render (MsgFound v p)) = false ->
  JS.includes ALREADY_TEXT (render (MsgFound v p)) = false ->
  quietb (MsgFound v p) = true.
Proof.
  intros H1 H2. unfold quietb, line. apply andb_true_iff.
  split; apply negb_true_iff.
  - destruct (JS.includes PATCHED_TEXT (render (MsgFound v p) ++ [NL])) eqn:E;
      [|reflexivity].
    apply includes_drop_last in E; [congruence| |discriminate].
    intros H. vm_compute in H. intuition discriminate.
  - destruct (JS.includes ALREADY_TEXT (render (MsgFound v p) ++ [NL])) eqn:E;
      [|reflexivity].
    apply includes_drop_last in E; [congruence| |discriminate].
    intros H. vm_compute in H. intuition discriminate.
Qed.

Lemma quiet_preamble (v p : jsstring) :
  v = extract_version p ->
  quietb (MsgFound v p) = true ->
  forall l msg, In (Console l msg) (preamble v p) -> quietb msg = true.
Proof.
  intros Hv Hf l msg. unfold preamble.
  destruct (JS.eqb v (str "unknown")) eqn:Hu.
  - rewrite andb_false_r. intros [[= _ <-] | []]. exact Hf.
  - destruct (negb (JS.arr_includes v SUPPORTED_VERSIONS) && negb false).
    + intros [[= _ <-] | [[= _ <-] | [[= _ <-] | []]]];
        [exact Hf| |reflexivity].
      subst v. now apply quiet_warning.
    + intros [[= _ <-] | []]. exact Hf.
Qed.

Section Step.
Variable exn : jsstring.
Variable h : host.
Variable t : list WalkEntry.
Variable d : jsstring -> option jsstring.
Variables p v c : jsstring.
Hypothesis Hloc : located (mkWorld h t d []) = Some (p, v).
Hypothesis Hread : d p = Some c.
Hypothesis Hfound : quietb (MsgFound v p) = true.

Lemma step_normal (res : completion unit * world) :
  fst res = Normal tt ->
  step_success (runPatchScript (script_process exn res)) =
  JS.includes PATCHED_TEXT
    (stdout_of (trace (snd res)) ++ stderr_of (trace (snd res))) ||
  JS.includes ALREADY_TEXT
    (stdout_of (trace (snd res)) ++ stderr_of (trace (snd res))).
Proof. unfold script_process. now intros ->. Qed.

Lemma step_already :
  JS.includes PATCH_MARKER c = true ->
  step_success (runPatchScript (script_process exn (run h t d))) = true.
Proof.
  intros Hm.
  assert (Hrun : fst (run h t d) = Normal tt /\
                 trace (snd (run h t d)) =
                 preamble v p ++ [Console Log MsgAlreadyPatched]).
  { unfold run. rewrite (run_already_patched _ p v c Hloc Hread Hm).
    split; reflexivity. }
  destruct Hrun as [Hfst Htr]. rewrite (step_normal _ Hfst), Htr.
  apply orb_true_iff. right.
  apply (stdout_has ALREADY_TEXT _ MsgAlreadyPatched).
  - apply in_or_app. right. now left.
  - reflexivity.
Qed.

Lemma step_aborted :
  JS.includes PATCH_MARKER c = false ->
  criticalFailures (snd (apply_patches (insert_marker c))) <> [] ->
  step_success (runPatchScript (script_process exn (run h t d))) = false.
Proof.
  intros Hm Hc. unfold run.
  rewrite (run_aborted _ p v c Hloc Hread Hm Hc). reflexivity.
Qed.

Lemma step_rejected (remains : option jsstring) :
  JS.includes PATCH_MARKER c = false ->
  criticalFailures (snd (apply_patches (insert_marker c))) = [] ->
  on_write h p (fst (apply_patches (insert_marker c))) = Rejected remains ->
  step_success (runPatchScript (script_process exn (run h t d))) = false.
Proof.
  intros Hm Hc Hw. unfold run.
  rewrite (run_rejected _ p v c Hloc Hread remains Hm Hc Hw). reflexivity.
Qed.

Lemma step_committed :
  JS.includes PATCH_MARKER c = false ->
  criticalFailures (snd (apply_patches (insert_marker c))) = [] ->
  on_write h p (fst (apply_patches (insert_marker c))) = Done ->
  step_success (runPatchScript (script_process exn (run h t d))) =
  negb (existsb failed (snd (apply_patches (insert_marker c)))).
Proof.
  intros Hm Hc Hw.
  assert (Hrun : fst (run h t d) = Normal tt /\
                 trace (snd (run h t d)) =
                 preamble v p ++ older_note c ++
                 [Console Log MsgPatchResults] ++
                 map result_line (snd (apply_patches (insert_marker c))) ++
                 [WriteTextFile p (fst (apply_patches (insert_marker c)));
                  Console Log
                    (if existsb failed
                          (snd (apply_patches (insert_marker c)))
                     then MsgSomeFailed else MsgPatched)]).
  { unfold run. rewrite (run_committed _ p v c Hloc Hread Hm Hc Hw).
    split; reflexivity. }
  destruct Hrun as [Hfst Htr]. rewrite (step_normal _ Hfst), Htr.
  clear Hfst Htr.
  assert (Hq : forall res,
            In res (snd (apply_patches (insert_marker c))) ->
            quietb (if success res then MsgApplied (name res)
                    else MsgFailed (name res) (error res)) = true)
    by (intros res; apply quiet_results).
  revert Hq.
  generalize (snd (apply_patches (insert_marker c))) as results.
  generalize (fst (apply_patches (insert_marker c))) as buffer.
  intros buffer results Hq.
  destruct (existsb failed results) eqn:Ef; cbn [negb].
  - assert (Hall : forall l msg,
              In (Console l msg)
                 (preamble v p ++ older_note c ++
                  [Console Log MsgPatchResults] ++ map result_line results ++
                  [WriteTextFile p buffer; Console Log MsgSomeFailed]) ->
              quietb msg = true).
    { intros l msg Hin.
      apply in_app_or in Hin as [Hin | Hin].
      { apply (quiet_preamble v p (located_version _ _ _ Hloc) Hfound l msg Hin). }
      apply in_app_or in Hin as [Hin | Hin].
      { pose proof Hin as Hin'.
        apply In_older in Hin' as (bef & r & _ & [= -> ->]).
        apply (proj1 (older_note_spec c)) in Hin as (a & b & _ & Hn & _).
        now apply quiet_older. }
      apply in_app_or in Hin as [[[= <- <-] | []] | Hin]; [reflexivity|].
      apply in_app_or in Hin as [Hin | [Hin | [[= <- <-] | []]]].
      - apply In_lines in Hin as (res & Hres & [= -> ->]). now apply Hq.
      - discriminate.
      - reflexivity. }
    destruct (quiet_output _ Hall) as [H1 H2]. now rewrite H1, H2.
  - apply orb_true_iff. left.
    apply (stdout_has PATCHED_TEXT _ MsgPatched); [|reflexivity].
    apply in_or_app. right. apply in_or_app. right.
    apply in_or_app. right. apply in_or_app. right. right. now left.
Qed.
End Step.

(** X24 — the step that runs the script.  Take a located, readable
    artifact whose Found line holds neither of the two texts the step
    looks for.  The step "Apply patch" of the test suite succeeds
    exactly when the artifact already had the marker, or the run
    returned normally and all fifteen rules were applied: a run that
    commits with a failed rule outside the critical set ends with
    status 0 and still fails the step. *)
Theorem apply_patch_step (exn : jsstring) (h : host) (t : list WalkEntry)
        (d : jsstring -> option jsstring) (p v c : jsstring) :
  located (mkWorld h t d []) = Some (p, v) ->
  d p = Some c ->
  JS.includes PATCHED_TEXT (render (MsgFound v p)) = false ->
  JS.includes ALREADY_TEXT (render (MsgFound v p)) = false ->
  (step_success (runPatchScript (script_process exn (run h t d))) = true <->
   JS.includes PATCH_MARKER c = true \/
   (fst (run h t d) = Normal tt /\
    forall r, In r (snd (apply_patches (insert_marker c))) ->
              success r = true)).
Proof.
  intros Hloc Hread H1 H2. pose proof (quiet_found v p H1 H2) as Hf.
  destruct (JS.includes PATCH_MARKER c) eqn:Hm.
  - rewrite (step_already exn h t d p v c Hloc Hread Hm). tauto.
  - destruct (gate_outcome h t d p v c Hloc Hread Hm)
      as (_ & Hexit & Hnormal).
    destruct (criticalFailures (snd (apply_patches (insert_marker c))))
      as [|f fs] eqn:Hc.
    + destruct (on_write h p (fst (apply_patches (insert_marker c))))
        as [|remains] eqn:Hw.
      * rewrite (step_committed exn h t d p v c Hloc Hread Hf Hm Hc Hw).
        destruct (failed_cases (snd (apply_patches (insert_marker c))))
          as [HP HS].
        destruct (existsb failed (snd (apply_patches (insert_marker c))));
          cbn [negb]; split.
        -- discriminate.
        -- intros [H | [_ H]]; [discriminate|].
           apply (proj2 HP) in H. discriminate.
        -- intros _. right. split; [apply Hnormal; now split|].
           now apply (proj1 HP).
        -- reflexivity.
      * rewrite (step_rejected exn h t d p v c Hloc Hread remains Hm Hc Hw).
        split; [discriminate|]. intros [H | [H _]]; [discriminate|].
        apply Hnormal in H. destruct H as [_ H]. discriminate H.
    + assert (Hc' : criticalFailures
                      (snd (apply_patches (insert_marker c))) <> [])
        by (rewrite Hc; discriminate).
      rewrite (step_aborted exn h t d p v c Hloc Hread Hm Hc').
      split; [discriminate|]. intros [H | [H _]]; [discriminate|].
      apply Hnormal in H. destruct H as [H _]. discriminate H.
Qed.

Lemma apply_patch_step_witness :
  step_success
    (runPatchScript
       (script_process []
          (run Sample.plain (Sample.tree_of Sample.bin)
               (Sample.disk_of Sample.bin Sample.bundle_patched)))) = true.
Proof.
  refine (proj2 (apply_patch_step []
                   Sample.plain (Sample.tree_of Sample.bin)
                   (Sample.disk_of Sample.bin Sample.bundle_patched)
                   Sample.bin (str "0.31.8") Sample.bundle_patched
                   _ _ _ _) _).
  - vm_compute. reflexivity.
  - vm_compute. reflexivity.
  - vm_compute. reflexivity.
  - vm_compute. reflexivity.
  - left. vm_compute. reflexivity.
Defined.
